(** * Row-store modification core and its test driver

    A shallow embedding of [src/btree/row_modify.c] (insert and update
    serialization, the obsolete-update collector, the modify entry point)
    and of the parts of [test/format/ops.c] that drive it (the append
    table, [read_row], the next/prev walk of a worker iteration).

    The definitions come first, in [RowModify] and [FormatOps]; what is
    proved about them follows in [RowModifyFacts] and [FormatOpsFacts].

    Memory is modelled field by field: every pointer-valued field of the C
    structures is a location of [loc], and the heap maps locations to the
    non-null addresses they hold.  A location with no entry holds NULL,
    which is also what [calloc]-ed memory reads. *)

From Stdlib Require Import ZArith Lia Bool List.
From stdpp Require Import base decidable countable gmap list option.

Module RowModify.

(** ** Addresses, locations and the page state *)

(** A non-null address.  A C pointer is an [option ptr]; [None] is NULL. *)
Abbreviation ptr := positive (only parsing).

(** The pointer-valued fields the row-store code reads and writes. *)
Inductive loc : Type :=
  | PageUpd                       (* page->u.row.upd *)
  | PageIns                       (* page->u.row.ins *)
  | UpdArr (a : ptr) (i : nat)    (* entry i of the update array a *)
  | InsArr (a : ptr) (i : nat)    (* entry i of the insert array a *)
  | HeadHead (h : ptr) (i : nat)  (* h->head[i] *)
  | HeadTail (h : ptr) (i : nat)  (* h->tail[i] *)
  | InsNext (n : ptr) (i : nat)   (* n->next[i] *)
  | InsUpd (n : ptr)              (* n->upd *)
  | UpdNext (u : ptr).            (* u->next *)

#[global] Instance loc_eq_dec : EqDecision loc.
Proof. solve_decision. Defined.

Definition loc_encode (l : loc) : nat * (positive * nat) :=
  match l with
  | PageUpd => (0, (1%positive, 0))
  | PageIns => (1, (1%positive, 0))
  | UpdArr a i => (2, (a, i))
  | InsArr a i => (3, (a, i))
  | HeadHead h i => (4, (h, i))
  | HeadTail h i => (5, (h, i))
  | InsNext n i => (6, (n, i))
  | InsUpd n => (7, (n, 0))
  | UpdNext u => (8, (u, 0))
  end.

Definition loc_decode (c : nat * (positive * nat)) : loc :=
  match c with
  | (0, _) => PageUpd
  | (1, _) => PageIns
  | (2, (a, i)) => UpdArr a i
  | (3, (a, i)) => InsArr a i
  | (4, (h, i)) => HeadHead h i
  | (5, (h, i)) => HeadTail h i
  | (6, (n, i)) => InsNext n i
  | (7, (n, _)) => InsUpd n
  | (_, (u, _)) => UpdNext u
  end.

#[global] Instance loc_countable : Countable loc.
Proof.
  refine (inj_countable' loc_encode loc_decode _).
  intros []; reflexivity.
Defined.

(** Calls into the transaction manager that the caller can later observe. *)
Inductive txn_event : Type :=
  | TxnModify (u : ptr)           (* __wt_txn_modify(session, &u->txnid) *)
  | TxnUnmodify.                  (* __wt_txn_unmodify(session) *)

Record state : Type := State {
  mem : gmap loc positive;              (* pointer fields; no entry = NULL *)
  upd_txnid : gmap positive Z;          (* WT_UPDATE.txnid *)
  upd_size : gmap positive Z;           (* WT_UPDATE.size, a uint32_t *)
  upd_data : gmap positive (list Byte.byte);   (* WT_UPDATE_DATA(upd) *)
  ins_key : gmap positive (list Byte.byte);    (* WT_INSERT_KEY(ins) *)
  live : gset positive;                 (* blocks allocated and not freed *)
  block_bytes : gmap positive Z;        (* the bytes each block was allocated with *)
  next_block : positive;                (* the allocator hands out fresh addresses *)
  memory_footprint : Z;                 (* the page's in-memory byte count *)
  page_modified : bool;                 (* __wt_page_and_tree_modify_set *)
  txn_log : list txn_event              (* newest call first *)
}.

Definition set_mem (f : gmap loc positive → gmap loc positive) (σ : state) : state :=
  {| mem := f (mem σ); upd_txnid := upd_txnid σ; upd_size := upd_size σ;
     upd_data := upd_data σ; ins_key := ins_key σ; live := live σ;
     block_bytes := block_bytes σ;
     next_block := next_block σ;
     memory_footprint := memory_footprint σ; page_modified := page_modified σ;
     txn_log := txn_log σ |}.

Definition set_upd_txnid (f : gmap positive Z → gmap positive Z) (σ : state) : state :=
  {| mem := mem σ; upd_txnid := f (upd_txnid σ); upd_size := upd_size σ;
     upd_data := upd_data σ; ins_key := ins_key σ; live := live σ;
     block_bytes := block_bytes σ;
     next_block := next_block σ;
     memory_footprint := memory_footprint σ; page_modified := page_modified σ;
     txn_log := txn_log σ |}.

Definition set_upd_size (f : gmap positive Z → gmap positive Z) (σ : state) : state :=
  {| mem := mem σ; upd_txnid := upd_txnid σ; upd_size := f (upd_size σ);
     upd_data := upd_data σ; ins_key := ins_key σ; live := live σ;
     block_bytes := block_bytes σ;
     next_block := next_block σ;
     memory_footprint := memory_footprint σ; page_modified := page_modified σ;
     txn_log := txn_log σ |}.

Definition set_upd_data
    (f : gmap positive (list Byte.byte) → gmap positive (list Byte.byte))
    (σ : state) : state :=
  {| mem := mem σ; upd_txnid := upd_txnid σ; upd_size := upd_size σ;
     upd_data := f (upd_data σ); ins_key := ins_key σ; live := live σ;
     block_bytes := block_bytes σ;
     next_block := next_block σ;
     memory_footprint := memory_footprint σ; page_modified := page_modified σ;
     txn_log := txn_log σ |}.

Definition set_ins_key
    (f : gmap positive (list Byte.byte) → gmap positive (list Byte.byte))
    (σ : state) : state :=
  {| mem := mem σ; upd_txnid := upd_txnid σ; upd_size := upd_size σ;
     upd_data := upd_data σ; ins_key := f (ins_key σ); live := live σ;
     block_bytes := block_bytes σ;
     next_block := next_block σ;
     memory_footprint := memory_footprint σ; page_modified := page_modified σ;
     txn_log := txn_log σ |}.

Definition set_live (f : gset positive → gset positive) (σ : state) : state :=
  {| mem := mem σ; upd_txnid := upd_txnid σ; upd_size := upd_size σ;
     upd_data := upd_data σ; ins_key := ins_key σ; live := f (live σ);
     block_bytes := block_bytes σ;
     next_block := next_block σ;
     memory_footprint := memory_footprint σ; page_modified := page_modified σ;
     txn_log := txn_log σ |}.

Definition set_block_bytes (f : gmap positive Z → gmap positive Z) (σ : state)
    : state :=
  {| mem := mem σ; upd_txnid := upd_txnid σ; upd_size := upd_size σ;
     upd_data := upd_data σ; ins_key := ins_key σ; live := live σ;
     block_bytes := f (block_bytes σ);
     next_block := next_block σ;
     memory_footprint := memory_footprint σ; page_modified := page_modified σ;
     txn_log := txn_log σ |}.

Definition set_next_block (b : positive) (σ : state) : state :=
  {| mem := mem σ; upd_txnid := upd_txnid σ; upd_size := upd_size σ;
     upd_data := upd_data σ; ins_key := ins_key σ; live := live σ;
     block_bytes := block_bytes σ;
     next_block := b;
     memory_footprint := memory_footprint σ; page_modified := page_modified σ;
     txn_log := txn_log σ |}.

Definition set_memory_footprint (f : Z → Z) (σ : state) : state :=
  {| mem := mem σ; upd_txnid := upd_txnid σ; upd_size := upd_size σ;
     upd_data := upd_data σ; ins_key := ins_key σ; live := live σ;
     block_bytes := block_bytes σ;
     next_block := next_block σ;
     memory_footprint := f (memory_footprint σ); page_modified := page_modified σ;
     txn_log := txn_log σ |}.

Definition set_page_modified (b : bool) (σ : state) : state :=
  {| mem := mem σ; upd_txnid := upd_txnid σ; upd_size := upd_size σ;
     upd_data := upd_data σ; ins_key := ins_key σ; live := live σ;
     block_bytes := block_bytes σ;
     next_block := next_block σ;
     memory_footprint := memory_footprint σ; page_modified := b;
     txn_log := txn_log σ |}.

Definition set_txn_log (f : list txn_event → list txn_event) (σ : state) : state :=
  {| mem := mem σ; upd_txnid := upd_txnid σ; upd_size := upd_size σ;
     upd_data := upd_data σ; ins_key := ins_key σ; live := live σ;
     block_bytes := block_bytes σ;
     next_block := next_block σ;
     memory_footprint := memory_footprint σ; page_modified := page_modified σ;
     txn_log := f (txn_log σ) |}.

(** Reading and writing the field [l]. *)
Definition load (σ : state) (l : loc) : option positive := mem σ !! l.

Definition store (l : loc) (v : option positive) (σ : state) : state :=
  set_mem (partial_alter (λ _, v) l) σ.

(** [WT_ATOMIC_CAS] on the field [l]: the flag tells whether the swap was made. *)
Definition WT_ATOMIC_CAS (l : loc) (old new : option positive) (σ : state)
    : bool * state :=
  if decide (load σ l = old) then (true, store l new σ) else (false, σ).

(** The empty page: nothing allocated, every field NULL. *)
Definition empty_state : state :=
  {| mem := ∅; upd_txnid := ∅; upd_size := ∅; upd_data := ∅; ins_key := ∅;
     live := ∅; block_bytes := ∅; next_block := 1; memory_footprint := 0; page_modified := false; txn_log := [] |}.

(** ** The insert serialization function

    [__wt_insert_serial_func] receives, unpacked from its argument block,
    the skip-list head [ins_head], the cursor's stack of predecessor
    pointers [ins_stack] with the successors [next_stack] the search saw,
    the new node [new_ins] and its depth.  The page's write generation is
    unpacked as well and, as the source says, largely ignored.  The write
    barrier between the two publish loops is for the readers, who take no
    lock; the model runs the stores in program order. *)

(** [stk[i]]; the stacks have [WT_SKIP_MAXDEPTH] entries and the depth never
    exceeds that, the model reads NULL outside the array. *)
Definition stack_at {A : Type} (stk : list (option A)) (i : nat) : option A :=
  match stk !! i with
  | Some v => v
  | None => None
  end.

(** [ins_head->tail[i] == NULL || p == &ins_head->tail[i]->next[i]] *)
Definition is_new_tail (σ : state) (ins_head : ptr) (p : loc) (i : nat) : bool :=
  match load σ (HeadTail ins_head i) with
  | None => true
  | Some t => bool_decide (p = InsNext t i)
  end.

(** The body of the validation loop at level [i]: [true] when the function
    returns [WT_RESTART] there. *)
Definition level_stale (σ : state) (ins_head : ptr)
    (ins_stack : list (option loc)) (next_stack : list (option ptr))
    (i : nat) : bool :=
  match stack_at ins_stack i with
  | None => true
  | Some p =>
      negb (bool_decide (load σ p = stack_at next_stack i))
      || (bool_decide (stack_at next_stack i = None)
          && negb (is_new_tail σ ins_head p i))
  end.

(** [new_ins->next[i] = *ins_stack[i]] *)
Definition set_new_next (ins_stack : list (option loc)) (new_ins : ptr)
    (σ : state) (i : nat) : state :=
  match stack_at ins_stack i with
  | Some p => store (InsNext new_ins i) (load σ p) σ
  | None => σ        (* not reached: the validation loop rejected NULL *)
  end.

(** The body of the second publish loop: move the tail if the new node is
    the last one on the level, then point the predecessor at it. *)
Definition link_pred (ins_head : ptr) (ins_stack : list (option loc))
    (new_ins : ptr) (σ : state) (i : nat) : state :=
  match stack_at ins_stack i with
  | Some p =>
      let σ1 :=
        if is_new_tail σ ins_head p i
        then store (HeadTail ins_head i) (Some new_ins) σ
        else σ in
      store p (Some new_ins) σ1
  | None => σ        (* not reached: the validation loop rejected NULL *)
  end.

Section InsertSerial.

(** The error code; its value is in a header that is not among the sources. *)
Variable WT_RESTART : Z.

(** Whether the page's write generation has wrapped. *)
Variable write_gen_wrapped : state → bool.

(** Modelled from the spec: [__wt_page_write_gen_wrapped_check] is an
    inline helper of a header that is not among the sources; the step
    "fails fast with restart if the generation has wrapped". *)
Definition __wt_page_write_gen_wrapped_check (σ : state) : Z :=
  if write_gen_wrapped σ then WT_RESTART else 0%Z.

(** The result is the return value, whether the new node was marked taken
    ([__wt_insert_new_ins_taken]), and the state. *)
Definition __wt_insert_serial_func (σ : state) (ins_head : ptr)
    (ins_stack : list (option loc)) (next_stack : list (option ptr))
    (new_ins : ptr) (skipdepth : nat) : Z * bool * state :=
  let ret := __wt_page_write_gen_wrapped_check σ in
  if negb (ret =? 0)%Z then (ret, false, σ)
  else if existsb (level_stale σ ins_head ins_stack next_stack)
                  (seq 0 skipdepth)
  then (WT_RESTART, false, σ)
  else
    let σ1 := fold_left (set_new_next ins_stack new_ins) (seq 0 skipdepth) σ in
    let σ2 := fold_left (link_pred ins_head ins_stack new_ins)
                        (seq 0 skipdepth) σ1 in
    (0%Z, true, set_page_modified true σ2).

End InsertSerial.

(** A skip-list head at address 1 whose only node, at address 2, is linked
    at level 0. *)
Definition ex_one_node : state :=
  store (HeadHead 1 0) (Some 2%positive)
    (store (HeadTail 1 0) (Some 2%positive) empty_state).

(** The level of a skip-list field, and whether a pointer is the address of
    a forward pointer of level [i] (a head's [head[i]] or a node's
    [next[i]]), which is what the search leaves in [ins_stack[i]]. *)
Definition loc_level (l : loc) : option nat :=
  match l with
  | HeadHead _ i | HeadTail _ i | InsNext _ i => Some i
  | _ => None
  end.

Definition is_fwd_at (i : nat) (p : loc) : bool :=
  match p with
  | HeadHead _ j | InsNext _ j => bool_decide (j = i)
  | _ => false
  end.

(** ** Update chains and the obsolete-update collector *)

Definition txnid_of (σ : state) (u : ptr) : Z := default 0%Z (upd_txnid σ !! u).
Definition size_of (σ : state) (u : ptr) : Z := default 0%Z (upd_size σ !! u).

(** [__wt_free(session, p)]: NULL is accepted and ignored. *)
Definition __wt_free (p : option ptr) (σ : state) : state :=
  match p with
  | Some a => set_live (λ s, s ∖ {[a]}) σ
  | None => σ
  end.

(** The nodes met when following [next] from [p] until [q] is reached. *)
Fixpoint lseg (σ : state) (p : option ptr) (l : list ptr) (q : option ptr) : Prop :=
  match l with
  | [] => p = q
  | u :: l' => p = Some u ∧ lseg σ (load σ (UpdNext u)) l' q
  end.

(** A NULL-terminated update list. *)
Definition chain (σ : state) (p : option ptr) (l : list ptr) : Prop :=
  lseg σ p l None.

Section Obsolete.

(** [__wt_txn_visible_all(session, id)], from the transaction manager. *)
Variable __wt_txn_visible_all : Z → bool.

(** What other threads did to the page between this thread's read of
    [upd->next] and its compare-and-swap. *)
Variable racer : state → state.

(** The body run at the first update that is visible to all: the list
    behind it is cut off and returned, unless there is none or the
    compare-and-swap of [upd->next] loses. *)
Definition obsolete_truncate (σ : state) (upd : ptr) : option ptr * state :=
  match load σ (UpdNext upd) with
  | None => (None, σ)
  | Some next =>
      let '(swapped, σ') :=
        WT_ATOMIC_CAS (UpdNext upd) (Some next) None (racer σ) in
      if swapped then (Some next, σ') else (None, σ')
  end.

(** [None] when the walk has not ended after [fuel] nodes. *)
Fixpoint __wt_update_obsolete_check (fuel : nat) (σ : state)
    (upd : option ptr) : option (option ptr * state) :=
  match fuel with
  | 0 => None
  | S fuel' =>
      match upd with
      | None => Some (None, σ)
      | Some u =>
          if __wt_txn_visible_all (txnid_of σ u)
          then Some (obsolete_truncate σ u)
          else __wt_update_obsolete_check fuel' σ (load σ (UpdNext u))
      end
  end.

End Obsolete.

(** Three versions of one key, newest first: node 3 (transaction 30) then
    node 2 (transaction 20) then node 1 (transaction 10); the head of the
    list is entry 0 of the update array at address 9. *)
Definition ex_three_versions : state :=
  set_upd_txnid (λ _, {[ 3%positive := 30%Z; 2%positive := 20%Z; 1%positive := 10%Z ]})
    (set_live (λ _, {[ 1%positive; 2%positive; 3%positive; 9%positive ]})
       (store (UpdArr 9 0) (Some 3%positive)
          (store (UpdNext 3) (Some 2%positive)
             (store (UpdNext 2) (Some 1%positive) empty_state)))).

(** ** The update serialization function *)

(** The two places an update list hangs from: an entry of the page's
    update array, or an insert node's [upd] field. *)
Definition is_upd_head (l : loc) : bool :=
  match l with
  | UpdArr _ _ | InsUpd _ => true
  | _ => false
  end.

Section UpdateSerial.

Variable WT_RESTART : Z.
Variable write_gen_wrapped : state → bool.
Variable __wt_txn_visible_all : Z → bool.
Variable racer : state → state.

(** [__wt_txn_update_check(session, upd)], from the transaction manager:
    0, or the error that reports a write conflict. *)
Variable __wt_txn_update_check : state → option ptr → Z.

(** The result is the return value, whether the update was marked taken
    ([__wt_update_upd_taken]), the obsolete list handed back through
    [upd_obsolete], and the state; [None] when the collector's walk has
    not ended after [fuel] nodes. *)
Definition __wt_update_serial_func (fuel : nat) (σ : state)
    (upd_entry : loc) (old_upd : option ptr) (upd : ptr)
    : option (Z * bool * option ptr * state) :=
  let ret := __wt_page_write_gen_wrapped_check WT_RESTART write_gen_wrapped σ in
  if negb (ret =? 0)%Z then Some (ret, false, None, σ)
  else
    let ret :=
      if bool_decide (old_upd ≠ load σ upd_entry)
      then __wt_txn_update_check σ (load σ upd_entry)
      else 0%Z in
    if negb (ret =? 0)%Z then Some (ret, false, None, σ)
    else
      (* upd->next = *upd_entry *)
      let σ1 := store (UpdNext upd) (load σ upd_entry) σ in
      (* WT_PUBLISH( *upd_entry, upd) *)
      let σ2 := store upd_entry (Some upd) σ1 in
      match __wt_update_obsolete_check __wt_txn_visible_all racer fuel σ2
              (load σ2 (UpdNext upd)) with
      | None => None
      | Some (obsolete, σ3) =>
          Some (0%Z, true, obsolete, set_page_modified true σ3)
      end.

End UpdateSerial.

(** ** Allocating and freeing updates *)

(** Arithmetic on [size_t] and the cast to the [uint32_t] size field. *)
Definition size_t_wrap (z : Z) : Z := (z mod 2 ^ 64)%Z.
Definition WT_STORE_SIZE (z : Z) : Z := (z mod 2 ^ 32)%Z.

(** Modelled from the spec: the cache layer's [page_inmem_incr(page, bytes)]
    and [page_inmem_decr(page, bytes)] (functions of a header that is not
    among the sources) adjust the page's in-memory byte accounting. *)
Definition __wt_cache_page_inmem_incr (bytes : Z) (σ : state) : state :=
  set_memory_footprint (λ m, m + bytes)%Z σ.

Definition __wt_cache_page_inmem_decr (bytes : Z) (σ : state) : state :=
  set_memory_footprint (λ m, m - bytes)%Z σ.

Section Updates.

(** [sizeof(WT_UPDATE)]. *)
Variable sizeof_WT_UPDATE : Z.

(** Modelled from the spec: a tombstone is an update without payload.
    The macros [WT_UPDATE_DELETED_SET] and [WT_UPDATE_DELETED_ISSET] are in
    a header that is not among the sources; as the comment in
    [__wt_update_obsolete_free] says, deleted items carry a dummy value in
    their size field, which is this parameter. *)
Variable WT_UPDATE_DELETED_VALUE : Z.

(** The return value of the allocator at this call: 0, or an error. *)
Variable calloc_ret : state → Z.

Definition WT_UPDATE_DELETED_ISSET (σ : state) (upd : ptr) : bool :=
  bool_decide (size_of σ upd = WT_UPDATE_DELETED_VALUE).

Definition WT_UPDATE_DELETED_SET (upd : ptr) (σ : state) : state :=
  set_upd_size (<[upd := WT_UPDATE_DELETED_VALUE]>) σ.

(** [__wt_calloc(session, number, size, &p)]: on success a block of
    [number] elements of [size] bytes at a fresh address, where every
    field reads zero. *)
Definition __wt_calloc (number size : Z) (σ : state) : Z * option ptr * state :=
  let ret := calloc_ret σ in
  if negb (ret =? 0)%Z then (ret, None, σ)
  else
    let a := next_block σ in
    (0%Z, Some a,
     set_block_bytes (<[a := (number * size)%Z]>)
       (set_next_block (Pos.succ a) (set_live (λ s, {[a]} ∪ s) σ))).

(** The result is the return value, [*updp], [*sizep] and the state; a NULL
    [value] asks for a tombstone. *)
Definition __wt_update_alloc (σ : state) (value : option (list Byte.byte))
    : Z * option ptr * Z * state :=
  let size :=
    match value with
    | None => 0%Z
    | Some v => Z.of_nat (length v)
    end in
  match __wt_calloc 1 (size_t_wrap (sizeof_WT_UPDATE + size)) σ with
  | (ret, None, σ1) => (ret, None, 0%Z, σ1)
  | (_, Some upd, σ1) =>
      let σ2 :=
        match value with
        | None => WT_UPDATE_DELETED_SET upd σ1
        | Some v =>
            set_upd_data (<[upd := v]>)
              (set_upd_size (<[upd := WT_STORE_SIZE size]>) σ1)
        end in
      (0%Z, Some upd, size_t_wrap (sizeof_WT_UPDATE + size), σ2)
  end.

(** The loop of [__wt_update_obsolete_free]: the bytes counted so far and
    the state once the list is exhausted; [None] when it is not after
    [fuel] nodes. *)
Fixpoint obsolete_free_walk (fuel : nat) (σ : state) (upd : option ptr)
    (size : Z) : option (Z * state) :=
  match fuel with
  | 0 => None
  | S fuel' =>
      match upd with
      | None => Some (size, σ)
      | Some u =>
          let size :=
            size_t_wrap
              (size + (sizeof_WT_UPDATE +
                       (if WT_UPDATE_DELETED_ISSET σ u then 0
                        else size_of σ u)))%Z in
          let next := load σ (UpdNext u) in
          obsolete_free_walk fuel' (__wt_free (Some u) σ) next size
      end
  end.

Definition __wt_update_obsolete_free (fuel : nat) (σ : state)
    (upd : option ptr) : option state :=
  match obsolete_free_walk fuel σ upd 0%Z with
  | None => None
  | Some (size, σ') =>
      Some (if negb (size =? 0)%Z
            then __wt_cache_page_inmem_decr size σ' else σ')
  end.

(** What the claim counts for one node: the fixed record size plus the
    payload size, the payload of a tombstone counting as zero. *)
Definition update_footprint (σ : state) (u : ptr) : Z :=
  if WT_UPDATE_DELETED_ISSET σ u then sizeof_WT_UPDATE
  else (sizeof_WT_UPDATE + size_of σ u)%Z.

Definition list_footprint (σ : state) (l : list ptr) : Z :=
  foldr (λ u acc, update_footprint σ u + acc)%Z 0%Z l.

End Updates.

(** The list of [ex_three_versions] with payloads of 5 and 7 bytes on
    nodes 3 and 2 and a tombstone (dummy size [2^32 - 1]) at node 1. *)
Definition ex_sized_versions : state :=
  set_memory_footprint (λ _, 1000%Z)
    (set_upd_size
       (λ _, {[ 3%positive := 5%Z; 2%positive := 7%Z; 1%positive := 4294967295%Z ]})
       ex_three_versions).

(** ** The modify entry point *)

(** The places where another thread's writes are let in: between the test
    for a missing array or head and the compare-and-swap that publishes
    one, while waiting for the page's serialization ticket, and before the
    collector's compare-and-swap. *)
Inductive race_point : Type :=
  | RaceUpdArray | RaceInsArray | RaceInsHead | RaceSerial | RaceTruncate.

(** What [__wt_row_modify] takes from outside the sources: constants and
    sizes of the headers, the page's entry count, the allocator, the
    transaction manager, the choice of a skip-list depth and the other
    threads. *)
Record ext : Type := Ext {
  e_WT_RESTART : Z;
  e_WT_SKIP_MAXDEPTH : nat;
  e_sizeof_ptr : Z;                       (* of a pointer to any structure *)
  e_sizeof_WT_UPDATE : Z;
  e_sizeof_WT_INSERT : Z;
  e_sizeof_WT_INSERT_HEAD : Z;
  e_WT_UPDATE_DELETED_VALUE : Z;
  e_entries : nat;                        (* page->entries *)
  e_write_gen_wrapped : state → bool;
  e_calloc_ret : state → Z;
  e_txn_visible_all : Z → bool;
  e_txn_update_check : state → option ptr → Z;
  e_txn_modify_ret : state → Z;           (* 0, or the error of __wt_txn_modify *)
  e_txn_id : state → Z;                   (* the running transaction's id *)
  e_skip_choose_depth : state → nat;      (* __wt_skip_choose_depth() *)
  e_racer : race_point → state → state
}.

(** The fields of [WT_CURSOR_BTREE] the function uses. *)
Record WT_CURSOR_BTREE : Type := Cbt {
  cbt_key : list Byte.byte;               (* iface.key *)
  cbt_value : list Byte.byte;             (* iface.value *)
  cbt_compare : Z;
  cbt_slot : nat;
  cbt_search_smallest : bool;             (* F_ISSET(cbt, WT_CBT_SEARCH_SMALLEST) *)
  cbt_ins : option ptr;
  cbt_ins_head : option ptr;
  cbt_ins_stack : list (option loc);
  cbt_next_stack : list (option ptr)
}.

(** Modelled from the spec: [__wt_txn_modify] and [__wt_txn_unmodify] are
    the transaction manager's; the first assigns the transaction id to the
    update and "registers the modification so it can be undone on
    rollback", the second takes the last registration back. *)
Definition __wt_txn_modify (E : ext) (upd : ptr) (σ : state) : Z * state :=
  let ret := e_txn_modify_ret E σ in
  if negb (ret =? 0)%Z then (ret, σ)
  else (0%Z, set_txn_log (cons (TxnModify upd))
               (set_upd_txnid (<[upd := e_txn_id E σ]>) σ)).

Definition __wt_txn_unmodify (σ : state) : state :=
  set_txn_log (cons TxnUnmodify) σ.

(** [__wt_calloc_def(session, number, &p)] is a macro of a header that is
    not among the sources: it calls [__wt_calloc] for [number] elements of
    the size of the structure [p] is declared to point to.  The function
    passes [&upd], [&ins] and [&t], declared [WT_UPDATE *], [WT_INSERT *]
    and [WT_INSERT_HEAD *]. *)
Definition __wt_calloc_def (E : ext) (number elem_size : Z) (σ : state)
    : Z * option ptr * state :=
  __wt_calloc (e_calloc_ret E) number elem_size σ.

(** The pattern the function repeats for the update array, the insert array
    and a skip-list head: allocate a candidate of [number] elements of
    [elem_size] bytes, try once to swap it into the NULL field [l], add
    [bytes] to the page's byte count on success and free the candidate
    otherwise.  The result is the return value, whether the swap was made,
    the candidate and the state. *)
Definition alloc_and_publish (E : ext) (pt : race_point) (l : loc)
    (number elem_size bytes : Z) (σ : state) : Z * bool * option ptr * state :=
  match __wt_calloc_def E number elem_size σ with
  | (ret, None, σ1) => (ret, false, None, σ1)
  | (_, Some a, σ1) =>
      let σ2 := e_racer E pt σ1 in
      let '(swapped, σ3) := WT_ATOMIC_CAS l None (Some a) σ2 in
      if swapped
      then (0%Z, true, Some a, __wt_cache_page_inmem_incr bytes σ3)
      else (0%Z, false, Some a, __wt_free (Some a) σ3)
  end.

(** "Allocate an update array as necessary": [page->entries] elements
    through [&upd], accounted as [page->entries] pointers. *)
Definition alloc_upd_array (E : ext) (σ : state) : Z * state :=
  match load σ PageUpd with
  | None =>
      let '(ret, _, _, σ') :=
        alloc_and_publish E RaceUpdArray PageUpd
          (Z.of_nat (e_entries E)) (e_sizeof_WT_UPDATE E)
          (Z.of_nat (e_entries E) * e_sizeof_ptr E)%Z σ in
      (ret, σ')
  | Some _ => (0%Z, σ)
  end.

(** "Allocate the insert array as necessary", with its additional slot:
    [page->entries + 1] elements through [&ins], accounted as that many
    pointers. *)
Definition alloc_ins_array (E : ext) (σ : state) : Z * state :=
  match load σ PageIns with
  | None =>
      let '(ret, _, _, σ') :=
        alloc_and_publish E RaceInsArray PageIns
          (Z.of_nat (e_entries E) + 1)%Z (e_sizeof_WT_INSERT E)
          ((Z.of_nat (e_entries E) + 1) * e_sizeof_ptr E)%Z σ in
      (ret, σ')
  | Some _ => (0%Z, σ)
  end.

(** "Allocate the WT_INSERT_HEAD structure as necessary"; the thread that
    publishes the head points the cursor's stacks at it. *)
Definition alloc_ins_head (E : ext) (ins_headp : loc) (σ : state)
    (cbt : WT_CURSOR_BTREE) : Z * state * WT_CURSOR_BTREE :=
  match load σ ins_headp with
  | None =>
      match alloc_and_publish E RaceInsHead ins_headp
              1 (e_sizeof_WT_INSERT_HEAD E) (e_sizeof_WT_INSERT_HEAD E) σ with
      | (ret, true, Some t, σ') =>
          (ret, σ',
           {| cbt_key := cbt_key cbt; cbt_value := cbt_value cbt;
              cbt_compare := cbt_compare cbt; cbt_slot := cbt_slot cbt;
              cbt_search_smallest := cbt_search_smallest cbt;
              cbt_ins := cbt_ins cbt;
              cbt_ins_head := Some t;
              cbt_ins_stack :=
                (λ i, Some (HeadHead t i)) <$> seq 0 (e_WT_SKIP_MAXDEPTH E);
              cbt_next_stack := replicate (e_WT_SKIP_MAXDEPTH E) None |})
      | (ret, _, _, σ') => (ret, σ', cbt)
      end
  | Some _ => (0%Z, σ, cbt)
  end.

(** The result is the return value, [*insp], [*ins_sizep] and the state.
    The block packs the node, its [skipdepth] forward pointers and the key;
    the model keeps the key bytes. *)
Definition __wt_row_insert_alloc (E : ext) (σ : state) (key : list Byte.byte)
    (skipdepth : nat) : Z * option ptr * Z * state :=
  let ins_size :=
    size_t_wrap (e_sizeof_WT_INSERT E + Z.of_nat skipdepth * e_sizeof_ptr E
                 + Z.of_nat (length key))%Z in
  match __wt_calloc (e_calloc_ret E) 1 ins_size σ with
  | (ret, None, σ1) => (ret, None, 0%Z, σ1)
  | (_, Some ins, σ1) => (0%Z, Some ins, ins_size, set_ins_key (<[ins := key]>) σ1)
  end.

(** Modelled from the spec: [__wt_update_serial] and [__wt_insert_serial]
    are generated wrappers outside the sources.  They run the
    serialization function "mutually exclusively per page", after the
    writers that held the ticket before; a node the function marked taken
    has its "ownership transferred from the caller to the list" and the
    caller's pointer is cleared, a node not taken stays the caller's. *)
Definition __wt_update_serial (E : ext) (fuel : nat) (σ : state)
    (upd_entry : loc) (old_upd : option ptr) (upd : ptr)
    : option (Z * option ptr * option ptr * state) :=
  match __wt_update_serial_func (e_WT_RESTART E) (e_write_gen_wrapped E)
          (e_txn_visible_all E) (e_racer E RaceTruncate)
          (e_txn_update_check E) fuel (e_racer E RaceSerial σ)
          upd_entry old_upd upd with
  | None => None
  | Some (ret, taken, obsolete, σ') =>
      Some (ret, if taken then None else Some upd, obsolete, σ')
  end.

Definition __wt_insert_serial (E : ext) (σ : state) (ins_head : ptr)
    (ins_stack : list (option loc)) (next_stack : list (option ptr))
    (new_ins : ptr) (skipdepth : nat) : Z * option ptr * state :=
  let '(ret, taken, σ') :=
    __wt_insert_serial_func (e_WT_RESTART E) (e_write_gen_wrapped E)
      (e_racer E RaceSerial σ) ins_head ins_stack next_stack new_ins skipdepth in
  (ret, if taken then None else Some new_ins, σ').

(** The code behind the [err] label, entered with the values the local
    variables [logged], [ins] and [upd] have at the failing call. *)
Definition row_modify_err (logged : bool) (ins upd : option ptr) (ret : Z)
    (σ : state) (cbt : WT_CURSOR_BTREE) : option (Z * state * WT_CURSOR_BTREE) :=
  let σ1 := if logged then __wt_txn_unmodify σ else σ in
  Some (ret, __wt_free upd (__wt_free ins σ1), cbt).

(** The branch [cbt->compare == 0], from "Make sure the update can
    proceed" on. *)
Definition row_modify_update (E : ext) (fuel : nat) (σ : state)
    (cbt : WT_CURSOR_BTREE) (value : option (list Byte.byte)) (upd_entry : loc)
    : option (Z * state * WT_CURSOR_BTREE) :=
  let old_upd := load σ upd_entry in
  let ret := e_txn_update_check E σ old_upd in
  if negb (ret =? 0)%Z then row_modify_err false None None ret σ cbt
  else
    match __wt_update_alloc (e_sizeof_WT_UPDATE E) (e_WT_UPDATE_DELETED_VALUE E)
            (e_calloc_ret E) σ value with
    | (ret, None, _, σ1) => row_modify_err false None None ret σ1 cbt
    | (_, Some upd, upd_size, σ1) =>
        let '(ret, σ2) := __wt_txn_modify E upd σ1 in
        if negb (ret =? 0)%Z then row_modify_err false None (Some upd) ret σ2 cbt
        else
          match __wt_update_serial E fuel σ2 upd_entry old_upd upd with
          | None => None
          | Some (ret, upd', upd_obsolete, σ3) =>
              if negb (ret =? 0)%Z then row_modify_err true None upd' ret σ3 cbt
              else
                match upd_obsolete with
                | None => Some (0%Z, σ3, cbt)
                | Some _ =>
                    match __wt_update_obsolete_free (e_sizeof_WT_UPDATE E)
                            (e_WT_UPDATE_DELETED_VALUE E) fuel σ3 upd_obsolete with
                    | None => None
                    | Some σ4 => Some (0%Z, σ4, cbt)
                    end
                end
          end
    end.

Definition cbt_set_ins (ins : option ptr) (cbt : WT_CURSOR_BTREE) : WT_CURSOR_BTREE :=
  {| cbt_key := cbt_key cbt; cbt_value := cbt_value cbt;
     cbt_compare := cbt_compare cbt; cbt_slot := cbt_slot cbt;
     cbt_search_smallest := cbt_search_smallest cbt;
     cbt_ins := ins;
     cbt_ins_head := cbt_ins_head cbt;
     cbt_ins_stack := cbt_ins_stack cbt;
     cbt_next_stack := cbt_next_stack cbt |}.

(** The other branch, from "Choose a skiplist depth for this insert" on. *)
Definition row_modify_insert (E : ext) (σ : state) (cbt : WT_CURSOR_BTREE)
    (value : option (list Byte.byte)) (ins_head : ptr)
    : option (Z * state * WT_CURSOR_BTREE) :=
  let skipdepth := e_skip_choose_depth E σ in
  match __wt_row_insert_alloc E σ (cbt_key cbt) skipdepth with
  | (ret, None, _, σ1) => row_modify_err false None None ret σ1 cbt
  | (_, Some ins, ins_size, σ1) =>
      match __wt_update_alloc (e_sizeof_WT_UPDATE E) (e_WT_UPDATE_DELETED_VALUE E)
              (e_calloc_ret E) σ1 value with
      | (ret, None, _, σ2) => row_modify_err false (Some ins) None ret σ2 cbt
      | (_, Some upd, upd_size, σ2) =>
          let '(ret, σ3) := __wt_txn_modify E upd σ2 in
          if negb (ret =? 0)%Z
          then row_modify_err false (Some ins) (Some upd) ret σ3 cbt
          else
            (* ins->upd = upd; cbt->ins = ins *)
            let σ4 := store (InsUpd ins) (Some upd) σ3 in
            let cbt := cbt_set_ins (Some ins) cbt in
            let '(ret, ins', σ5) :=
              __wt_insert_serial E σ4 ins_head (cbt_ins_stack cbt)
                (cbt_next_stack cbt) ins skipdepth in
            if negb (ret =? 0)%Z then row_modify_err true ins' (Some upd) ret σ5 cbt
            else Some (0%Z, σ5, cbt)
      end
  end.

(** The result is the return value, the state and the cursor; [None] when a
    walk of an update list has not ended after [fuel] nodes. *)
Definition __wt_row_modify (E : ext) (fuel : nat) (σ : state)
    (cbt : WT_CURSOR_BTREE) (is_remove : bool)
    : option (Z * state * WT_CURSOR_BTREE) :=
  let value := if is_remove then None else Some (cbt_value cbt) in
  if (cbt_compare cbt =? 0)%Z then
    match cbt_ins cbt with
    | None =>
        let '(ret, σ1) := alloc_upd_array E σ in
        if negb (ret =? 0)%Z then row_modify_err false None None ret σ1 cbt
        else
          match load σ1 PageUpd with
          | Some arr => row_modify_update E fuel σ1 cbt value (UpdArr arr (cbt_slot cbt))
          | None => None           (* not reached: the array is published *)
          end
    | Some ins => row_modify_update E fuel σ cbt value (InsUpd ins)
    end
  else
    let ins_slot :=
      if cbt_search_smallest cbt then e_entries E else cbt_slot cbt in
    let '(ret, σ1) := alloc_ins_array E σ in
    if negb (ret =? 0)%Z then row_modify_err false None None ret σ1 cbt
    else
      match load σ1 PageIns with
      | Some arr =>
          let ins_headp := InsArr arr ins_slot in
          let '(ret, σ2, cbt) := alloc_ins_head E ins_headp σ1 cbt in
          if negb (ret =? 0)%Z then row_modify_err false None None ret σ2 cbt
          else
            match load σ2 ins_headp with
            | Some ins_head => row_modify_insert E σ2 cbt value ins_head
            | None => None         (* not reached: the head is published *)
            end
      | None => None               (* not reached: the array is published *)
      end.

(** Example environments: two entries on the page, allocation and the
    update check succeed, transactions up to 20 are visible to all, new
    skip-list nodes have depth 2. *)
Definition ex_ext_of (wrapped : bool) (modify_ret : Z)
    (racer : race_point → state → state) : ext :=
  {| e_WT_RESTART := (-31805)%Z;
     e_WT_SKIP_MAXDEPTH := 3;
     e_sizeof_ptr := 8%Z;
     e_sizeof_WT_UPDATE := 40%Z;
     e_sizeof_WT_INSERT := 16%Z;
     e_sizeof_WT_INSERT_HEAD := 48%Z;
     e_WT_UPDATE_DELETED_VALUE := 4294967295%Z;
     e_entries := 2;
     e_write_gen_wrapped := λ _, wrapped;
     e_calloc_ret := λ _, 0%Z;
     e_txn_visible_all := λ t, bool_decide (t ≤ 20)%Z;
     e_txn_update_check := λ _ _, 0%Z;
     e_txn_modify_ret := λ _, modify_ret;
     e_txn_id := λ _, 40%Z;
     e_skip_choose_depth := λ _, 2;
     e_racer := racer |}.

(** No other thread interferes. *)
Definition ex_ext : ext := ex_ext_of false 0 (λ _ s, s).

(** The sizes of a machine with 64-bit pointers: a [WT_UPDATE] of a
    transaction id, a pointer and a 32-bit size, a [WT_INSERT] of a
    pointer and a 64-bit union; no other thread interferes. *)
Definition ex_ext_sizes : ext :=
  {| e_WT_RESTART := (-31805)%Z;
     e_WT_SKIP_MAXDEPTH := 3;
     e_sizeof_ptr := 8%Z;
     e_sizeof_WT_UPDATE := 24%Z;
     e_sizeof_WT_INSERT := 16%Z;
     e_sizeof_WT_INSERT_HEAD := 48%Z;
     e_WT_UPDATE_DELETED_VALUE := 4294967295%Z;
     e_entries := 2;
     e_write_gen_wrapped := λ _, false;
     e_calloc_ret := λ _, 0%Z;
     e_txn_visible_all := λ t, bool_decide (t ≤ 20)%Z;
     e_txn_update_check := λ _ _, 0%Z;
     e_txn_modify_ret := λ _, 0%Z;
     e_txn_id := λ _, 40%Z;
     e_skip_choose_depth := λ _, 2;
     e_racer := λ _ s, s |}.

(** The same on a page whose write generation has wrapped, so that every
    serialization step fails with [WT_RESTART]. *)
Definition ex_ext_wrapped : ext := ex_ext_of true 0 (λ _ s, s).

(** The transaction manager cannot register the modification. *)
Definition ex_ext_no_txn : ext := ex_ext_of false 12 (λ _ s, s).

(** Another thread publishes its update array, at address 77, just before
    this thread's compare-and-swap. *)
Definition ex_ext_raced : ext :=
  ex_ext_of false 0
    (λ pt s, match pt with
             | RaceUpdArray => store PageUpd (Some 77%positive) s
             | _ => s
             end).

(** A cursor a search left on slot 1 of a page without inserts: either on
    the key of the slot ([compare] 0) or behind it. *)
Definition ex_cbt (compare : Z) : WT_CURSOR_BTREE :=
  {| cbt_key := [Byte.x6b]; cbt_value := [Byte.x76; Byte.x31];
     cbt_compare := compare; cbt_slot := 1; cbt_search_smallest := false;
     cbt_ins := None; cbt_ins_head := None;
     cbt_ins_stack := [None; None; None];
     cbt_next_stack := [None; None; None] |}.

(** The cursor of a writer that searched the same gap after a first node,
at address 3 under the head at 2, was linked with depth 2. *)
Definition ex_cbt_behind : WT_CURSOR_BTREE :=
  {| cbt_key := [Byte.x6c]; cbt_value := [Byte.x76; Byte.x32];
     cbt_compare := 1; cbt_slot := 1; cbt_search_smallest := false;
     cbt_ins := None; cbt_ins_head := Some 2%positive;
     cbt_ins_stack := [Some (InsNext 3 0); Some (InsNext 3 1); Some (HeadHead 2 2)];
     cbt_next_stack := [None; None; None] |}.

(** *** Published pointers and runs of steps *)

(** The fields that hold an auxiliary array or a skip-list head. *)
Definition is_published_loc (l : loc) : bool :=
  match l with
  | PageUpd | PageIns | InsArr _ _ => true
  | _ => false
  end.

Definition published (σ : state) (a : ptr) : Prop :=
  ∃ l, is_published_loc l = true ∧ load σ l = Some a.

(** A published pointer is still the same afterwards. *)
Definition stable (σ σ' : state) : Prop :=
  ∀ l a, is_published_loc l = true → load σ l = Some a → load σ' l = Some a.

(** What is assumed of the other threads: they do not replace a published
    pointer either, and the blocks and the transaction log, which are this
    thread's, are not theirs to change. *)
Record racers_keep_protocol (E : ext) : Prop := {
  racer_stable : ∀ pt s, stable s (e_racer E pt s);
  racer_live : ∀ pt s, live (e_racer E pt s) = live s;
  racer_next_block : ∀ pt s, next_block (e_racer E pt s) = next_block s;
  racer_txn_log : ∀ pt s, txn_log (e_racer E pt s) = txn_log s
}.

(** A run of steps from [σ] to [σ']: published pointers are kept; the
    blocks allocated on the way that are still allocated are published or
    among [owned]; nothing older became allocated; [evs] was logged. *)
Record trans (σ σ' : state) (owned : list ptr) (evs : list txn_event) : Prop := {
  tr_stable : stable σ σ';
  tr_next_block : (next_block σ ≤ next_block σ')%positive;
  tr_new : ∀ a, (next_block σ ≤ a)%positive → (a < next_block σ')%positive →
             a ∈ live σ' → a ∈ owned ∨ published σ' a;
  tr_old : ∀ a, (a < next_block σ)%positive → a ∈ live σ' → a ∈ live σ;
  tr_log : txn_log σ' = evs ++ txn_log σ
}.

(** The cursor's predecessor stack holds level-typed forward pointers. *)
Definition stack_typed (stk : list (option loc)) : Prop :=
  ∀ i p, stack_at stk i = Some p → is_fwd_at i p = true.

(** What a call of the entry point leaves behind: after a failure nothing
    is owned any more and the log grew by nothing, or by a registration
    and its withdrawal. *)
Definition unwound (ret : Z) (owned : list ptr) (evs : list txn_event) : Prop :=
  ret ≠ 0%Z →
  owned = [] ∧ (evs = [] ∨ ∃ u, evs = [TxnUnmodify; TxnModify u]).

(** *** Lazy allocation of the arrays and heads *)

(** The spec's words for one lazily allocated field [l]: a field that is
    already set is left alone; otherwise a candidate of [alloc] bytes is
    allocated and offered once, against whatever the other threads did
    meanwhile.  The winner's candidate is in the field and [bytes] are
    added to the page's byte count; the loser's candidate is freed, the
    field keeps the pointer it had and the byte count is not touched. *)
Definition publishes_once (E : ext) (pt : race_point) (l : loc)
    (alloc bytes : Z) (σ : state) (ret : Z) (σ' : state) : Prop :=
  match load σ l with
  | Some _ => ret = 0%Z ∧ σ' = σ
  | None =>
      if (e_calloc_ret E σ =? 0)%Z then
        let a := next_block σ in
        let σ2 :=
          e_racer E pt
            (set_block_bytes (<[a := alloc]>)
               (set_next_block (Pos.succ a)
                  (set_live (λ s, {[a]} ∪ s) σ))) in
        ret = 0%Z ∧ block_bytes σ' = block_bytes σ2 ∧
        match load σ2 l with
        | None =>
            load σ' l = Some a ∧
            memory_footprint σ' = (memory_footprint σ2 + bytes)%Z ∧
            live σ' = live σ2
        | Some b =>
            load σ' l = Some b ∧
            memory_footprint σ' = memory_footprint σ2 ∧
            live σ' = live σ2 ∖ {[a]}
        end
      else ret = e_calloc_ret E σ ∧ σ' = σ
  end.

(** *** The lists of a skip list *)

(** The nodes met at level [i] when following [next[i]] from the pointer
    [p] until [q] is reached. *)
Fixpoint skip_seg (σ : state) (i : nat) (p : option ptr) (l : list ptr)
    (q : option ptr) : Prop :=
  match l with
  | [] => p = q
  | n :: l' => p = Some n ∧ skip_seg σ i (load σ (InsNext n i)) l' q
  end.

(** Level [i] of the skip list under the head [h] holds the nodes [l], in
    this order, and [tail[i]] is the last of them. *)
Definition level_list (σ : state) (h : ptr) (i : nat) (l : list ptr) : Prop :=
  skip_seg σ i (load σ (HeadHead h i)) l None.

Definition level_tail (σ : state) (h : ptr) (i : nat) (l : list ptr) : Prop :=
  load σ (HeadTail h i) = list.last l.

(** The forward pointer that leaves the nodes [l] of level [i]: the head's
    when there is none, else the last node's. *)
Definition pred_field (h : ptr) (i : nat) (l : list ptr) : loc :=
  match list.last l with
  | Some n => InsNext n i
  | None => HeadHead h i
  end.

(** The state after the first publish loop and [k] rounds of the second. *)
Definition publish_prefix (h : ptr) (stk : list (option loc)) (new : ptr)
    (d k : nat) (σ : state) : state :=
  fold_left (link_pred h stk new) (seq 0 k)
    (fold_left (set_new_next stk new) (seq 0 d) σ).

(** ** The page-level sweep *)

(** The statement [__wt_row_leaf_obsolete] repeats for every update list:
    cut off what is obsolete and free it. *)
Definition obsolete_discard (E : ext) (fuel : nat) (σ : state)
    (upd : option ptr) : option state :=
  match __wt_update_obsolete_check (e_txn_visible_all E)
          (e_racer E RaceTruncate) fuel σ upd with
  | None => None
  | Some (None, σ1) => Some σ1
  | Some (Some o, σ1) =>
      __wt_update_obsolete_free (e_sizeof_WT_UPDATE E)
        (e_WT_UPDATE_DELETED_VALUE E) fuel σ1 (Some o)
  end.

(** Modelled from the spec: the iteration macros of the sweep are in a
    header that is not among the sources.  The sweep "visits every version
    chain on a leaf (both the updates[] entries and the upd of every
    insert node in every gap)"; the slots are the ones the entry point
    uses, [page->u.row.upd[slot]] and [page->u.row.ins[slot]] with slot
    [page->entries] for the keys smaller than any key on the page, an
    array that is not allocated standing for empty slots; and a list is
    walked along level 0, which "contains every node of the list". *)
Definition WT_ROW_UPDATE (σ : state) (slot : nat) : option ptr :=
  match load σ PageUpd with
  | Some a => load σ (UpdArr a slot)
  | None => None
  end.

Definition WT_ROW_INSERT_SLOT (σ : state) (slot : nat) : option ptr :=
  match load σ PageIns with
  | Some a => load σ (InsArr a slot)
  | None => None
  end.

Definition WT_SKIP_FIRST (σ : state) (ins_head : option ptr) : option ptr :=
  match ins_head with
  | Some h => load σ (HeadHead h 0)
  | None => None
  end.

(** [WT_SKIP_FOREACH(ins, head)] with the sweep's body: the node's [next]
    is read after the body ran.  [None] when the list has not ended after
    [steps] nodes or a walk of an update list has not after [fuel]. *)
Fixpoint obsolete_skip_walk (E : ext) (fuel steps : nat) (σ : state)
    (ins : option ptr) : option state :=
  match steps with
  | 0 => None
  | S steps' =>
      match ins with
      | None => Some σ
      | Some n =>
          match obsolete_discard E fuel σ (load σ (InsUpd n)) with
          | None => None
          | Some σ' =>
              obsolete_skip_walk E fuel steps' σ' (load σ' (InsNext n 0))
          end
      end
  end.

(** The body of [WT_ROW_FOREACH] for the entry at [slot]: the entry's own
    update list, then the inserts behind it. *)
Definition row_leaf_obsolete_entry (E : ext) (fuel : nat) (σ : option state)
    (slot : nat) : option state :=
  match σ with
  | None => None
  | Some σ =>
      match obsolete_discard E fuel σ (WT_ROW_UPDATE σ slot) with
      | None => None
      | Some σ1 =>
          obsolete_skip_walk E fuel fuel σ1
            (WT_SKIP_FIRST σ1 (WT_ROW_INSERT_SLOT σ1 slot))
      end
  end.

(** [None] when a walk has not ended after [fuel] nodes. *)
Definition __wt_row_leaf_obsolete (E : ext) (fuel : nat) (σ : state)
    : option state :=
  fold_left (row_leaf_obsolete_entry E fuel) (seq 0 (e_entries E))
    (obsolete_skip_walk E fuel fuel σ
       (WT_SKIP_FIRST σ (WT_ROW_INSERT_SLOT σ (e_entries E)))).

(** No other thread interferes. *)
Definition quiet (E : ext) : Prop := ∀ pt s, e_racer E pt s = s.

(** What the collector keeps of a list, up to and including the first
    update that is visible to all, and what it cuts off behind it. *)
Fixpoint obsolete_keep (E : ext) (σ : state) (l : list ptr) : list ptr :=
  match l with
  | [] => []
  | u :: l' =>
      if e_txn_visible_all E (txnid_of σ u) then [u]
      else u :: obsolete_keep E σ l'
  end.

Fixpoint obsolete_cut (E : ext) (σ : state) (l : list ptr) : list ptr :=
  match l with
  | [] => []
  | u :: l' =>
      if e_txn_visible_all E (txnid_of σ u) then l'
      else obsolete_cut E σ l'
  end.

(** The update lists of a page in the order of the sweep, each given by
    the field it hangs from: [gaps s] are the insert nodes of slot [s]. *)
Definition page_heads (E : ext) (σ : state) (gaps : nat → list ptr)
    : list loc :=
  (InsUpd <$> gaps (e_entries E)) ++
  mjoin ((λ slot,
             match load σ PageUpd with
             | Some a => [UpdArr a slot]
             | None => []
             end ++ (InsUpd <$> gaps slot)) <$> seq 0 (e_entries E)).

(** The fields of the update and insert nodes other than their pointers,
    the allocator's next address, the page's dirty flag and the
    transaction's log are the same in both states. *)
Definition same_payloads (σ σ' : state) : Prop :=
  upd_txnid σ' = upd_txnid σ ∧ upd_size σ' = upd_size σ ∧
  upd_data σ' = upd_data σ ∧ ins_key σ' = ins_key σ ∧
  next_block σ' = next_block σ ∧ page_modified σ' = page_modified σ ∧
  txn_log σ' = txn_log σ.

(** The sweep's effect on the update lists hanging from [heads], in
    order. *)
Fixpoint discard_all (E : ext) (fuel : nat) (σ : state) (heads : list loc)
    : option state :=
  match heads with
  | [] => Some σ
  | hd :: heads' =>
      match obsolete_discard E fuel σ (load σ hd) with
      | None => None
      | Some σ' => discard_all E fuel σ' heads'
      end
  end.

(** A well-formed page: level 0 of every slot's skip list is a list, every
    update list is a NULL-terminated list, and no update is on two
    lists. *)
Record page_shape (E : ext) (σ : state) (gaps : nat → list ptr)
    (chains : loc → list ptr) : Prop := {
  ps_gaps : ∀ slot, slot ≤ e_entries E →
    skip_seg σ 0 (WT_SKIP_FIRST σ (WT_ROW_INSERT_SLOT σ slot)) (gaps slot) None;
  ps_chains : ∀ hd, hd ∈ page_heads E σ gaps → chain σ (load σ hd) (chains hd);
  ps_disjoint : NoDup (mjoin (chains <$> page_heads E σ gaps))
}.

(** The bytes of what the collector cuts off the lists of [heads]. *)
Definition cut_footprint (E : ext) (σ : state) (chains : loc → list ptr)
    (heads : list loc) : Z :=
  foldr (λ hd acc,
           list_footprint (e_sizeof_WT_UPDATE E) (e_WT_UPDATE_DELETED_VALUE E) σ
             (obsolete_cut E σ (chains hd)) + acc)%Z 0%Z heads.

(** The field the update list of the cursor's key hangs from: the insert
    node's, or the slot's entry in the update array, which is at the next
    fresh address when the call has to allocate it. *)
Definition upd_entry_of (σ : state) (cbt : WT_CURSOR_BTREE) : loc :=
  match cbt_ins cbt with
  | Some ins => InsUpd ins
  | None => UpdArr (default (next_block σ) (load σ PageUpd)) (cbt_slot cbt)
  end.


(** The slot of the insert array the entry point uses. *)
Definition ins_slot_of (E : ext) (cbt : WT_CURSOR_BTREE) : nat :=
  if cbt_search_smallest cbt then e_entries E else cbt_slot cbt.

(** A page with two entries.  The update array is at address 9 and its
    entry 0 holds the list of [ex_sized_versions]; the insert array is at
    address 8 and the skip list of slot 1, under the head at 7, has the
    one node 6, whose update list is node 5 (transaction 15, 3 bytes) then
    node 4 (transaction 12, 2 bytes).  The next fresh address is 10. *)
Definition ex_page : state :=
  set_next_block 10
    (set_live (λ s, {[ 4%positive; 5%positive; 6%positive; 7%positive; 8%positive ]} ∪ s)
       (set_upd_txnid (λ m, <[ 5%positive := 15%Z ]> (<[ 4%positive := 12%Z ]> m))
          (set_upd_size (λ m, <[ 5%positive := 3%Z ]> (<[ 4%positive := 2%Z ]> m))
             (store PageUpd (Some 9%positive)
                (store PageIns (Some 8%positive)
                   (store (InsArr 8 1) (Some 7%positive)
                      (store (HeadHead 7 0) (Some 6%positive)
                         (store (HeadTail 7 0) (Some 6%positive)
                            (store (InsUpd 6) (Some 5%positive)
                               (store (UpdNext 5) (Some 4%positive)
                                  ex_sized_versions)))))))))).

(** The insert nodes and the update lists of [ex_page]. *)
Definition ex_page_gaps (slot : nat) : list ptr :=
  if decide (slot = 1) then [6%positive] else [].

Definition ex_page_chains (hd : loc) : list ptr :=
  if decide (hd = UpdArr 9 0) then [3%positive; 2%positive; 1%positive]
  else if decide (hd = InsUpd 6) then [5%positive; 4%positive]
  else [].

(** A cursor on the key of slot 0, and a cursor behind the insert node 6
    of slot 1, which a search left with node 6's forward pointer at level
    0 and the head's at the levels above. *)
Definition ex_cbt_first : WT_CURSOR_BTREE :=
  {| cbt_key := [Byte.x6a]; cbt_value := [Byte.x76; Byte.x33];
     cbt_compare := 0; cbt_slot := 0; cbt_search_smallest := false;
     cbt_ins := None; cbt_ins_head := None;
     cbt_ins_stack := [None; None; None];
     cbt_next_stack := [None; None; None] |}.

Definition ex_cbt_gap : WT_CURSOR_BTREE :=
  {| cbt_key := [Byte.x6d]; cbt_value := [Byte.x76; Byte.x34];
     cbt_compare := 1; cbt_slot := 1; cbt_search_smallest := false;
     cbt_ins := None; cbt_ins_head := Some 7%positive;
     cbt_ins_stack := [Some (InsNext 6 0); Some (HeadHead 7 1); Some (HeadHead 7 2)];
     cbt_next_stack := [None; None; None] |}.

End RowModify.

Module FormatOps.

Local Open Scope Z_scope.

(** * The workload driver, [test/format/ops.c] *)

(** [uint64_t] and [size_t] arithmetic. *)
Definition u64 (z : Z) : Z := z mod 2 ^ 64.

(** ** The append table

    The fields of the global [g] that [table_append] uses: the number of
    rows, the array of [append_max] record numbers (0 marks a free slot)
    and the count of slots in use. *)
Record GLOBAL : Type := Global {
  rows : Z;
  append : list Z;
  append_cnt : Z
}.

(** [table_append_init]: [g.append_max] is ten slots per thread, and the
    array comes zeroed from [calloc]. *)
Definition table_append_init (c_threads : Z) (g : GLOBAL) : GLOBAL :=
  {| rows := rows g;
     append := replicate (Z.to_nat (u64 (c_threads * 10))) 0;
     append_cnt := 0 |}.

(** "Clean out the table, incrementing the total count of records until we
    don't find the next key": every pass scans for [g.rows + 1] and takes
    the first hit.  [None] when the loop has not ended after [fuel]
    passes. *)
Fixpoint table_append_resolve (fuel : nat) (g : GLOBAL) : option GLOBAL :=
  match fuel with
  | O => None
  | S fuel' =>
      match list_find (λ x, x = u64 (rows g + 1)) (append g) with
      | Some (i, x) =>
          table_append_resolve fuel'
            {| rows := x;
               append := <[i := 0]> (append g);
               append_cnt := u64 (append_cnt g - 1) |}
      | None => Some g
      end
  end.

(** One pass of the outer loop of [table_append], which runs with
    [g.append_lock] held: the flag is [done]; a thread that is not done
    sleeps and comes back.  The sweep gets one pass per slot and one more,
    which is all it takes while the row count does not wrap. *)
Definition table_append_pass (keyno : Z) (g : GLOBAL) : option (bool * GLOBAL) :=
  if bool_decide (keyno = u64 (rows g + 1)) then
    match table_append_resolve (S (length (append g)))
            {| rows := keyno; append := append g;
               append_cnt := append_cnt g |} with
    | Some g' => Some (true, g')
    | None => None
    end
  else
    match list_find (λ x, x = 0) (append g) with
    | Some (i, _) =>
        Some (true, {| rows := rows g;
                       append := <[i := keyno]> (append g);
                       append_cnt := u64 (append_cnt g + 1) |})
    | None => Some (false, g)
    end.

(** The passes of all threads in the order in which they took the lock;
    the second component collects the record numbers of the passes that
    were done, that is, of the inserts recorded so far. *)
Fixpoint table_append_run (keys : list Z) (g : GLOBAL) (recorded : list Z)
    : option (GLOBAL * list Z) :=
  match keys with
  | [] => Some (g, recorded)
  | keyno :: keys' =>
      match table_append_pass keyno g with
      | None => None
      | Some (done, g') =>
          table_append_run keys' g'
            (if done then keyno :: recorded else recorded)
      end
  end.

(** Scenario S6 of the spec: 100 rows, three threads. *)
Definition ex_global : GLOBAL :=
  table_append_init 3 {| rows := 100; append := []; append_cnt := 0 |}.

(** *** The table's invariant *)

(** The slots in use. *)
Definition in_use (l : list Z) : nat := length (filter (λ x, x ≠ 0) l).

(** From [rows0] rows on: every row counted since was recorded; the slots
    in use hold recorded record numbers, none of them the next row; and
    rows counted or waiting are no more than the inserts recorded. *)
Record table_inv (rows0 : Z) (g : GLOBAL) (recorded : list Z) : Prop := {
  inv_rows : rows0 ≤ rows g;
  inv_counted : ∀ k, rows0 < k ≤ rows g → k ∈ recorded;
  inv_waiting : ∀ x, x ∈ append g → x ≠ 0 → x ∈ recorded;
  inv_bound : rows g + Z.of_nat (in_use (append g))
              ≤ rows0 + Z.of_nat (length recorded)
}.

(** ** Reading a row *)

(** The store shapes of [g.type]. *)
Inductive store_type : Type := FIX | VAR | ROW.

(** A function returns its value, or the process ends in [testutil_die]. *)
Inductive outcome : Type :=
  | Return (ret : Z)
  | Die.

(** The cursor method [read_row] positions with. *)
Inductive lookup_call : Type := CallSearch | CallSearchNear.

Section ReadRow.

(** Error codes of [wiredtiger.h], which is not among the sources. *)
Variable WT_NOTFOUND : Z.
Variable WT_ROLLBACK : Z.

Variable g_type : store_type.

(** What the cursor answers for a record number: the return value of
    [cursor->search]; the return value and [exact] of
    [cursor->search_near]; the return value of [cursor->get_value]. *)
Variable cursor_search : Z → Z.
Variable cursor_search_near : Z → Z * Z.
Variable cursor_get_value : Z → Z.

(** [read_row] in a build without the Berkeley DB comparison.  [sn] is the
    function's static variable; the result is the outcome, the new [sn]
    and the cursor method that was called. *)
Definition read_row (sn : bool) (keyno : Z) : outcome * bool * lookup_call :=
  let '(ret, sn', call) :=
    if sn then
      let '(ret, exact) := cursor_search_near keyno in
      let ret :=
        if (ret =? 0) && negb (exact =? 0) then WT_NOTFOUND else ret in
      (ret, false, CallSearchNear)
    else (cursor_search keyno, true, CallSearch) in
  let out :=
    if ret =? 0 then Return (cursor_get_value keyno)
    else if ret =? WT_ROLLBACK then Return WT_ROLLBACK
    else if ret =? WT_NOTFOUND then
      match g_type with
      | FIX => Return 0
      | _ => Return WT_NOTFOUND
      end
    else Die in
  (out, sn', call).

(** Successive calls, from any caller, as long as the process lives: the
    cursor methods called and the outcomes. *)
Fixpoint read_rows (sn : bool) (keys : list Z) : list (lookup_call * outcome) :=
  match keys with
  | [] => []
  | keyno :: keys' =>
      let '(out, sn', call) := read_row sn keyno in
      (call, out) ::
      match out with
      | Die => []
      | Return _ => read_rows sn' keys'
      end
  end.

End ReadRow.

(** ** The walk and the confirming read of a worker iteration *)

(** The generator's state is the sequence of 32-bit values it will
    produce; an exhausted sequence produces zeros. *)
Definition rng (rnd : list Z) : Z * list Z :=
  match rnd with
  | [] => (0, [])
  | v :: rnd' => (v, rnd')
  end.

(** Modelled from the spec: [mmrand(rnd, min, max)] is a helper of a header
    that is not among the sources; it draws "a random number" between
    [min] and [max], here the next value of the generator reduced to the
    range. *)
Definition mmrand (rnd : list Z) (min max : Z) : Z * list Z :=
  let '(v, rnd') := rng rnd in
  (v mod (max - min + 1) + min, rnd').

(** The cursor calls a worker makes after its operation. *)
Inductive cursor_call : Type :=
  | CursorNextPrev (next : Z)      (* nextprev(cursor, dir) *)
  | CursorReadRow (keyno : Z).     (* read_row(cursor, key, keyno) *)

(** Where the iteration goes on: to the cursor reset, to the [deadlock]
    label, or nowhere because the process died. *)
Inductive status : Type := Running | Deadlock | Died.

Section Walk.

Variable WT_NOTFOUND : Z.
Variable WT_ROLLBACK : Z.
Variable g_type : store_type.
Variable cursor_search : Z → Z.
Variable cursor_search_near : Z → Z * Z.
Variable cursor_get_value : Z → Z.

(** What the cursor returns at step [np] in direction [next]: from
    [cursor->next] or [cursor->prev], and from the [cursor->get_key] and
    [cursor->get_value] that follow it. *)
Variable cursor_next_prev : Z → Z → Z.
Variable cursor_get_key_np : Z → Z → Z.
Variable cursor_get_value_np : Z → Z → Z.

(** [nextprev] in a build without the Berkeley DB comparison.  A
    rollback is returned only when it comes from [next] or [prev]; the
    three store types read key and value in the same order, the value
    only after the key was read. *)
Definition nextprev (np next : Z) : outcome :=
  let ret := cursor_next_prev np next in
  if ret =? WT_ROLLBACK then Return WT_ROLLBACK
  else
    let ret :=
      if ret =? 0 then
        let ret := cursor_get_key_np np next in
        if ret =? 0 then cursor_get_value_np np next else ret
      else ret in
    if negb (ret =? 0) && negb (ret =? WT_NOTFOUND) then Die
    else Return ret.

(** The loop [for (np = 0; np < mmrand(&tinfo->rnd, 1, 100); ++np)]: the
    condition draws a number every time it is evaluated.  The result is
    the calls made, [positioned], the generator and the status; [None]
    when the loop has not ended after [fuel] evaluations of its
    condition. *)
Fixpoint walk_loop (fuel : nat) (np dir : Z) (intxn positioned : bool)
    (rnd : list Z) (calls : list cursor_call)
    : option (list cursor_call * bool * list Z * status) :=
  match fuel with
  | O => None
  | S fuel' =>
      let '(bound, rnd) := mmrand rnd 1 100 in
      if negb (np <? bound) then Some (calls, positioned, rnd, Running)
      else if negb positioned then Some (calls, positioned, rnd, Running)
      else
        let calls := calls ++ [CursorNextPrev dir] in
        match nextprev np dir with
        | Die => Some (calls, positioned, rnd, Died)
        | Return ret =>
            let positioned := ret =? 0 in
            if (ret =? WT_ROLLBACK) && intxn
            then Some (calls, positioned, rnd, Deadlock)
            else walk_loop fuel' (np + 1) dir intxn positioned rnd calls
        end
  end.

(** Lines 485 to 506 of [ops]: the direction, the walk and the read that
    confirms the operation; the statistics counter is left out.  The
    result is the calls made, the generator, the toggle of [read_row] and
    the status. *)
Definition ops_walk_and_confirm (rnd : list Z) (intxn positioned : bool)
    (keyno : Z) (sn : bool)
    : option (list cursor_call * list Z * bool * status) :=
  let '(dir, rnd) := mmrand rnd 0 1 in
  match walk_loop 101 0 dir intxn positioned rnd [] with
  | None => None
  | Some (calls, positioned, rnd, Running) =>
      let calls := calls ++ [CursorReadRow keyno] in
      let '(out, sn, _) :=
        read_row WT_NOTFOUND WT_ROLLBACK g_type cursor_search
          cursor_search_near cursor_get_value sn keyno in
      match out with
      | Die => Some (calls, rnd, sn, Died)
      | Return ret =>
          if (ret =? WT_ROLLBACK) && intxn
          then Some (calls, rnd, sn, Deadlock)
          else Some (calls, rnd, sn, Running)
      end
  | Some (calls, positioned, rnd, st) => Some (calls, rnd, sn, st)
  end.

End Walk.

(** The number of next/prev steps among the calls. *)
Definition is_step (c : cursor_call) : bool :=
  match c with
  | CursorNextPrev _ => true
  | CursorReadRow _ => false
  end.

Definition walk_steps (calls : list cursor_call) : nat :=
  length (List.filter is_step calls).

(** The bound the loop condition draws at its [j]-th evaluation, counted
    from 0, when the generator is [rnd] at the loop's start. *)
Definition bound_at (rnd : list Z) (j : nat) : Z := nth j rnd 0 mod 100 + 1.

(** The claim's words: the number of steps is drawn once between 1 and
    100, after the direction. *)
Definition steps_drawn_once (rnd : list Z) : Z :=
  (mmrand (mmrand rnd 0 1).2 1 100).1.

(** A row store whose cursor never loses its position. *)
Definition ex_walk (rnd : list Z) :
    option (list cursor_call * list Z * bool * status) :=
  ops_walk_and_confirm (-31803) (-31800) ROW (λ _, 0) (λ _, (0, 0)) (λ _, 0)
    (λ _ _, 0) (λ _ _, 0) (λ _ _, 0) rnd false true 5 false.

Definition ex_walk_steps (rnd : list Z) : nat :=
  match ex_walk rnd with
  | Some (calls, _, _, _) => walk_steps calls
  | None => 0
  end.

(** What the table keeps besides [table_inv]: the counter is the number
    of slots in use, and no recorded record number is lost: it is counted
    in the rows or waits in the table. *)
Record table_kept (rows0 : Z) (g : GLOBAL) (recorded : list Z) : Prop := {
  kept_cnt : append_cnt g = Z.of_nat (in_use (append g));
  kept_recorded : ∀ k, k ∈ recorded → rows0 < k ≤ rows g ∨ k ∈ append g
}.

(** ** The scan that verifies the file *)

Section ReadScan.

Variable WT_NOTFOUND : Z.
Variable WT_ROLLBACK : Z.
Variable g_type : store_type.
Variable cursor_search : Z → Z.
Variable cursor_search_near : Z → Z * Z.
Variable cursor_get_value : Z → Z.

(** The loop of [wts_read_scan], entered with [keyno] and [last_keyno];
    [key_cnt] and [rows] are [g.key_cnt] and [g.rows], [rnd] is the
    generator behind [mmrand(NULL, ...)] and [sn] the toggle of
    [read_row].  The result is the record numbers read, the record
    numbers reported by [track], and whether the scan ended in
    [testutil_die]; [None] when the loop has not ended after [fuel]
    rounds. *)
Fixpoint read_scan_loop (fuel : nat) (key_cnt rows keyno last_keyno : Z)
    (rnd : list Z) (sn : bool) (reads tracks : list Z)
    : option (list Z * list Z * bool) :=
  match fuel with
  | O => None
  | S fuel' =>
      if negb (keyno <? key_cnt) then Some (reads, tracks, false)
      else
        let '(r, rnd) := mmrand rnd 1 17 in
        let keyno := u64 (keyno + r) in
        let keyno := if rows <? keyno then rows else keyno in
        let '(tracks, last_keyno) :=
          if 1000 <? u64 (keyno - last_keyno)
          then (tracks ++ [keyno], keyno) else (tracks, last_keyno) in
        let '(out, sn, _) :=
          read_row WT_NOTFOUND WT_ROLLBACK g_type cursor_search
            cursor_search_near cursor_get_value sn keyno in
        let reads := reads ++ [keyno] in
        match out with
        | Die => Some (reads, tracks, true)
        | Return ret =>
            if negb (ret =? 0) && negb (ret =? WT_NOTFOUND)
               && negb (ret =? WT_ROLLBACK)
            then Some (reads, tracks, true)
            else read_scan_loop fuel' key_cnt rows keyno last_keyno rnd sn
                   reads tracks
        end
  end.

Definition wts_read_scan (fuel : nat) (key_cnt rows : Z) (rnd : list Z)
    (sn : bool) : option (list Z * list Z * bool) :=
  read_scan_loop fuel key_cnt rows 0 0 rnd sn [] [].

End ReadScan.

(** Every record number of the list is 1 to 17 beyond the one before it,
    the first beyond [prev]. *)
Fixpoint scan_steps (prev : Z) (reads : list Z) : Prop :=
  match reads with
  | [] => True
  | k :: reads' => prev < k ≤ prev + 17 ∧ scan_steps k reads'
  end.

(** A fixed-length store in which every record is found. *)
Definition ex_scan (fuel : nat) (key_cnt rows : Z) (rnd : list Z)
    : option (list Z * list Z * bool) :=
  wts_read_scan (-31803) (-31800) FIX (λ _, 0) (λ _, (0, 0)) (λ _, 0)
    fuel key_cnt rows rnd false.

(** ** The operation of a worker iteration *)

(** [uint32_t] arithmetic. *)
Definition u32 (z : Z) : Z := z mod 2 ^ 32.

Definition UINT32_MAX : Z := 2 ^ 32 - 1.

(** The calls a modifying operation makes on its cursor. *)
Inductive engine_call : Type :=
  | EngSearch (keyno : Z)          (* cursor->search *)
  | EngRemove (keyno : Z)          (* cursor->remove *)
  | EngUpdate (keyno : Z)          (* cursor->update *)
  | EngInsert (keyno : Z)          (* cursor->insert, key set *)
  | EngAppend                      (* cursor->insert on the append cursor *)
  | EngGetKey                      (* cursor->get_key *)
  | EngTableAppend (keyno : Z).    (* table_append(keyno) *)

(** The per-thread statistics an operation counts in. *)
Inductive counter : Type := CntRemove | CntInsert | CntUpdate | CntSearch.

(** The driver function an iteration calls for its operation. *)
Inductive op_call : Type :=
  | OpRowRemove (keyno : Z)
  | OpColRemove (keyno : Z)
  | OpRowInsert (keyno : Z)
  | OpColInsert
  | OpRowUpdate (keyno : Z)
  | OpColUpdate (keyno : Z)
  | OpReadRow (keyno : Z).

Section Operations.

Variable WT_NOTFOUND : Z.
Variable WT_ROLLBACK : Z.
Variable g_type : store_type.
Variable cursor_search : Z → Z.
Variable cursor_search_near : Z → Z * Z.
Variable cursor_get_value : Z → Z.

(** What the cursor answers for a record number: the return values of
    [cursor->update], [cursor->insert] and [cursor->remove]; and for the
    append cursor the return value of [cursor->insert], that of
    [cursor->get_key] and the record number it reports. *)
Variable cursor_update : Z → Z.
Variable cursor_insert : Z → Z.
Variable cursor_remove : Z → Z.
Variable cursor_append : Z * Z * Z.

(** The generator after [val_gen] and after [key_gen_insert], which are
    in a file that is not among the sources. *)
Variable val_gen : list Z → list Z.
Variable key_gen_insert : list Z → list Z.

(** The functions in a build without the Berkeley DB comparison; logging
    is left out.  Each result is the outcome and the calls made on the
    cursor. *)
Definition row_update (keyno : Z) : outcome * list engine_call :=
  let ret := cursor_update keyno in
  (if ret =? WT_ROLLBACK then Return WT_ROLLBACK
   else if negb (ret =? 0) && negb (ret =? WT_NOTFOUND) then Die
   else Return 0,
   [EngUpdate keyno]).

Definition col_update (keyno : Z) : outcome * list engine_call :=
  let ret := cursor_update keyno in
  (if ret =? WT_ROLLBACK then Return WT_ROLLBACK
   else if negb (ret =? 0) && negb (ret =? WT_NOTFOUND) then Die
   else Return 0,
   [EngUpdate keyno]).

Definition row_insert (keyno : Z) : outcome * list engine_call :=
  let ret := cursor_insert keyno in
  (if ret =? WT_ROLLBACK then Return WT_ROLLBACK
   else if negb (ret =? 0) && negb (ret =? WT_NOTFOUND) then Die
   else Return 0,
   [EngInsert keyno]).

(** [col_insert]: the third component is what is stored through
    [keynop], if anything.  [table_append] is called with the record
    number as the cursor gave it; the caller gets its low 32 bits. *)
Definition col_insert : outcome * list engine_call * option Z :=
  let '(ret, ret_key, keyno) := cursor_append in
  if negb (ret =? 0) then
    (if ret =? WT_ROLLBACK then Return WT_ROLLBACK else Die, [EngAppend], None)
  else if negb (ret_key =? 0) then (Die, [EngAppend; EngGetKey], None)
  else (Return 0, [EngAppend; EngGetKey; EngTableAppend (u64 keyno)],
        Some (u32 keyno)).

Definition row_remove (keyno : Z) : outcome * list engine_call :=
  let ret := cursor_search keyno in
  let '(ret, calls) :=
    if ret =? 0 then (cursor_remove keyno, [EngSearch keyno; EngRemove keyno])
    else (ret, [EngSearch keyno]) in
  (if ret =? WT_ROLLBACK then Return WT_ROLLBACK
   else if negb (ret =? 0) && negb (ret =? WT_NOTFOUND) then Die
   else Return ret,
   calls).

Definition col_remove (keyno : Z) : outcome * list engine_call :=
  let ret := cursor_search keyno in
  let '(ret, calls) :=
    if ret =? 0 then (cursor_remove keyno, [EngSearch keyno; EngRemove keyno])
    else (ret, [EngSearch keyno]) in
  (if ret =? WT_ROLLBACK then Return WT_ROLLBACK
   else if negb (ret =? 0) && negb (ret =? WT_NOTFOUND) then Die
   else Return ret,
   calls).

(** The configuration and the shared counters the operation reads. *)
Record OPCONF : Type := OpConf {
  c_delete_pct : Z;
  c_insert_pct : Z;
  c_write_pct : Z;
  g_rows : Z;
  g_append_cnt : Z;
  g_append_max : Z
}.

(** The chain of comparisons on the dice [op], in [uint32_t]. *)
Definition op_choice (c : OPCONF) (op : Z) : counter :=
  if op <? u32 (c_delete_pct c) then CntRemove
  else if op <? u32 (c_delete_pct c + c_insert_pct c) then CntInsert
  else if op <? u32 (c_delete_pct c + c_insert_pct c + c_write_pct c)
  then CntUpdate
  else CntSearch.

(** What the operation leaves to the rest of the iteration. *)
Record OPRESULT : Type := OpResult {
  op_counter : counter;          (* the statistic incremented *)
  op_made : op_call;             (* the driver function called *)
  op_engine : list engine_call;  (* its calls on the cursor *)
  op_keyno : Z;
  op_positioned : bool;
  op_rnd : list Z;
  op_sn : bool;
  op_status : status
}.

(** [positioned = ret == 0] and the jump to [deadlock]. *)
Definition after_op (intxn : bool) (out : outcome) (position : bool)
    : bool * status :=
  match out with
  | Die => (false, Died)
  | Return ret =>
      (position && (ret =? 0),
       if (ret =? WT_ROLLBACK) && intxn then Deadlock else Running)
  end.

(** Lines 405 to 483 of [ops]: the record number, the dice and the
    operation. *)
Definition ops_operation (c : OPCONF) (readonly intxn : bool) (rnd : list Z)
    (sn : bool) : OPRESULT :=
  let '(keyno, rnd) := mmrand rnd 1 (u32 (g_rows c)) in
  let '(op, rnd) :=
    if readonly then (UINT32_MAX, rnd) else mmrand rnd 1 100 in
  let update (cnt : counter) (rnd : list Z) :=
    match g_type with
    | ROW =>
        let rnd := val_gen rnd in
        let '(out, calls) := row_update keyno in
        let '(positioned, st) := after_op intxn out true in
        OpResult cnt (OpRowUpdate keyno) calls keyno positioned rnd sn st
    | _ =>
        let rnd := val_gen rnd in
        let '(out, calls) := col_update keyno in
        let '(positioned, st) := after_op intxn out true in
        OpResult cnt (OpColUpdate keyno) calls keyno positioned rnd sn st
    end in
  match op_choice c op with
  | CntRemove =>
      let '(out, calls, made) :=
        match g_type with
        | ROW => (row_remove keyno, OpRowRemove keyno)
        | _ => (col_remove keyno, OpColRemove keyno)
        end in
      let '(positioned, st) := after_op intxn out true in
      OpResult CntRemove made calls keyno positioned rnd sn st
  | CntInsert =>
      match g_type with
      | ROW =>
          let rnd := val_gen (key_gen_insert rnd) in
          let '(out, calls) := row_insert keyno in
          let '(positioned, st) := after_op intxn out false in
          OpResult CntInsert (OpRowInsert keyno) calls keyno positioned rnd sn st
      | _ =>
          if g_append_max c <=? g_append_cnt c then update CntInsert rnd
          else
            let rnd := val_gen rnd in
            let '(out, calls, keynop) := col_insert in
            let '(positioned, st) := after_op intxn out false in
            OpResult CntInsert OpColInsert calls (default keyno keynop)
              positioned rnd sn st
      end
  | CntUpdate => update CntUpdate rnd
  | CntSearch =>
      let '(out, sn, _) :=
        read_row WT_NOTFOUND WT_ROLLBACK g_type cursor_search
          cursor_search_near cursor_get_value sn keyno in
      let '(positioned, st) := after_op intxn out true in
      OpResult CntSearch (OpReadRow keyno) [] keyno positioned rnd sn st
  end.

End Operations.

(** The dice values, 1 to 100, that select the operation counted in
    [cnt]. *)
Definition dice_for (c : OPCONF) (cnt : counter) : list Z :=
  List.filter
    (λ op, match op_choice c op, cnt with
           | CntRemove, CntRemove | CntInsert, CntInsert
           | CntUpdate, CntUpdate | CntSearch, CntSearch => true
           | _, _ => false
           end)
    (seqZ 1 100).

(** ** The monitor of the worker threads: [wts_ops] *)

Inductive tinfo_state : Type := TINFO_RUNNING | TINFO_COMPLETE | TINFO_JOINED.

(** The fields of a worker's [TINFO] that [wts_ops] and the head and the
    end of [ops] use; the statistics, which are only summed up for the
    progress report, are left out. *)
Record TINFO : Type := Tinfo {
  t_id : Z;
  t_state : tinfo_state;
  t_quit : bool;
  t_ops : Z
}.

Definition set_state (s : tinfo_state) (t : TINFO) : TINFO :=
  Tinfo (t_id t) s (t_quit t) (t_ops t).

Definition set_quit (t : TINFO) : TINFO :=
  Tinfo (t_id t) (t_state t) true (t_ops t).

(** How the spin loop of [wts_ops] ends: it breaks, with the threads'
    structures and the threads passed to [pthread_join] in order; it
    writes through the null pointer [core]; or it is still spinning when
    the fuel is used up. *)
Inductive run_result : Type :=
  | Finished (tinfo : list TINFO) (joins : list nat)
  | DroppedCore
  | StillRunning.

(** The share of operations of each thread: -1 for no limit; [None]
    where the C code divides by zero. *)
Definition thread_share (c_ops c_threads : Z) : option Z :=
  if c_ops =? 0 then Some (-1)
  else if c_threads =? 0 then None
  else
    let c_ops := if c_ops <? c_threads then c_threads else c_ops in
    Some (c_ops / c_threads).

(** [calloc] and the loop that starts the workers. *)
Definition tinfo_init (c_threads : nat) : list TINFO :=
  map (λ i, Tinfo (Z.of_nat i + 1) TINFO_RUNNING false 0) (seq 0 c_threads).

Section Monitor.

Variable lastrun : bool.
Variable c_abort : bool.

(** [FORMAT_OPERATION_REPS], a constant of a header that is not among
    the sources. *)
Variable FORMAT_OPERATION_REPS : Z.

(** What worker [i] has done to its own structure when the monitor, in
    pass [p], reads its state ([false]) and then its operation count
    ([true]). *)
Variable workers : nat → nat → bool → TINFO → TINFO.

Definition timer_fourths (c_timer : Z) : Z :=
  if c_timer =? 0 then -1 else (c_timer * 4 * 60) / FORMAT_OPERATION_REPS.

(** The body of the inner loop for thread [i]: the thread after it,
    whether it was seen running, and whether it was joined; [None] for
    the write through [core]. *)
Definition wts_ops_visit (fourths thread_ops : Z) (p i : nat) (t : TINFO)
    : option (TINFO * bool * bool) :=
  let t := workers p i false t in
  let '(t, running, joined) :=
    match t_state t with
    | TINFO_RUNNING => (t, true, false)
    | TINFO_COMPLETE => (set_state TINFO_JOINED t, false, true)
    | TINFO_JOINED => (t, false, false)
    end in
  let t := workers p i true t in
  if (fourths =? 0)
     || (negb (thread_ops =? -1) && (u64 thread_ops <=? t_ops t)) then
    if lastrun && c_abort then None else Some (set_quit t, running, joined)
  else Some (t, running, joined).

(** One pass over the threads, from thread [i] on. *)
Fixpoint wts_ops_pass (fourths thread_ops : Z) (p i : nat) (ts : list TINFO)
    : option (list TINFO * bool * list nat) :=
  match ts with
  | [] => Some ([], false, [])
  | t :: ts =>
      match wts_ops_visit fourths thread_ops p i t with
      | None => None
      | Some (t, running, joined) =>
          match wts_ops_pass fourths thread_ops p (S i) ts with
          | None => None
          | Some (ts, running', joins) =>
              Some (t :: ts, running || running',
                    (if joined then [i] else []) ++ joins)
          end
      end
  end.

(** The spin loop; [p] counts the passes. *)
Fixpoint wts_ops_spin (thread_ops : Z) (fuel p : nat) (fourths : Z)
    (ts : list TINFO) (joins : list nat) : run_result :=
  match fuel with
  | O => StillRunning
  | S fuel =>
      match wts_ops_pass fourths thread_ops p 0 ts with
      | None => DroppedCore
      | Some (ts, running, joins') =>
          if negb running then Finished ts (joins ++ joins')
          else
            let fourths := if negb (fourths =? -1) then fourths - 1
                           else fourths in
            wts_ops_spin thread_ops fuel (S p) fourths ts (joins ++ joins')
      end
  end.

(** [wts_ops], as far as the workers are concerned: the optional
    backup, compaction and long-running reader threads, the log
    messages and the append table are left out. *)
Definition wts_ops (fuel : nat) (c_ops c_threads c_timer : Z)
    : option run_result :=
  match thread_share c_ops c_threads with
  | None => None
  | Some thread_ops =>
      Some (wts_ops_spin thread_ops fuel 0 (timer_fourths c_timer)
              (tinfo_init (Z.to_nat c_threads)) [])
  end.

(** What [ops] does to its structure: it counts operations up, never
    writes [quit], and sets the state to complete once, after it has
    read [quit] set. *)
Definition worker_step_ok (t t' : TINFO) : Prop :=
  t_id t' = t_id t ∧ t_quit t' = t_quit t ∧
  match t_state t with
  | TINFO_RUNNING =>
      t_ops t ≤ t_ops t' ∧
      (t_state t' = TINFO_RUNNING ∨
       (t_state t' = TINFO_COMPLETE ∧ t_quit t = true))
  | _ => t' = t
  end.

Definition workers_keep_protocol : Prop :=
  ∀ p i b t, worker_step_ok t (workers p i b t).

(** A worker told to quit has completed when the monitor looks at it
    again. *)
Definition workers_respond : Prop :=
  ∀ p i t, t_quit t = true → t_state (workers p i false t) ≠ TINFO_RUNNING.

(** What one visit does to a thread's structure. *)
Record visit_facts (fourths thread_ops : Z) (t t' : TINFO) (running joined : bool)
    : Prop := {
  vf_id : t_id t' = t_id t;
  vf_ops : t_ops t ≤ t_ops t';
  vf_quit_keep : t_quit t = true → t_quit t' = true;
  vf_quit_why : t_quit t' = true →
    t_quit t = true ∨ fourths = 0 ∨
    (thread_ops ≠ -1 ∧ u64 thread_ops ≤ t_ops t');
  vf_joined : joined = true →
    t_state t ≠ TINFO_JOINED ∧ t_state t' = TINFO_JOINED;
  vf_not_joined : joined = false →
    (t_state t' = TINFO_JOINED ↔ t_state t = TINFO_JOINED);
  vf_running : running = false ↔ t_state t' = TINFO_JOINED;
  vf_told : (t_state t ≠ TINFO_RUNNING → t_quit t = true) →
    t_state t' ≠ TINFO_RUNNING → t_quit t' = true;
  vf_abort : lastrun && c_abort = true → t_quit t' = t_quit t
}.

(** What one pass does. *)
Record pass_facts (fourths thread_ops : Z) (i0 : nat) (ts ts' : list TINFO)
    (running : bool) (js : list nat) : Prop := {
  pf_len : length ts' = length ts;
  pf_each : ∀ k t, ts !! k = Some t →
    ∃ t' r j, ts' !! k = Some t' ∧
      visit_facts fourths thread_ops t t' r j ∧
      (j = true ↔ (i0 + k)%nat ∈ js) ∧ (running = false → r = false);
  pf_nodup : NoDup js;
  pf_range : ∀ i, i ∈ js → (i0 ≤ i < i0 + length ts)%nat
}.

(** What holds between two passes: the threads joined so far are those
    in the joined state, each once, and no thread has left the running
    state without being told to quit. *)
Record spin_inv (ts : list TINFO) (js : list nat) : Prop := {
  si_nodup : NoDup js;
  si_joined : ∀ i, i ∈ js ↔ ∃ t, ts !! i = Some t ∧ t_state t = TINFO_JOINED;
  si_told : ∀ i t, ts !! i = Some t →
    t_state t ≠ TINFO_RUNNING → t_quit t = true
}.

(** Threads that are running and have not been told to quit. *)
Definition untold (ts : list TINFO) : Prop :=
  ∀ i t, ts !! i = Some t → t_state t = TINFO_RUNNING ∧ t_quit t = false.

End Monitor.

(** Workers that do one operation between two looks of the monitor and
    complete when told to quit. *)
Definition ex_workers (p i : nat) (b : bool) (t : TINFO) : TINFO :=
  match t_state t with
  | TINFO_RUNNING =>
      if b then t
      else if t_quit t then set_state TINFO_COMPLETE t
      else Tinfo (t_id t) (t_state t) (t_quit t) (t_ops t + 1)
  | _ => t
  end.

End FormatOps.

Module RowModifyFacts.

Import RowModify.

(** * Facts about the row-store modification core *)

(** ** Memory *)

Lemma load_store_eq σ l v : load (store l v σ) l = v.
Proof. unfold load, store; simpl. by rewrite lookup_partial_alter_eq. Qed.

Lemma load_store_ne σ l l' v : l ≠ l' → load (store l v σ) l' = load σ l'.
Proof. intros H. unfold load, store; simpl. by rewrite lookup_partial_alter_ne. Qed.

Lemma load_store σ l l' v :
  load (store l v σ) l' = if decide (l = l') then v else load σ l'.
Proof.
  case_decide; subst; [apply load_store_eq | by apply load_store_ne].
Qed.

(** ** The insert serialization function *)

(** *** What the validation loop checks *)

Lemma is_new_tail_spec σ h p i :
  is_new_tail σ h p i = true ↔
  load σ (HeadTail h i) = None ∨
  ∃ t, load σ (HeadTail h i) = Some t ∧ p = InsNext t i.
Proof.
  unfold is_new_tail. destruct (load σ (HeadTail h i)) as [t|].
  - rewrite bool_decide_eq_true. split.
    + intros ->. right. by exists t.
    + intros [?|(t' & [= <-] & ->)]; done.
  - split; [by left | done].
Qed.

Lemma level_stale_false σ h stk nxt i :
  level_stale σ h stk nxt i = false ↔
  ∃ p, stack_at stk i = Some p ∧ load σ p = stack_at nxt i ∧
       (stack_at nxt i = None → is_new_tail σ h p i = true).
Proof.
  unfold level_stale. destruct (stack_at stk i) as [p|].
  - rewrite orb_false_iff, negb_false_iff, bool_decide_eq_true,
      andb_false_iff, bool_decide_eq_false, negb_false_iff.
    split.
    + intros [H1 H2]. exists p. split; [done|]. split; [done|].
      intros Hn. by destruct H2.
    + intros (p' & [= <-] & H1 & H2). split; [done|].
      destruct (decide (stack_at nxt i = None)); [right; auto | by left].
  - split; [done | by intros (p & ? & _)].
Qed.

Lemma existsb_seq_false (f : nat → bool) d :
  existsb f (seq 0 d) = false ↔ ∀ i, i < d → f i = false.
Proof.
  split.
  - intros H i Hi. destruct (f i) eqn:E; [|done].
    assert (existsb f (seq 0 d) = true) as Ht; [|congruence].
    apply existsb_exists. exists i. split; [|done]. apply in_seq. lia.
  - intros H. destruct (existsb f (seq 0 d)) eqn:E; [|done].
    apply existsb_exists in E as (i & Hi & Hf). apply in_seq in Hi.
    rewrite H in Hf; [done | lia].
Qed.

Section InsertSerialFacts.

Variable WT_RESTART : Z.
Variable write_gen_wrapped : state → bool.

Local Abbreviation serial := (__wt_insert_serial_func WT_RESTART write_gen_wrapped).

Lemma insert_serial_stale σ h stk nxt new d i :
  i < d → level_stale σ h stk nxt i = true →
  serial σ h stk nxt new d = (WT_RESTART, false, σ).
Proof.
  intros Hi Hs. unfold __wt_insert_serial_func, __wt_page_write_gen_wrapped_check.
  assert (existsb (level_stale σ h stk nxt) (seq 0 d) = true) as ->.
  { apply existsb_exists. exists i. split; [apply in_seq; lia | done]. }
  destruct (write_gen_wrapped σ); [|done].
  by destruct (WT_RESTART =? 0)%Z.
Qed.

Lemma insert_serial_taken σ h stk nxt new d r σ' :
  serial σ h stk nxt new d = (r, true, σ') →
  r = 0%Z ∧
  (∀ i, i < d → level_stale σ h stk nxt i = false) ∧
  σ' = set_page_modified true
         (fold_left (link_pred h stk new) (seq 0 d)
            (fold_left (set_new_next stk new) (seq 0 d) σ)).
Proof.
  unfold __wt_insert_serial_func.
  destruct (negb _); [done|].
  destruct (existsb _ _) eqn:E; [done|].
  intros [= <- <-]. by rewrite existsb_seq_false in E.
Qed.

(** C1: at every level below the depth a stale predecessor pointer, or a
    stale append position when the successor seen was NULL, makes the
    function return [WT_RESTART] with the page untouched; the new node is
    taken only when every level passed both checks. *)
Theorem insert_serial_validates_every_level σ h stk nxt new d :
  (∀ i, i < d →
     (∀ p, stack_at stk i = Some p → load σ p ≠ stack_at nxt i) →
     serial σ h stk nxt new d = (WT_RESTART, false, σ)) ∧
  (∀ i p t, i < d →
     stack_at stk i = Some p → stack_at nxt i = None →
     load σ (HeadTail h i) = Some t → p ≠ InsNext t i →
     serial σ h stk nxt new d = (WT_RESTART, false, σ)) ∧
  (∀ r σ', serial σ h stk nxt new d = (r, true, σ') →
     ∀ i, i < d →
       ∃ p, stack_at stk i = Some p ∧ load σ p = stack_at nxt i ∧
            (stack_at nxt i = None →
             load σ (HeadTail h i) = None ∨
             ∃ t, load σ (HeadTail h i) = Some t ∧ p = InsNext t i)) ∧
  (write_gen_wrapped σ = false →
   (∀ i, i < d →
       ∃ p, stack_at stk i = Some p ∧ load σ p = stack_at nxt i ∧
            (stack_at nxt i = None →
             load σ (HeadTail h i) = None ∨
             ∃ t, load σ (HeadTail h i) = Some t ∧ p = InsNext t i)) →
   ∃ σ', serial σ h stk nxt new d = (0%Z, true, σ')).
Proof.
  repeat split.
  - intros i Hi Hne. apply insert_serial_stale with i; [done|].
    destruct (level_stale σ h stk nxt i) eqn:E; [done|].
    apply level_stale_false in E as (p & Hp & Hl & _). by destruct (Hne p).
  - intros i p t Hi Hp Hn Ht Hpt. apply insert_serial_stale with i; [done|].
    destruct (level_stale σ h stk nxt i) eqn:E; [done|].
    apply level_stale_false in E as (p' & Hp' & _ & Htl).
    rewrite Hp in Hp'. injection Hp' as <-.
    apply Htl, is_new_tail_spec in Hn as [Hn|(t' & Ht' & ->)]; congruence.
  - intros r σ' Hs i Hi.
    apply insert_serial_taken in Hs as (_ & Hall & _).
    apply Hall, level_stale_false in Hi as (p & Hp & Hl & Htl).
    exists p. split; [done|]. split; [done|].
    intros Hn. by apply is_new_tail_spec, Htl.
  - intros Hw Hall. unfold __wt_insert_serial_func, __wt_page_write_gen_wrapped_check.
    rewrite Hw. simpl.
    destruct (existsb _ _) eqn:E; [|eauto].
    apply existsb_exists in E as (i & Hi & Hs). apply in_seq in Hi.
    destruct (Hall i) as (p & Hp & Hl & Htl); [lia|].
    assert (level_stale σ h stk nxt i = false) as Hf; [|congruence].
    apply level_stale_false. exists p. split; [done|]. split; [done|].
    intros Hn. by apply is_new_tail_spec, Htl.
Qed.

End InsertSerialFacts.

(** A writer that searched the list before node 2 was linked still holds
    the head's forward pointer with successor NULL: it is sent back. *)
Example stale_stack_restarts :
  __wt_insert_serial_func (-31805) (λ _, false) ex_one_node 1
    [Some (HeadHead 1 0)] [None] 3 1
  = ((-31805)%Z, false, ex_one_node).
Proof. reflexivity. Qed.

(** *** What the publish loops write *)

Lemma fold_left_seq_S {A : Type} (f : A → nat → A) d a :
  fold_left f (seq 0 (S d)) a = f (fold_left f (seq 0 d) a) d.
Proof. by rewrite seq_S, fold_left_app. Qed.

Lemma set_new_next_fold stk new d σ :
  (∀ i p k, i < d → stack_at stk i = Some p → p ≠ InsNext new k) →
  (∀ l, (∀ i, i < d → l ≠ InsNext new i) →
     load (fold_left (set_new_next stk new) (seq 0 d) σ) l = load σ l) ∧
  (∀ i p, i < d → stack_at stk i = Some p →
     load (fold_left (set_new_next stk new) (seq 0 d) σ) (InsNext new i)
     = load σ p).
Proof.
  induction d as [|d IH]; intros Hfresh.
  - split; [done | intros; lia].
  - destruct IH as [IHf IHn]; [intros; eapply Hfresh; [|done]; lia |].
    rewrite fold_left_seq_S. unfold set_new_next at 1 3.
    destruct (stack_at stk d) as [q|] eqn:Hq.
    + split.
      * intros l Hl. rewrite load_store_ne; [|intros <-; apply (Hl d); [lia | done]].
        apply IHf. intros i Hi. apply Hl. lia.
      * intros i p Hi Hp. rewrite load_store. case_decide as Heq.
        -- injection Heq as <-. rewrite Hq in Hp. injection Hp as <-.
           apply IHf. intros j _. by eapply Hfresh.
        -- apply IHn; [|done]. destruct (decide (i = d)); [congruence | lia].
    + split.
      * intros l Hl. apply IHf. intros i Hi. apply Hl. lia.
      * intros i p Hi Hp. apply IHn; [|done].
        destruct (decide (i = d)); [congruence | lia].
Qed.

Lemma is_fwd_at_level i p : is_fwd_at i p = true → loc_level p = Some i.
Proof. destruct p; simpl; try done; by intros ->%bool_decide_eq_true. Qed.

Lemma is_fwd_at_not_tail i p h j : is_fwd_at i p = true → p ≠ HeadTail h j.
Proof. by intros H ->. Qed.

Lemma link_pred_fold h stk new d σ :
  (∀ i p, i < d → stack_at stk i = Some p → is_fwd_at i p = true) →
  (∀ l, (∀ i, i < d → l ≠ HeadTail h i ∧ stack_at stk i ≠ Some l) →
     load (fold_left (link_pred h stk new) (seq 0 d) σ) l = load σ l) ∧
  (∀ i p, i < d → stack_at stk i = Some p →
     load (fold_left (link_pred h stk new) (seq 0 d) σ) p = Some new ∧
     load (fold_left (link_pred h stk new) (seq 0 d) σ) (HeadTail h i)
     = if is_new_tail σ h p i then Some new else load σ (HeadTail h i)).
Proof.
  induction d as [|d IH]; intros Hfwd.
  - split; [done | intros; lia].
  - destruct IH as [IHf IHl]; [intros; apply Hfwd; [lia | done] |].
    rewrite fold_left_seq_S.
    set (σ2 := fold_left (link_pred h stk new) (seq 0 d) σ) in *.
    assert (load σ2 (HeadTail h d) = load σ (HeadTail h d)) as Htl.
    { apply IHf. intros i Hi. split; [intros [=]; lia |].
      intros Hs. by apply Hfwd in Hs; [|lia]. }
    unfold link_pred.
    destruct (stack_at stk d) as [q|] eqn:Hq.
    + assert (is_fwd_at d q = true) as Hfq by (apply Hfwd; [lia | done]).
      assert (is_new_tail σ2 h q d = is_new_tail σ h q d) as ->.
      { unfold is_new_tail. by rewrite Htl. }
      assert (∀ l, l ≠ q → l ≠ HeadTail h d →
        load (store q (Some new)
                (if is_new_tail σ h q d
                 then store (HeadTail h d) (Some new) σ2 else σ2)) l
        = load σ2 l) as Hother.
      { intros l Hl1 Hl2. rewrite load_store_ne; [|done].
        destruct (is_new_tail σ h q d); [by rewrite load_store_ne | done]. }
      split.
      * intros l Hl. rewrite Hother.
        -- apply IHf. intros i Hi. apply Hl. lia.
        -- intros ->. destruct (Hl d); [lia | done].
        -- intros ->. destruct (Hl d) as [? _]; [lia | done].
      * intros i p Hi Hp. destruct (decide (i = d)) as [->|Hne].
        -- rewrite Hq in Hp. injection Hp as <-. split; [apply load_store_eq |].
           rewrite load_store_ne; [|by eapply is_fwd_at_not_tail].
           destruct (is_new_tail σ h q d); [apply load_store_eq | done].
        -- assert (is_fwd_at i p = true) as Hfp by (apply Hfwd; [lia | done]).
           assert (p ≠ q) as Hpq.
           { intros ->. apply is_fwd_at_level in Hfp, Hfq. congruence. }
           assert (HeadTail h i ≠ q) as Htq by (by intros <-).
           assert (p ≠ HeadTail h d) as Hpt by (by eapply is_fwd_at_not_tail).
           rewrite !Hother; [apply IHl; [lia | done] | | | | ];
             try done; intros [=]; lia.
    + split.
      * intros l Hl. apply IHf. intros i Hi. apply Hl. lia.
      * intros i p Hi Hp. apply IHl; [|done].
        destruct (decide (i = d)); [congruence | lia].
Qed.

Section InsertPublish.

Variable WT_RESTART : Z.
Variable write_gen_wrapped : state → bool.

Local Abbreviation serial := (__wt_insert_serial_func WT_RESTART write_gen_wrapped).


End InsertPublish.


(** ** The obsolete-update collector *)

(** *** Facts about list segments *)

Lemma lseg_app σ p l1 l2 q :
  lseg σ p (l1 ++ l2) q ↔ ∃ m, lseg σ p l1 m ∧ lseg σ m l2 q.
Proof.
  revert p. induction l1 as [|u l1 IH]; intros p; simpl.
  - split; [intros H; by exists p | by intros (m & -> & H)].
  - rewrite IH. split.
    + intros (-> & m & H1 & H2). by exists m.
    + intros (m & (-> & H1) & H2). split; [done | by exists m].
Qed.

Lemma lseg_frame σ σ' p l q :
  (∀ u, u ∈ l → load σ' (UpdNext u) = load σ (UpdNext u)) →
  lseg σ p l q → lseg σ' p l q.
Proof.
  revert p. induction l as [|u l IH]; intros p Hf; simpl; [done|].
  intros [-> H]. split; [done|].
  rewrite Hf; [|by left]. apply IH; [|done].
  intros v Hv. apply Hf. by right.
Qed.

Lemma chain_det σ p l1 l2 : chain σ p l1 → chain σ p l2 → l1 = l2.
Proof.
  unfold chain. revert p l2.
  induction l1 as [|u l1 IH]; intros p [|v l2]; simpl; try done.
  - by intros -> [? _].
  - by intros [-> _] ?.
  - intros [-> H1] [[= <-] H2]. f_equal. by eapply IH.
Qed.

(** A NULL-terminated list does not meet a node twice. *)
Lemma chain_not_behind σ p pre u post :
  chain σ p (pre ++ u :: post) → u ∉ post.
Proof.
  intros Hc Hin.
  apply list_elem_of_split in Hin as (a & b & ->).
  apply lseg_app in Hc as (m & _ & Hu).
  pose proof Hu as Hu'. simpl in Hu'. destruct Hu' as [-> Hrest].
  apply lseg_app in Hrest as (m & _ & Hb).
  pose proof Hb as [-> _].
  pose proof (chain_det _ _ _ _ Hu Hb) as Heq.
  apply (f_equal length) in Heq. simpl in Heq. rewrite length_app in Heq.
  simpl in Heq. lia.
Qed.

Section ObsoleteFacts.

Variable visible_all : Z → bool.
Variable racer : state → state.

Local Abbreviation check := (__wt_update_obsolete_check visible_all racer).
Local Abbreviation truncate := (obsolete_truncate racer).

Lemma obsolete_check_skip σ pre fuel upd m :
  lseg σ upd pre m →
  Forall (λ u, visible_all (txnid_of σ u) = false) pre →
  check (length pre + fuel) σ upd = check fuel σ m.
Proof.
  revert upd. induction pre as [|u pre IH]; intros upd; simpl.
  - by intros ->.
  - intros [-> H] Hall. inversion Hall as [|? ? Hu Hpre]; subst.
    rewrite Hu. by apply IH.
Qed.

Lemma obsolete_check_none σ upd l fuel :
  chain σ upd l → length l < fuel →
  Forall (λ u, visible_all (txnid_of σ u) = false) l →
  check fuel σ upd = Some (None, σ).
Proof.
  intros Hc Hf Hnv.
  replace fuel with (length l + S (fuel - length l - 1)) by lia.
  by rewrite (obsolete_check_skip σ l _ upd None).
Qed.

Lemma obsolete_check_first σ upd pre u post fuel :
  chain σ upd (pre ++ u :: post) → length (pre ++ u :: post) < fuel →
  Forall (λ u, visible_all (txnid_of σ u) = false) pre →
  visible_all (txnid_of σ u) = true →
  check fuel σ upd = Some (truncate σ u).
Proof.
  intros Hc Hf Hnv Hv. rewrite length_app in Hf. simpl in Hf.
  apply lseg_app in Hc as (m & Hpre & Hu).
  destruct Hu as [-> _].
  replace fuel with (length pre + S (fuel - length pre - 1)) by lia.
  rewrite (obsolete_check_skip σ pre _ upd (Some u)); [|done..].
  simpl. by rewrite Hv.
Qed.

(** Every list splits at its first node that is visible to all, if any. *)
Lemma first_visible_split σ (l : list positive) :
  Forall (λ u, visible_all (txnid_of σ u) = false) l ∨
  ∃ pre u post, l = pre ++ u :: post ∧
    Forall (λ u, visible_all (txnid_of σ u) = false) pre ∧
    visible_all (txnid_of σ u) = true.
Proof.
  induction l as [|v l IH]; [by left|].
  destruct (visible_all (txnid_of σ v)) eqn:Hv.
  - right. by exists [], v, l.
  - destruct IH as [IH|(pre & u & post & -> & Hpre & Hu)].
    + left. by constructor.
    + right. exists (v :: pre), u, post. split; [done|].
      split; [by constructor | done].
Qed.

(** The collector writes at most the [next] field of one node of the
    list it walks, on top of what the racing threads did. *)
Lemma obsolete_check_effect σ upd l fuel :
  chain σ upd l → length l < fuel →
  ∃ r σ', check fuel σ upd = Some (r, σ') ∧
    (σ' = σ ∨ σ' = racer σ ∨
     ∃ u, u ∈ l ∧ σ' = store (UpdNext u) None (racer σ)).
Proof.
  intros Hc Hf.
  destruct (first_visible_split σ l) as [Hnv|(pre & u & post & -> & Hpre & Hu)].
  - exists None, σ. split; [by apply obsolete_check_none with l | by left].
  - rewrite (obsolete_check_first σ upd pre u post); [|done..].
    unfold obsolete_truncate.
    destruct (load σ (UpdNext u)) as [n|]; [|by exists None, σ; auto].
    unfold WT_ATOMIC_CAS. case_decide.
    + exists (Some n), (store (UpdNext u) None (racer σ)).
      split; [done|]. right; right. exists u. split; [|done].
      apply elem_of_app. right. by left.
    + exists None, (racer σ). auto.
Qed.

(** C3: the collector walks to the first update [u] that is visible to
    all.  Without such an update, or when [u] is the last of the list, or
    when the compare-and-swap of [u]'s [next] loses against a racing
    thread, it returns NULL and writes nothing; otherwise it sets [u]'s
    [next] to NULL and returns the list that was behind [u].  [u] and the
    updates before it stay linked and allocated. *)
Theorem obsolete_check_cuts_behind_first_visible σ upd l fuel :
  chain σ upd l → length l < fuel →
  (Forall (λ u, visible_all (txnid_of σ u) = false) l →
     check fuel σ upd = Some (None, σ)) ∧
  (∀ pre u post,
     l = pre ++ u :: post →
     Forall (λ u, visible_all (txnid_of σ u) = false) pre →
     visible_all (txnid_of σ u) = true →
     (post = [] → check fuel σ upd = Some (None, σ)) ∧
     (∀ n post', post = n :: post' →
        (load (racer σ) (UpdNext u) ≠ Some n →
           check fuel σ upd = Some (None, racer σ)) ∧
        (load (racer σ) (UpdNext u) = Some n →
           check fuel σ upd
           = Some (Some n, store (UpdNext u) None (racer σ)))) ∧
     (racer σ = σ →
        ∃ r σ', check fuel σ upd = Some (r, σ') ∧
          chain σ' upd (pre ++ [u]) ∧ chain σ' r post ∧
          live σ' = live σ)).
Proof.
  intros Hc Hf. split; [by apply obsolete_check_none|].
  intros pre u post -> Hpre Hu.
  rewrite (obsolete_check_first σ upd pre u post); [|done..].
  pose proof Hc as Hc'. apply lseg_app in Hc' as (m & Hp & Hupost).
  destruct Hupost as [-> Hpost].
  unfold obsolete_truncate, WT_ATOMIC_CAS.
  split; [|split].
  - intros ->. simpl in Hpost. by rewrite Hpost.
  - intros n post' ->. destruct Hpost as [Hn _]. rewrite Hn.
    split; intros Hr; by case_decide.
  - intros Hid. rewrite Hid. destruct post as [|n post'].
    + simpl in Hpost. rewrite Hpost. by exists None, σ.
    + pose proof Hpost as [Hn _]. rewrite Hn.
      rewrite decide_True by done.
      exists (Some n), (store (UpdNext u) None σ).
      split; [done|]. split; [|split; [|done]].
      * apply lseg_app. exists (Some u). split.
        -- eapply lseg_frame; [|done]. intros v Hv.
           apply load_store_ne. intros [= ->].
           rewrite Forall_forall in Hpre.
           apply list_elem_of_In, Hpre in Hv. congruence.
        -- simpl. split; [done|]. apply load_store_eq.
      * eapply lseg_frame; [|unfold chain; simpl; split; [done|apply Hpost]].
        intros v Hv. apply load_store_ne. intros [= ->].
        by eapply chain_not_behind in Hc.
Qed.

End ObsoleteFacts.

(** With transactions up to 20 visible to all, the collector started at
    node 3 stops at node 2 and cuts node 1 off. *)
Lemma obsolete_check_cuts_behind_first_visible_witness :
  __wt_update_obsolete_check (λ t, bool_decide (t ≤ 20)%Z) (λ s, s) 4
    ex_three_versions (Some 3%positive)
  = Some (Some 1%positive, store (UpdNext 2) None ex_three_versions).
Proof.
  destruct (obsolete_check_cuts_behind_first_visible
              (λ t, bool_decide (t ≤ 20)%Z) (λ s, s)
              ex_three_versions (Some 3%positive)
              [3%positive; 2%positive; 1%positive] 4) as [_ H].
  - vm_compute. auto.
  - simpl. lia.
  - destruct (H [3%positive] 2%positive [1%positive]) as (_ & H2 & _).
    + reflexivity.
    + constructor; [reflexivity | constructor].
    + reflexivity.
    + destruct (H2 1%positive []) as [_ H3]; [reflexivity|].
      apply H3. reflexivity.
Defined.

(** ** The update serialization function *)

Section UpdateSerialFacts.

Variable WT_RESTART : Z.
Variable write_gen_wrapped : state → bool.
Variable __wt_txn_visible_all : Z → bool.
Variable racer : state → state.

(** [__wt_txn_update_check(session, upd)], from the transaction manager:
    0, or the error that reports a write conflict. *)
Variable __wt_txn_update_check : state → option ptr → Z.

(** C2: when the head of the list is no longer the one the writer saw,
    the update check runs again on the current head and its error, if
    any, is returned with the page untouched; otherwise, and when the
    head is unchanged, the update is published: its [next] is the head
    that was current and the list now starts at the update. *)
Theorem update_serial_rechecks_and_pushes σ upd_entry old_upd upd l fuel :
  write_gen_wrapped σ = false →
  is_upd_head upd_entry = true →
  chain σ (load σ upd_entry) l → upd ∉ l → length l < fuel →
  (∀ s, load (racer s) upd_entry = load s upd_entry ∧
        load (racer s) (UpdNext upd) = load s (UpdNext upd)) →
  (load σ upd_entry ≠ old_upd →
   __wt_txn_update_check σ (load σ upd_entry) ≠ 0%Z →
   __wt_update_serial_func WT_RESTART write_gen_wrapped __wt_txn_visible_all
       racer __wt_txn_update_check fuel σ upd_entry old_upd upd
   = Some (__wt_txn_update_check σ (load σ upd_entry), false, None, σ)) ∧
  (load σ upd_entry = old_upd ∨
   __wt_txn_update_check σ (load σ upd_entry) = 0%Z →
   ∃ obsolete σ',
     __wt_update_serial_func WT_RESTART write_gen_wrapped __wt_txn_visible_all
       racer __wt_txn_update_check fuel σ upd_entry old_upd upd
     = Some (0%Z, true, obsolete, σ') ∧
     load σ' upd_entry = Some upd ∧
     load σ' (UpdNext upd) = load σ upd_entry).
Proof.
  intros Hw Hhead Hc Hfresh Hf Hrace.
  unfold __wt_update_serial_func, __wt_page_write_gen_wrapped_check.
  rewrite Hw. simpl. split.
  - intros Hne Hchk. rewrite bool_decide_eq_true_2 by done.
    apply Z.eqb_neq in Hchk. by rewrite Hchk.
  - intros Hok.
    assert ((if bool_decide (old_upd ≠ load σ upd_entry)
             then __wt_txn_update_check σ (load σ upd_entry) else 0%Z) = 0%Z)
      as ->.
    { case_bool_decide as Hd; [|done]. by destruct Hok. }
    simpl.
    set (cur := load σ upd_entry) in *.
    set (σ1 := store (UpdNext upd) cur σ).
    set (σ2 := store upd_entry (Some upd) σ1).
    assert (upd_entry ≠ UpdNext upd) as Hne by (by intros ->).
    assert (load σ2 upd_entry = Some upd) as He2 by apply load_store_eq.
    assert (load σ2 (UpdNext upd) = cur) as Hn2.
    { unfold σ2. rewrite load_store_ne by done. apply load_store_eq. }
    rewrite Hn2.
    assert (chain σ2 cur l) as Hc2.
    { eapply lseg_frame; [|done]. intros u Hu. unfold σ2, σ1.
      rewrite !load_store_ne; [done| |].
      - intros [= ->]. done.
      - intros ->. done. }
    destruct (obsolete_check_effect __wt_txn_visible_all racer σ2 cur l fuel)
      as (r & σ3 & -> & Heff); [done..|].
    exists r, (set_page_modified true σ3). split; [done|].
    change (load (set_page_modified true σ3)) with (load σ3).
    destruct (Hrace σ2) as [Hr1 Hr2].
    destruct Heff as [->|[->|(u & Hu & ->)]].
    + done.
    + by rewrite Hr1, Hr2.
    + rewrite !load_store_ne.
      * by rewrite Hr1, Hr2.
      * intros [= ->]. done.
      * intros <-. done.
Qed.

End UpdateSerialFacts.

(** A second writer pushes node 4 on the list of [ex_three_versions] while
    holding the stale head 2: the re-check passes and nothing is visible to
    all yet, so node 4 becomes the head in front of node 3. *)
Lemma update_serial_rechecks_and_pushes_witness :
  ∃ obsolete σ',
    __wt_update_serial_func (-31805) (λ _, false) (λ _, false) (λ s, s)
      (λ _ _, 0%Z) 4 ex_three_versions (UpdArr 9 0) (Some 2%positive) 4
    = Some (0%Z, true, obsolete, σ') ∧
    load σ' (UpdArr 9 0) = Some 4%positive ∧
    load σ' (UpdNext 4) = load ex_three_versions (UpdArr 9 0).
Proof.
  apply (update_serial_rechecks_and_pushes (-31805) (λ _, false) (λ _, false)
           (λ s, s) (λ _ _, 0%Z) ex_three_versions (UpdArr 9 0)
           (Some 2%positive) 4 [3%positive; 2%positive; 1%positive] 4).
  - reflexivity.
  - reflexivity.
  - vm_compute. auto.
  - intros Hin. apply list_elem_of_In in Hin. simpl in Hin.
    destruct Hin as [H|[H|[H|[]]]]; discriminate H.
  - simpl. lia.
  - intros s. split; reflexivity.
  - right. reflexivity.
Defined.

(** ** Allocating and freeing updates *)

Section UpdatesFacts.

Variable sizeof_WT_UPDATE : Z.
Variable WT_UPDATE_DELETED_VALUE : Z.

Local Abbreviation footprint :=
  (list_footprint sizeof_WT_UPDATE WT_UPDATE_DELETED_VALUE).
Local Abbreviation walk :=
  (obsolete_free_walk sizeof_WT_UPDATE WT_UPDATE_DELETED_VALUE).

Lemma update_footprint_eq σ u :
  update_footprint sizeof_WT_UPDATE WT_UPDATE_DELETED_VALUE σ u
  = (sizeof_WT_UPDATE +
     (if WT_UPDATE_DELETED_ISSET WT_UPDATE_DELETED_VALUE σ u
      then 0 else size_of σ u))%Z.
Proof.
  unfold update_footprint. destruct (WT_UPDATE_DELETED_ISSET _ _ _); lia.
Qed.

Lemma list_footprint_nonneg σ l :
  (0 ≤ sizeof_WT_UPDATE)%Z → (∀ u, u ∈ l → 0 ≤ size_of σ u)%Z →
  (0 ≤ footprint σ l)%Z.
Proof.
  intros Hs. induction l as [|u l IH]; intros Hl; simpl; [lia|].
  assert (0 ≤ footprint σ l)%Z by (apply IH; intros; apply Hl; by right).
  assert (0 ≤ size_of σ u)%Z by (apply Hl; by left).
  unfold update_footprint. destruct (WT_UPDATE_DELETED_ISSET _ _ _); lia.
Qed.

(** The loop frees exactly the nodes of the list and counts their
    footprint in [size_t] arithmetic. *)
Lemma obsolete_free_walk_chain σ upd l fuel size :
  chain σ upd l → length l < fuel →
  ∃ σ', walk fuel σ upd size
        = Some (if l is [] then size
                else size_t_wrap (size + footprint σ l), σ') ∧
    (∀ a, a ∈ live σ' ↔ a ∈ live σ ∧ a ∉ l) ∧
    mem σ' = mem σ ∧ upd_size σ' = upd_size σ ∧
    memory_footprint σ' = memory_footprint σ.
Proof.
  revert σ upd fuel size.
  induction l as [|u l IH]; intros σ upd fuel size Hc Hf.
  - unfold chain in Hc. simpl in Hc. subst upd.
    destruct fuel as [|fuel]; [simpl in Hf; lia|].
    exists σ. simpl. split; [done|]. split; [|done].
    intros a. split; [intros Ha; split; [done | apply not_elem_of_nil] | by intros [? _]].
  - destruct Hc as [-> Hc].
    destruct fuel as [|fuel]; [simpl in Hf; lia|]. simpl in Hf.
    destruct (IH (__wt_free (Some u) σ) (load σ (UpdNext u)) fuel
                (size_t_wrap
                   (size + (sizeof_WT_UPDATE +
                      (if WT_UPDATE_DELETED_ISSET WT_UPDATE_DELETED_VALUE σ u
                       then 0 else size_of σ u)))%Z))
      as (σ' & Hw & Hlive & Hmem & Hsz & Hfp);
      [by eapply lseg_frame; [|exact Hc] | lia |].
    exists σ'. split; [|split; [|done]].
    + cbn [obsolete_free_walk]. rewrite Hw. f_equal. f_equal.
      change (footprint (__wt_free (Some u) σ) l) with (footprint σ l).
      change (footprint σ (u :: l))
        with (update_footprint sizeof_WT_UPDATE WT_UPDATE_DELETED_VALUE σ u
              + footprint σ l)%Z.
      rewrite update_footprint_eq. unfold size_t_wrap.
      destruct l as [|v l].
      * f_equal. simpl. lia.
      * rewrite Z.add_mod_idemp_l by lia. f_equal. lia.
    + intros a. rewrite Hlive. simpl. rewrite elem_of_difference,
        elem_of_singleton, not_elem_of_cons. tauto.
Qed.

(** What [__wt_update_alloc] reports in [*sizep] for a node is what freeing
the node takes off the byte count: the record and the value, or the
record alone for a tombstone. *)
Lemma update_alloc_footprint calloc_ret σ value ret upd size σ' :
  __wt_update_alloc sizeof_WT_UPDATE WT_UPDATE_DELETED_VALUE calloc_ret σ value
  = (ret, Some upd, size, σ') →
  (0 ≤ sizeof_WT_UPDATE)%Z →
  (sizeof_WT_UPDATE + Z.of_nat (length (default [] value)) < 2 ^ 64)%Z →
  (Z.of_nat (length (default [] value)) < 2 ^ 32)%Z →
  (value ≠ None → Z.of_nat (length (default [] value)) ≠ WT_UPDATE_DELETED_VALUE) →
  update_footprint sizeof_WT_UPDATE WT_UPDATE_DELETED_VALUE σ' upd = size ∧
  (value = None → size = sizeof_WT_UPDATE).
Proof.
  unfold __wt_update_alloc.
  destruct (__wt_calloc calloc_ret _ _ σ) as [[ret0 [a|]] σ1]; [|done].
  intros [= <- <- <- <-] H0 Hmax H32 Hdel.
  unfold update_footprint, WT_UPDATE_DELETED_ISSET, size_of, size_t_wrap.
  destruct value as [v|]; simpl in *.
  - rewrite lookup_insert_eq. simpl. unfold WT_STORE_SIZE.
    rewrite (Z.mod_small (Z.of_nat (length v))) by lia.
    rewrite bool_decide_eq_false_2 by (by apply Hdel).
    rewrite Z.mod_small by lia. by split.
  - rewrite lookup_insert_eq. simpl.
    rewrite bool_decide_eq_true_2 by done.
    rewrite Z.add_0_r, Z.mod_small by lia. by split.
Qed.

(** C7: freeing an obsolete list lowers the page's in-memory byte count
    by exactly the sum of the freed nodes' footprints, the fixed record
    size plus the payload size, with no payload counted for a tombstone;
    the nodes of the list, and only they, are freed. *)
Theorem obsolete_free_decrements_by_footprint σ upd l fuel :
  chain σ upd l → length l < fuel →
  (0 ≤ sizeof_WT_UPDATE)%Z →
  (∀ u, u ∈ l → 0 ≤ size_of σ u)%Z →
  (footprint σ l < 2 ^ 64)%Z →
  ∃ σ',
    __wt_update_obsolete_free sizeof_WT_UPDATE WT_UPDATE_DELETED_VALUE
      fuel σ upd = Some σ' ∧
    memory_footprint σ' = (memory_footprint σ - footprint σ l)%Z ∧
    footprint σ l
    = foldr (λ u acc,
               sizeof_WT_UPDATE +
               (if WT_UPDATE_DELETED_ISSET WT_UPDATE_DELETED_VALUE σ u
                then 0 else size_of σ u) + acc)%Z 0%Z l ∧
    (∀ a, a ∈ live σ' ↔ a ∈ live σ ∧ a ∉ l) ∧
    mem σ' = mem σ.
Proof.
  intros Hc Hf Hs Hsz Hmax.
  pose proof (list_footprint_nonneg σ l Hs Hsz) as H0.
  destruct (obsolete_free_walk_chain σ upd l fuel 0%Z Hc Hf)
    as (σ' & Hw & Hlive & Hmem & _ & Hfp).
  unfold __wt_update_obsolete_free. rewrite Hw.
  assert ((if l is [] then 0%Z else size_t_wrap (0 + footprint σ l))
          = footprint σ l) as ->.
  { destruct l; [done|]. unfold size_t_wrap.
    rewrite Z.add_0_l. apply Z.mod_small. lia. }
  eexists. split; [done|]. split; [|split; [|split]].
  - destruct (footprint σ l =? 0)%Z eqn:E; simpl.
    + apply Z.eqb_eq in E. lia.
    + lia.
  - clear. induction l as [|u l IH]; [done|]. simpl. rewrite <- IH.
    unfold update_footprint. destruct (WT_UPDATE_DELETED_ISSET _ _ _); lia.
  - by destruct (negb _).
  - by destruct (negb _).
Qed.

End UpdatesFacts.

(** Freeing the three nodes of [ex_sized_versions] with a 40-byte record:
    45 + 47 + 40 bytes leave the count. *)
Lemma obsolete_free_decrements_by_footprint_witness :
  ∃ σ',
    __wt_update_obsolete_free 40 4294967295 4 ex_sized_versions (Some 3%positive)
    = Some σ' ∧
    memory_footprint σ' = (1000 - 132)%Z.
Proof.
  destruct (obsolete_free_decrements_by_footprint 40 4294967295
              ex_sized_versions (Some 3%positive)
              [3%positive; 2%positive; 1%positive] 4)
    as (σ' & Hfree & Hfp & _).
  - vm_compute. auto.
  - simpl. lia.
  - lia.
  - intros u Hu. apply list_elem_of_In in Hu. simpl in Hu.
    destruct Hu as [<-|[<-|[<-|[]]]]; vm_compute; discriminate.
  - vm_compute. reflexivity.
  - exists σ'. split; [exact Hfree | exact Hfp].
Defined.

(** ** The modify entry point *)

(** *** Runs of steps *)

Lemma stable_published σ σ' a : stable σ σ' → published σ a → published σ' a.
Proof. intros Hs (l & Hl & Ha). exists l. split; [done | by apply Hs]. Qed.

Lemma trans_refl σ : trans σ σ [] [].
Proof.
  split; [by intros l a | lia | intros; lia | done | done].
Qed.

Lemma trans_trans σ σ1 σ2 o1 o2 e1 e2 :
  trans σ σ1 o1 e1 → trans σ1 σ2 o2 e2 → trans σ σ2 (o1 ++ o2) (e2 ++ e1).
Proof.
  intros [S1 N1 W1 O1 L1] [S2 N2 W2 O2 L2]. split.
  - intros l a Hl Ha. by apply S2, S1.
  - lia.
  - intros a Hlo Hhi Ha. rewrite elem_of_app.
    destruct (decide (a < next_block σ1)%positive) as [Hlt|Hge].
    + destruct (W1 a Hlo Hlt (O2 a Hlt Ha)) as [?|Hp]; [auto|].
      right. by eapply stable_published.
    + destruct (W2 a) as [?|?]; [lia | done | done | auto | auto].
  - intros a Hlt Ha. apply O1; [done|]. apply O2; [lia | done].
  - by rewrite L2, L1, app_assoc.
Qed.

Lemma trans_weaken σ σ' o o' evs :
  (∀ a, a ∈ o → a ∈ o') → trans σ σ' o evs → trans σ σ' o' evs.
Proof.
  intros Hsub [S N W O L]. split; try done.
  intros a Hlo Hhi Ha. destruct (W a Hlo Hhi Ha); auto.
Qed.

(** Steps that leave the pointer fields and the allocator alone and free
    at most. *)
Lemma trans_local σ σ' evs :
  mem σ' = mem σ → next_block σ' = next_block σ →
  (∀ a, a ∈ live σ' → a ∈ live σ) → txn_log σ' = evs ++ txn_log σ →
  trans σ σ' [] evs.
Proof.
  intros Hm Hn Hl Hlog. split.
  - intros l a _. unfold load. by rewrite Hm.
  - lia.
  - intros a ? ?. lia.
  - intros a _. apply Hl.
  - done.
Qed.

Lemma trans_store σ l v :
  is_published_loc l = false → trans σ (store l v σ) [] [].
Proof.
  intros Hl. split.
  - intros l' a Hl' Ha. rewrite load_store_ne; [done | congruence].
  - simpl. lia.
  - simpl. intros a ? ?. lia.
  - by intros a _.
  - done.
Qed.

Lemma trans_racer E pt σ :
  racers_keep_protocol E → trans σ (e_racer E pt σ) [] [].
Proof.
  intros [Hs Hl Hn Hlog]. split.
  - apply Hs.
  - rewrite Hn. lia.
  - rewrite Hn. intros a ? ?. lia.
  - intros a _. by rewrite Hl.
  - by rewrite Hlog.
Qed.

Lemma calloc_inv c number size σ ret r σ' :
  __wt_calloc c number size σ = (ret, r, σ') →
  (r = None ∧ ret ≠ 0%Z ∧ ret = c σ ∧ σ' = σ) ∨
  (r = Some (next_block σ) ∧ ret = 0%Z ∧ c σ = 0%Z ∧
   σ' = set_block_bytes (<[next_block σ := (number * size)%Z]>)
          (set_next_block (Pos.succ (next_block σ))
             (set_live (λ s, {[next_block σ]} ∪ s) σ))).
Proof.
  unfold __wt_calloc. destruct (c σ =? 0)%Z eqn:E; simpl; intros [= <- <- <-].
  - right. by apply Z.eqb_eq in E.
  - left. by apply Z.eqb_neq in E.
Qed.

(** A freshly allocated block is owned by the local variable that holds it. *)
Lemma trans_alloc σ :
  trans σ (set_next_block (Pos.succ (next_block σ))
             (set_live (λ s, {[next_block σ]} ∪ s) σ))
        [next_block σ] [].
Proof.
  split; simpl.
  - by intros l a.
  - lia.
  - intros a Hlo Hhi _. left. apply list_elem_of_singleton. lia.
  - intros a Hlt [Ha%elem_of_singleton|Ha]%elem_of_union; [lia | done].
  - done.
Qed.

(** Freeing what the local variables own leaves nothing owned. *)
Lemma trans_free_owned σ σ' owned evs ins upd :
  trans σ σ' owned evs →
  (∀ a, a ∈ owned → ins = Some a ∨ upd = Some a) →
  trans σ (__wt_free upd (__wt_free ins σ')) [] evs.
Proof.
  intros [S N W O L] Hown.
  assert (∀ a, a ∈ live (__wt_free upd (__wt_free ins σ')) →
               a ∈ live σ' ∧ ins ≠ Some a ∧ upd ≠ Some a) as Hfree.
  { intros a. destruct ins as [i|], upd as [u|]; simpl;
      rewrite ?elem_of_difference, ?elem_of_singleton;
      intros Ha; repeat split; try tauto; intros [= ->]; tauto. }
  assert (mem (__wt_free upd (__wt_free ins σ')) = mem σ') as Hm
    by (by destruct ins, upd).
  assert (next_block (__wt_free upd (__wt_free ins σ')) = next_block σ') as Hn
    by (by destruct ins, upd).
  assert (txn_log (__wt_free upd (__wt_free ins σ')) = txn_log σ') as Hl
    by (by destruct ins, upd).
  split.
  - intros l a Hl' Ha. unfold load. rewrite Hm. by apply S.
  - by rewrite Hn.
  - rewrite Hn. intros a Hlo Hhi Ha. apply Hfree in Ha as (Ha & Hi & Hu).
    destruct (W a Hlo Hhi Ha) as [Ho|(l & Hl' & Hp)].
    + destruct (Hown a Ho); congruence.
    + right. exists l. split; [done|]. unfold load. by rewrite Hm.
  - intros a Hlt Ha. apply Hfree in Ha as (Ha & _). by apply O.
  - by rewrite Hl.
Qed.

Lemma trans_nil_nil σ σ1 σ2 o e :
  trans σ σ1 [] [] → trans σ1 σ2 o e → trans σ σ2 o e.
Proof.
  intros H1 H2. pose proof (trans_trans _ _ _ _ _ _ _ H1 H2) as H.
  by rewrite app_nil_r in H.
Qed.

Lemma trans_then_nil σ σ1 σ2 o e :
  trans σ σ1 o e → trans σ1 σ2 [] [] → trans σ σ2 o e.
Proof.
  intros H1 H2. pose proof (trans_trans _ _ _ _ _ _ _ H1 H2) as H.
  by rewrite app_nil_r in H.
Qed.

Lemma fold_left_trans (f : state → nat → state) l σ :
  (∀ σ i, trans σ (f σ i) [] []) → trans σ (fold_left f l σ) [] [].
Proof.
  intros Hf. revert σ. induction l as [|i l IH]; intros σ; simpl.
  - apply trans_refl.
  - eapply trans_nil_nil; [apply Hf | apply IH].
Qed.

Lemma is_fwd_at_not_published i p :
  is_fwd_at i p = true → is_published_loc p = false.
Proof. by destruct p. Qed.

Lemma stack_typed_heads t n :
  stack_typed ((λ i, Some (HeadHead t i)) <$> seq 0 n).
Proof.
  intros i p. unfold stack_at. rewrite list_lookup_fmap.
  destruct (seq 0 n !! i) as [j|] eqn:Hj; simpl; [|done].
  apply lookup_seq in Hj as [-> _]. intros [= <-]. simpl.
  by apply bool_decide_eq_true.
Qed.

Section ModifySteps.

Variable E : ext.
Hypothesis Hracers : racers_keep_protocol E.

Lemma alloc_and_publish_trans pt l number elem_size bytes σ ret won c σ' :
  is_published_loc l = true →
  alloc_and_publish E pt l number elem_size bytes σ = (ret, won, c, σ') →
  trans σ σ' [] [].
Proof.
  intros Hl. unfold alloc_and_publish, __wt_calloc_def.
  destruct (__wt_calloc (e_calloc_ret E) _ _ σ) as [[ret0 r] σ1] eqn:Hc.
  apply calloc_inv in Hc as [(-> & _ & _ & ->)|(-> & _ & _ & ->)].
  { intros [= <- <- <- <-]. apply trans_refl. }
  set (a := next_block σ).
  set (σ1 := set_block_bytes _
               (set_next_block (Pos.succ a) (set_live (λ s, {[a]} ∪ s) σ))).
  set (σ2 := e_racer E pt σ1).
  assert (stable σ σ2) as Hst.
  { intros l' b Hl' Hb. by apply (racer_stable E Hracers). }
  assert (live σ2 = {[a]} ∪ live σ) as Hlive
    by (unfold σ2; by rewrite (racer_live E Hracers)).
  assert (next_block σ2 = Pos.succ a) as Hnb
    by (unfold σ2; by rewrite (racer_next_block E Hracers)).
  assert (txn_log σ2 = txn_log σ) as Hlog
    by (unfold σ2; by rewrite (racer_txn_log E Hracers)).
  unfold WT_ATOMIC_CAS. case_decide as Hnull; intros [= <- <- <- <-].
  - split; simpl.
    + intros l' b Hl' Hb. change (load (store l (Some a) σ2) l' = Some b).
      apply Hst in Hb; [|done]. rewrite load_store_ne; [done|].
      intros ->. congruence.
    + rewrite Hnb. fold a. lia.
    + rewrite Hnb. fold a. intros a' Hlo Hhi _. right.
      assert (a' = a) as -> by lia.
      exists l. split; [done|]. apply load_store_eq.
    + rewrite Hlive. fold a.
      intros a' Hlt [Ha%elem_of_singleton|Ha]%elem_of_union; [lia | done].
    + done.
  - split; simpl.
    + done.
    + rewrite Hnb. fold a. lia.
    + rewrite Hnb, Hlive. fold a. intros a' Hlo Hhi Ha.
      assert (a' = a) as -> by lia.
      apply elem_of_difference in Ha as [_ Ha]. by destruct Ha; apply elem_of_singleton.
    + rewrite Hlive. fold a. intros a' Hlt Ha.
      apply elem_of_difference in Ha as [[Ha%elem_of_singleton|Ha]%elem_of_union _];
        [lia | done].
    + done.
Qed.

Lemma alloc_upd_array_trans σ ret σ' :
  alloc_upd_array E σ = (ret, σ') → trans σ σ' [] [].
Proof.
  unfold alloc_upd_array. destruct (load σ PageUpd).
  - intros [= <- <-]. apply trans_refl.
  - destruct (alloc_and_publish _ _ _ _ _ _ _) as [[[r w] c] σ1] eqn:Ha.
    intros [= <- <-]. eapply alloc_and_publish_trans; [|exact Ha]. done.
Qed.

Lemma alloc_ins_array_trans σ ret σ' :
  alloc_ins_array E σ = (ret, σ') → trans σ σ' [] [].
Proof.
  unfold alloc_ins_array. destruct (load σ PageIns).
  - intros [= <- <-]. apply trans_refl.
  - destruct (alloc_and_publish _ _ _ _ _ _ _) as [[[r w] c] σ1] eqn:Ha.
    intros [= <- <-]. eapply alloc_and_publish_trans; [|exact Ha]. done.
Qed.

Lemma alloc_ins_head_trans arr slot σ cbt ret σ' cbt' :
  stack_typed (cbt_ins_stack cbt) →
  alloc_ins_head E (InsArr arr slot) σ cbt = (ret, σ', cbt') →
  trans σ σ' [] [] ∧ stack_typed (cbt_ins_stack cbt').
Proof.
  intros Hty. unfold alloc_ins_head. destruct (load σ (InsArr arr slot)).
  - intros [= <- <- <-]. split; [apply trans_refl | done].
  - destruct (alloc_and_publish _ _ _ _ _ _ _) as [[[r w] c] σ1] eqn:Ha.
    apply alloc_and_publish_trans in Ha; [|done].
    destruct w, c; intros [= <- <- <-]; (split; [done|]); try done.
    apply stack_typed_heads.
Qed.

Lemma update_alloc_inv σ value ret r size σ' :
  __wt_update_alloc (e_sizeof_WT_UPDATE E) (e_WT_UPDATE_DELETED_VALUE E)
    (e_calloc_ret E) σ value = (ret, r, size, σ') →
  (r = None ∧ ret ≠ 0%Z ∧ σ' = σ) ∨
  (∃ upd, r = Some upd ∧ ret = 0%Z ∧ trans σ σ' [upd] []).
Proof.
  unfold __wt_update_alloc.
  destruct (__wt_calloc (e_calloc_ret E) _ _ σ) as [[ret0 r0] σ1] eqn:Hc.
  apply calloc_inv in Hc as [(-> & ? & _ & ->)|(-> & _ & _ & ->)].
  - intros [= <- <- <- <-]. by left.
  - intros [= <- <- <- <-]. right. exists (next_block σ).
    split; [done|]. split; [done|].
    eapply trans_then_nil; [apply trans_alloc|].
    destruct value; by apply trans_local.
Qed.

Lemma row_insert_alloc_inv σ key skipdepth ret r size σ' :
  __wt_row_insert_alloc E σ key skipdepth = (ret, r, size, σ') →
  (r = None ∧ ret ≠ 0%Z ∧ σ' = σ) ∨
  (∃ ins, r = Some ins ∧ ret = 0%Z ∧ trans σ σ' [ins] []).
Proof.
  unfold __wt_row_insert_alloc.
  destruct (__wt_calloc (e_calloc_ret E) _ _ σ) as [[ret0 r0] σ1] eqn:Hc.
  apply calloc_inv in Hc as [(-> & ? & _ & ->)|(-> & _ & _ & ->)].
  - intros [= <- <- <- <-]. by left.
  - intros [= <- <- <- <-]. right. exists (next_block σ).
    split; [done|]. split; [done|].
    eapply trans_then_nil; [apply trans_alloc|]. by apply trans_local.
Qed.

Lemma txn_modify_inv upd σ ret σ' :
  __wt_txn_modify E upd σ = (ret, σ') →
  (ret ≠ 0%Z ∧ σ' = σ) ∨ (ret = 0%Z ∧ trans σ σ' [] [TxnModify upd]).
Proof.
  unfold __wt_txn_modify.
  destruct (e_txn_modify_ret E σ =? 0)%Z eqn:Hr; simpl; intros [= <- <-].
  - right. split; [done|]. by apply trans_local.
  - left. by apply Z.eqb_neq in Hr.
Qed.

End ModifySteps.

Lemma obsolete_check_writes visible racer fuel σ upd r σ' :
  __wt_update_obsolete_check visible racer fuel σ upd = Some (r, σ') →
  σ' = σ ∨ σ' = racer σ ∨ ∃ u, σ' = store (UpdNext u) None (racer σ).
Proof.
  revert upd. induction fuel as [|fuel IH]; intros upd; simpl; [done|].
  destruct upd as [u|]; [|intros [= <- <-]; by left].
  destruct (visible (txnid_of σ u)); [|apply IH].
  unfold obsolete_truncate, WT_ATOMIC_CAS.
  destruct (load σ (UpdNext u)); [|intros [= <- <-]; by left].
  case_decide; intros [= <- <-]; eauto.
Qed.

Lemma obsolete_free_walk_local s d fuel σ upd size size' σ' :
  obsolete_free_walk s d fuel σ upd size = Some (size', σ') →
  mem σ' = mem σ ∧ next_block σ' = next_block σ ∧
  (∀ a, a ∈ live σ' → a ∈ live σ) ∧ txn_log σ' = txn_log σ.
Proof.
  revert σ upd size. induction fuel as [|fuel IH]; intros σ upd size; simpl; [done|].
  destruct upd as [u|]; [|by intros [= <- <-]].
  intros (Hm & Hn & Hl & Hlog)%IH. simpl in *.
  split; [done|]. split; [done|]. split; [|done].
  intros a Ha. apply Hl in Ha. by apply elem_of_difference in Ha as [Ha _].
Qed.

Section ModifyPaths.

Variable E : ext.
Hypothesis Hracers : racers_keep_protocol E.

Lemma obsolete_check_trans fuel σ upd r σ' :
  __wt_update_obsolete_check (e_txn_visible_all E) (e_racer E RaceTruncate)
    fuel σ upd = Some (r, σ') →
  trans σ σ' [] [].
Proof.
  intros [->|[->|(u & ->)]]%obsolete_check_writes.
  - apply trans_refl.
  - by apply trans_racer.
  - eapply trans_nil_nil; [by apply trans_racer | by apply trans_store].
Qed.

Lemma update_serial_trans fuel σ upd_entry old_upd upd ret upd' obsolete σ' :
  is_upd_head upd_entry = true →
  __wt_update_serial E fuel σ upd_entry old_upd upd
  = Some (ret, upd', obsolete, σ') →
  trans σ σ' [] [] ∧ (ret ≠ 0%Z → upd' = Some upd).
Proof.
  intros Hhead. unfold __wt_update_serial, __wt_update_serial_func.
  set (σ0 := e_racer E RaceSerial σ).
  assert (trans σ σ0 [] []) as H0 by (by apply trans_racer).
  destruct (negb _); [intros [= <- <- <- <-]; by split|].
  destruct (negb _); [intros [= <- <- <- <-]; by split|].
  destruct (__wt_update_obsolete_check _ _ _ _ _) as [[r σ3]|] eqn:Hobs; [|done].
  intros [= <- <- <- <-]. split; [|done].
  apply obsolete_check_trans in Hobs.
  eapply trans_nil_nil; [exact H0|].
  eapply trans_nil_nil;
    [apply (trans_store σ0 (UpdNext upd) (load σ0 upd_entry)); done|].
  eapply trans_nil_nil;
    [apply (trans_store _ upd_entry (Some upd)); by destruct upd_entry|].
  eapply trans_nil_nil; [exact Hobs|]. by apply trans_local.
Qed.

Lemma insert_serial_trans σ ins_head stk nxt new_ins skipdepth ret ins' σ' :
  stack_typed stk →
  __wt_insert_serial E σ ins_head stk nxt new_ins skipdepth = (ret, ins', σ') →
  trans σ σ' [] [] ∧ (ret ≠ 0%Z → ins' = Some new_ins).
Proof.
  intros Hty. unfold __wt_insert_serial, __wt_insert_serial_func.
  set (σ0 := e_racer E RaceSerial σ).
  assert (trans σ σ0 [] []) as H0 by (by apply trans_racer).
  destruct (negb _); [intros [= <- <- <-]; by split|].
  destruct (existsb _ _); [intros [= <- <- <-]; by split|].
  intros [= <- <- <-]. split; [|done].
  eapply trans_nil_nil; [exact H0|].
  eapply trans_nil_nil;
    [apply (fold_left_trans (set_new_next stk new_ins) (seq 0 skipdepth))|].
  { intros s i. unfold set_new_next.
    destruct (stack_at stk i); [apply trans_store; done | apply trans_refl]. }
  eapply trans_nil_nil;
    [apply (fold_left_trans (link_pred ins_head stk new_ins) (seq 0 skipdepth))|].
  { intros s i. unfold link_pred.
    destruct (stack_at stk i) as [p|] eqn:Hp; [|apply trans_refl].
    apply (trans_nil_nil _
             (if is_new_tail s ins_head p i
              then store (HeadTail ins_head i) (Some new_ins) s else s)).
    - destruct (is_new_tail s ins_head p i);
        [apply trans_store; done | apply trans_refl].
    - apply trans_store. eapply is_fwd_at_not_published. by apply Hty. }
  by apply trans_local.
Qed.

Lemma obsolete_free_trans fuel σ upd σ' :
  __wt_update_obsolete_free (e_sizeof_WT_UPDATE E) (e_WT_UPDATE_DELETED_VALUE E)
    fuel σ upd = Some σ' →
  trans σ σ' [] [].
Proof.
  unfold __wt_update_obsolete_free.
  destruct (obsolete_free_walk _ _ _ _ _ _) as [[size σ1]|] eqn:Hw; [|done].
  apply obsolete_free_walk_local in Hw as (Hm & Hn & Hl & Hlog).
  intros [= <-]. by destruct (negb _); apply trans_local.
Qed.

Lemma row_modify_err_trans σ0 σ owned evs logged ins upd ret cbt ret' σ' cbt' :
  trans σ0 σ owned evs →
  (∀ a, a ∈ owned → ins = Some a ∨ upd = Some a) →
  row_modify_err logged ins upd ret σ cbt = Some (ret', σ', cbt') →
  ret' = ret ∧
  trans σ0 σ' [] ((if logged then [TxnUnmodify] else []) ++ evs).
Proof.
  intros Ht Hown. unfold row_modify_err. intros [= <- <- <-].
  split; [done|]. eapply trans_free_owned; [|exact Hown].
  destruct logged; [|done].
  eapply (trans_trans _ _ _ owned [] evs [TxnUnmodify]) in Ht.
  - by rewrite app_nil_r in Ht.
  - by apply trans_local.
Qed.

Lemma row_modify_update_trans fuel σ cbt value upd_entry ret σ' cbt' :
  is_upd_head upd_entry = true →
  row_modify_update E fuel σ cbt value upd_entry = Some (ret, σ', cbt') →
  ∃ owned evs, trans σ σ' owned evs ∧ unwound ret owned evs.
Proof.
  intros Hhead. unfold row_modify_update.
  destruct (negb (e_txn_update_check E σ (load σ upd_entry) =? 0)%Z) eqn:Hchk.
  { intros Herr.
    eapply row_modify_err_trans in Herr as [-> Ht]; [|apply trans_refl|by intros ? ?%not_elem_of_nil].
    exists [], []. split; [done|]. intros _. auto. }
  destruct (__wt_update_alloc _ _ _ _ _) as [[[ret1 r] size] σ1] eqn:Ha.
  apply update_alloc_inv in Ha as [(-> & Hret & ->)|(upd & -> & _ & Ha)].
  { intros Herr.
    eapply row_modify_err_trans in Herr as [-> Ht]; [|apply trans_refl|by intros ? ?%not_elem_of_nil].
    exists [], []. split; [done|]. intros _. auto. }
  destruct (__wt_txn_modify E upd σ1) as [ret2 σ2] eqn:Hm.
  apply txn_modify_inv in Hm as [[Hret ->]|[-> Hm]].
  { apply Z.eqb_neq in Hret. rewrite Hret. simpl. intros Herr.
    eapply row_modify_err_trans in Herr as [-> Ht]; [|exact Ha|].
    - exists [], []. split; [done|]. intros _. auto.
    - intros a ->%list_elem_of_singleton. auto. }
  simpl.
  pose proof (trans_trans _ _ _ _ _ _ _ Ha Hm) as H2. simpl in H2.
  destruct (__wt_update_serial E fuel σ2 upd_entry (load σ upd_entry) upd)
    as [[[[ret3 upd'] obsolete] σ3]|] eqn:Hs; [|done].
  apply update_serial_trans in Hs as [Hs Htaken]; [|done].
  pose proof (trans_then_nil _ _ _ _ _ H2 Hs) as H3.
  destruct (negb (ret3 =? 0)%Z) eqn:Hret3.
  { intros Herr.
    eapply row_modify_err_trans in Herr as [-> Ht]; [|exact H3|].
    - exists [], [TxnUnmodify; TxnModify upd]. split; [done|].
      intros _. eauto.
    - intros a ->%list_elem_of_singleton. right. apply Htaken.
      apply negb_true_iff in Hret3. by apply Z.eqb_neq in Hret3. }
  destruct obsolete as [o|].
  - destruct (__wt_update_obsolete_free _ _ _ _ _) as [σ4|] eqn:Hf; [|done].
    apply obsolete_free_trans in Hf.
    intros [= <- <- <-]. exists [upd], [TxnModify upd].
    split; [by eapply trans_then_nil | by intros ?].
  - intros [= <- <- <-]. exists [upd], [TxnModify upd].
    split; [done | by intros ?].
Qed.

Lemma row_modify_insert_trans σ cbt value ins_head ret σ' cbt' :
  stack_typed (cbt_ins_stack cbt) →
  row_modify_insert E σ cbt value ins_head = Some (ret, σ', cbt') →
  ∃ owned evs, trans σ σ' owned evs ∧ unwound ret owned evs.
Proof.
  intros Hty. unfold row_modify_insert.
  destruct (__wt_row_insert_alloc _ _ _ _) as [[[ret1 r] size] σ1] eqn:Hi.
  apply row_insert_alloc_inv in Hi as [(-> & Hret & ->)|(ins & -> & _ & Hi)].
  { intros Herr.
    eapply row_modify_err_trans in Herr as [-> Ht]; [|apply trans_refl|by intros ? ?%not_elem_of_nil].
    exists [], []. split; [done|]. intros _. auto. }
  destruct (__wt_update_alloc _ _ _ _ _) as [[[ret2 r] usize] σ2] eqn:Ha.
  apply update_alloc_inv in Ha as [(-> & Hret & ->)|(upd & -> & _ & Ha)].
  { intros Herr.
    eapply row_modify_err_trans in Herr as [-> Ht]; [|exact Hi|].
    - exists [], []. split; [done|]. intros _. auto.
    - intros a ->%list_elem_of_singleton. auto. }
  pose proof (trans_trans _ _ _ _ _ _ _ Hi Ha) as H2. simpl in H2.
  destruct (__wt_txn_modify E upd σ2) as [ret3 σ3] eqn:Hm.
  apply txn_modify_inv in Hm as [[Hret ->]|[-> Hm]].
  { apply Z.eqb_neq in Hret. rewrite Hret. simpl. intros Herr.
    eapply row_modify_err_trans in Herr as [-> Ht]; [|exact H2|].
    - exists [], []. split; [done|]. intros _. auto.
    - intros a [->|Hin]%elem_of_cons; [auto|].
      apply list_elem_of_singleton in Hin as ->. auto. }
  simpl.
  pose proof (trans_trans _ _ _ _ _ _ _ H2 Hm) as H3. simpl in H3.
  assert (trans σ (store (InsUpd ins) (Some upd) σ3) [ins; upd] [TxnModify upd])
    as H4 by (eapply trans_then_nil; [exact H3 | by apply trans_store]).
  destruct (__wt_insert_serial _ _ _ _ _ _ _) as [[ret4 ins'] σ5] eqn:Hs.
  apply insert_serial_trans in Hs as [Hs Htaken]; [|done].
  pose proof (trans_then_nil _ _ _ _ _ H4 Hs) as H5.
  destruct (negb (ret4 =? 0)%Z) eqn:Hret4.
  - intros Herr.
    eapply row_modify_err_trans in Herr as [-> Ht]; [|exact H5|].
    + exists [], [TxnUnmodify; TxnModify upd]. split; [done|].
      intros _. eauto.
    + intros a [->|Hin]%elem_of_cons.
      * left. apply Htaken.
        apply negb_true_iff in Hret4. by apply Z.eqb_neq in Hret4.
      * apply list_elem_of_singleton in Hin as ->. auto.
  - intros [= <- <- <-]. exists [ins; upd], [TxnModify upd].
    split; [done | by intros ?].
Qed.

Lemma row_modify_trans fuel σ cbt is_remove ret σ' cbt' :
  stack_typed (cbt_ins_stack cbt) →
  __wt_row_modify E fuel σ cbt is_remove = Some (ret, σ', cbt') →
  ∃ owned evs, trans σ σ' owned evs ∧ unwound ret owned evs.
Proof.
  intros Hty. unfold __wt_row_modify.
  destruct (cbt_compare cbt =? 0)%Z.
  - destruct (cbt_ins cbt) as [ins|]; [by apply row_modify_update_trans|].
    destruct (alloc_upd_array E σ) as [ret1 σ1] eqn:Ha.
    apply alloc_upd_array_trans in Ha; [|done].
    destruct (negb (ret1 =? 0)%Z).
    { intros Herr.
      eapply row_modify_err_trans in Herr as [-> Ht]; [|exact Ha|by intros ? ?%not_elem_of_nil].
      exists [], []. split; [done|]. intros _. auto. }
    destruct (load σ1 PageUpd) as [arr|]; [|done].
    intros (owned & evs & Ht & Hu)%row_modify_update_trans; [|done].
    exists owned, evs. split; [by eapply trans_nil_nil | done].
  - destruct (alloc_ins_array E σ) as [ret1 σ1] eqn:Ha.
    apply alloc_ins_array_trans in Ha; [|done].
    destruct (negb (ret1 =? 0)%Z).
    { intros Herr.
      eapply row_modify_err_trans in Herr as [-> Ht]; [|exact Ha|by intros ? ?%not_elem_of_nil].
      exists [], []. split; [done|]. intros _. auto. }
    destruct (load σ1 PageIns) as [arr|]; [|done].
    destruct (alloc_ins_head _ _ _ _) as [[ret2 σ2] cbt2] eqn:Hh.
    apply alloc_ins_head_trans in Hh as [Hh Hty2]; [|done..].
    pose proof (trans_nil_nil _ _ _ _ _ Ha Hh) as H2.
    destruct (negb (ret2 =? 0)%Z).
    { intros Herr.
      eapply row_modify_err_trans in Herr as [-> Ht]; [|exact H2|by intros ? ?%not_elem_of_nil].
      exists [], []. split; [done|]. intros _. auto. }
    destruct (load σ2 _) as [ins_head|]; [|done].
    intros (owned & evs & Ht & Hu)%row_modify_insert_trans; [|done].
    exists owned, evs. split; [by eapply trans_nil_nil | done].
Qed.

End ModifyPaths.

(** *** Lazy allocation of the arrays and heads *)

Lemma alloc_and_publish_once E pt l number elem_size bytes σ :
  load σ l = None →
  publishes_once E pt l (number * elem_size) bytes σ
    (alloc_and_publish E pt l number elem_size bytes σ).1.1.1
    (alloc_and_publish E pt l number elem_size bytes σ).2.
Proof.
  intros Hnull.
  unfold publishes_once, alloc_and_publish, __wt_calloc_def, __wt_calloc.
  rewrite Hnull. destruct (e_calloc_ret E σ =? 0)%Z; simpl; [|done].
  unfold WT_ATOMIC_CAS.
  set (σ2 := e_racer E pt _).
  destruct (load σ2 l) as [b|] eqn:Hl.
  - rewrite decide_False by done. by repeat split.
  - rewrite decide_True by done. repeat split; try done. apply load_store_eq.
Qed.



(** The update of [ex_cbt 0] on an empty page, raced by a thread that
    publishes the array at 77 first: the candidate array at 1 is freed, the
    byte count is unchanged and the update lands in the racer's array. *)
Example update_array_race_lost :
  match __wt_row_modify ex_ext_raced 5 empty_state (ex_cbt 0) false with
  | Some (ret, σ', _) =>
      ret = 0%Z ∧ load σ' PageUpd = Some 77%positive ∧
      (1%positive ∉ live σ') ∧ memory_footprint σ' = 0%Z ∧
      load σ' (UpdArr 77 1) = Some 2%positive
  | None => False
  end.
Proof. vm_compute. repeat split. intros H. discriminate H. Qed.

(** *** Failure of the entry point *)

(** C6: when a call of the entry point fails, a modification it
    registered with the transaction manager has been taken back by
    [__wt_txn_unmodify] before the return, and every block the call
    allocated is freed unless it was published as an array or a skip-list
    head: an insert or update node that was not linked is freed. *)
Theorem row_modify_failure_unwinds E fuel σ cbt is_remove ret σ' cbt' :
  racers_keep_protocol E →
  stack_typed (cbt_ins_stack cbt) →
  __wt_row_modify E fuel σ cbt is_remove = Some (ret, σ', cbt') →
  ret ≠ 0%Z →
  (txn_log σ' = txn_log σ ∨
   ∃ u, txn_log σ' = TxnUnmodify :: TxnModify u :: txn_log σ) ∧
  (∀ a, (next_block σ ≤ a)%positive → (a < next_block σ')%positive →
        a ∈ live σ' → published σ' a).
Proof.
  intros Hracers Hty Hrun Hret.
  apply row_modify_trans in Hrun as (owned & evs & Ht & Hu); [|done..].
  destruct (Hu Hret) as [-> Hevs]. split.
  - rewrite (tr_log _ _ _ _ Ht).
    destruct Hevs as [->|[u ->]]; [by left | right; by exists u].
  - intros a Hlo Hhi Ha.
    destruct (tr_new _ _ _ _ Ht a Hlo Hhi Ha) as [Hin|Hp]; [|done].
    by apply not_elem_of_nil in Hin.
Qed.

(** An insert on an empty page whose write generation has wrapped: the
    array and the head are published, the nodes at 3 and 4 are allocated
    and registered, the serialization step restarts, and the registration
    and both nodes are gone at the return. *)
(** Scenario S1 of the spec: on an empty page the insert of a key behind
slot 1 publishes the array at 1, the head at 2 and the node at 3; a second
writer that searched afterwards holds node 3's forward pointers and links
its node at 5 behind it without a restart. *)
Example two_inserts_in_order :
  match __wt_row_modify ex_ext 5 empty_state (ex_cbt 1) false with
  | Some (ret1, σ1, _) =>
      match __wt_row_modify ex_ext 5 σ1 ex_cbt_behind false with
      | Some (ret2, σ2, _) =>
          ret1 = 0%Z ∧ ret2 = 0%Z ∧
          load σ2 (HeadHead 2 0) = Some 3%positive ∧
          load σ2 (InsNext 3 0) = Some 5%positive ∧
          load σ2 (InsNext 5 0) = None ∧
          load σ2 (HeadTail 2 0) = Some 5%positive ∧
          load σ2 (HeadTail 2 1) = Some 5%positive
      | None => False
      end
  | None => False
  end.
Proof. vm_compute. repeat split. Qed.

(** When [__wt_txn_modify] itself fails nothing was registered: its error
is returned, [__wt_txn_unmodify] is not called, and both nodes are freed. *)
Example txn_modify_failure_registers_nothing :
  match __wt_row_modify ex_ext_no_txn 5 empty_state (ex_cbt 1) false with
  | Some (ret, σ', _) =>
      ret = 12%Z ∧ txn_log σ' = [] ∧
      (3%positive ∉ live σ') ∧ (4%positive ∉ live σ')
  | None => False
  end.
Proof. vm_compute. repeat split; intros H; discriminate H. Qed.

Lemma row_modify_failure_unwinds_witness :
  match __wt_row_modify ex_ext_wrapped 5 empty_state (ex_cbt 1) false with
  | Some (ret, σ', _) =>
      ret = (-31805)%Z ∧
      (txn_log σ' = txn_log empty_state ∨
       ∃ u, txn_log σ' = TxnUnmodify :: TxnModify u :: txn_log empty_state) ∧
      (∀ a, (next_block empty_state ≤ a)%positive →
            (a < next_block σ')%positive → a ∈ live σ' → published σ' a)
  | None => False
  end.
Proof.
  pose proof (row_modify_failure_unwinds ex_ext_wrapped 5 empty_state
                (ex_cbt 1) false) as H.
  destruct (__wt_row_modify ex_ext_wrapped 5 empty_state (ex_cbt 1) false)
    as [[[ret σ'] cbt']|] eqn:Hrun.
  - assert (ret = (-31805)%Z) as Hret
      by (vm_compute in Hrun; congruence).
    split; [exact Hret|].
    apply (H ret σ' cbt').
    + split; intros; try reflexivity. intros l a _ Hl. exact Hl.
    + intros [|[|[|i]]] p; simpl; discriminate.
    + reflexivity.
    + rewrite Hret. discriminate.
  - vm_compute in Hrun. discriminate Hrun.
Defined.

(** *** The lists of a skip list under an insert *)

Lemma skip_seg_app σ i p l1 l2 q :
  skip_seg σ i p (l1 ++ l2) q ↔ ∃ m, skip_seg σ i p l1 m ∧ skip_seg σ i m l2 q.
Proof.
  revert p. induction l1 as [|u l1 IH]; intros p; simpl.
  - split; [intros H; by exists p | by intros (m & -> & H)].
  - rewrite IH. split.
    + intros (-> & m & H1 & H2). by exists m.
    + intros (m & (-> & H1) & H2). split; [done | by exists m].
Qed.

Lemma skip_seg_frame σ σ' i p l q :
  (∀ n, n ∈ l → load σ' (InsNext n i) = load σ (InsNext n i)) →
  skip_seg σ i p l q → skip_seg σ' i p l q.
Proof.
  revert p. induction l as [|u l IH]; intros p Hf; simpl; [done|].
  intros [-> H]. split; [done|].
  rewrite Hf; [|by left]. apply IH; [|done].
  intros v Hv. apply Hf. by right.
Qed.

Lemma skip_seg_det σ i p l1 l2 :
  skip_seg σ i p l1 None → skip_seg σ i p l2 None → l1 = l2.
Proof.
  revert p l2.
  induction l1 as [|u l1 IH]; intros p [|v l2]; simpl; try done.
  - by intros -> [? _].
  - by intros [-> _] ?.
  - intros [-> H1] [[= <-] H2]. f_equal. by eapply IH.
Qed.

(** A NULL-terminated level does not meet a node twice. *)
Lemma skip_seg_NoDup σ i p l : skip_seg σ i p l None → NoDup l.
Proof.
  revert p. induction l as [|u l IH]; intros p; [constructor|].
  intros [-> H]. constructor; [|by eapply IH].
  intros Hin. apply list_elem_of_split in Hin as (a & b & ->).
  pose proof H as H'. apply skip_seg_app in H' as (m & _ & Hb).
  pose proof Hb as [-> Hb'].
  pose proof (skip_seg_det _ _ _ _ _ H Hb') as Heq.
  apply (f_equal length) in Heq. rewrite length_app in Heq. simpl in Heq. lia.
Qed.

Lemma last_cons_cases {A} (x : A) l :
  list.last (x :: l) = Some (default x (list.last l)).
Proof. destruct l as [|y l]; [done|]. simpl. by destruct (list.last (y :: l)) eqn:E; [|by apply last_None in E]. Qed.

Lemma last_elem_of {A} (l : list A) x : list.last l = Some x → x ∈ l.
Proof.
  intros H. apply last_Some in H as [l' ->]. apply elem_of_app. right. by left.
Qed.

Lemma publish_prefix_loads h stk new d k σ :
  k ≤ d →
  (∀ i p, i < d → stack_at stk i = Some p → is_fwd_at i p = true) →
  (∀ i, i < d → stack_at stk i ≠ Some (InsNext new i)) →
  (∀ l, (∀ i, i < d → l ≠ InsNext new i) →
        (∀ i, i < k → l ≠ HeadTail h i ∧ stack_at stk i ≠ Some l) →
        load (publish_prefix h stk new d k σ) l = load σ l) ∧
  (∀ i p, i < d → stack_at stk i = Some p →
        load (publish_prefix h stk new d k σ) (InsNext new i) = load σ p) ∧
  (∀ i p, i < k → stack_at stk i = Some p →
        load (publish_prefix h stk new d k σ) p = Some new ∧
        load (publish_prefix h stk new d k σ) (HeadTail h i)
        = if is_new_tail σ h p i then Some new else load σ (HeadTail h i)).
Proof.
  intros Hk Hfwd Hnew. unfold publish_prefix.
  assert (∀ i p j, i < d → stack_at stk i = Some p → p ≠ InsNext new j)
    as Hfresh.
  { intros i p j Hi Hp ->. specialize (Hfwd _ _ Hi Hp). simpl in Hfwd.
    apply bool_decide_eq_true in Hfwd as ->. by apply (Hnew i). }
  destruct (set_new_next_fold stk new d σ Hfresh) as [H1f H1n].
  set (σ1 := fold_left (set_new_next stk new) (seq 0 d) σ) in *.
  destruct (link_pred_fold h stk new k σ1) as [H2f H2l].
  { intros i p Hi. apply Hfwd. lia. }
  set (σ2 := fold_left (link_pred h stk new) (seq 0 k) σ1) in *.
  split; [|split].
  - intros l Hl1 Hl2. rewrite H2f by done. by apply H1f.
  - intros i p Hi Hp. rewrite H2f; [by apply H1n|].
    intros j Hj. split; [done|]. intros Hs.
    eapply Hfresh in Hs; [done | lia].
  - intros i p Hi Hp. destruct (H2l i p Hi Hp) as [Hp2 Ht2].
    split; [done|]. rewrite Ht2.
    assert (load σ1 (HeadTail h i) = load σ (HeadTail h i)) as Htl
      by (by apply H1f).
    unfold is_new_tail. by rewrite Htl.
Qed.

(** Re-pointing the forward pointer that leaves [l1] at a node whose own
    forward pointer holds what was there splices the node in. *)
Lemma skip_seg_splice σ σ' i new f l1 l2 :
  skip_seg σ i (load σ f) (l1 ++ l2) None →
  is_fwd_at i f = true →
  (∀ n, n ∈ l1 ++ l2 → f ≠ InsNext n i) →
  f ≠ InsNext new i →
  new ∉ l1 ++ l2 →
  load σ' (default f ((λ n, InsNext n i) <$> list.last l1)) = Some new →
  load σ' (InsNext new i)
  = load σ (default f ((λ n, InsNext n i) <$> list.last l1)) →
  (∀ l, is_fwd_at i l = true →
        l ≠ default f ((λ n, InsNext n i) <$> list.last l1) →
        l ≠ InsNext new i → load σ' l = load σ l) →
  skip_seg σ' i (load σ' f) (l1 ++ new :: l2) None.
Proof.
  revert f. induction l1 as [|n l1 IH]; intros f Hseg Hf Hnf Hfnew Hnin Hp Hn Hfr.
  - simpl in *. rewrite Hp. split; [done|]. rewrite Hn.
    eapply skip_seg_frame; [|exact Hseg].
    intros m Hm. apply Hfr.
    + simpl. by apply bool_decide_eq_true.
    + intros Heq. by apply (Hnf m).
    + intros [= ->]. done.
  - pose proof Hseg as Hnd. simpl in Hseg. destruct Hseg as [Hfn Hseg].
    rewrite Hfn in Hnd.
    apply (skip_seg_NoDup σ i (Some n) (n :: l1 ++ l2)) in Hnd.
    apply list.NoDup_cons in Hnd as [Hn1 Hnd].
    rewrite last_cons_cases in Hp, Hn, Hfr. simpl in Hp, Hn, Hfr.
    assert (default (InsNext n i) ((λ n0, InsNext n0 i) <$> list.last l1)
            = InsNext (default n (list.last l1)) i) as Hdef
      by (by destruct (list.last l1)).
    assert (default n (list.last l1) ∈ n :: l1) as Hin.
    { destruct (list.last l1) as [m|] eqn:E; simpl; [|by left].
      right. by apply last_elem_of. }
    assert (load σ' f = load σ f) as Hff.
    { apply Hfr; [done| |done]. intros ->.
      apply (Hnf (default n (list.last l1))); [|done].
      change ((n :: l1) ++ l2) with (n :: l1 ++ l2).
      apply elem_of_cons in Hin as [->|Hin]; [by left|].
      right. apply elem_of_app. by left. }
    simpl. rewrite Hff, Hfn. split; [done|].
    apply IH.
    + done.
    + simpl. by apply bool_decide_eq_true.
    + intros m Hm [= <-]. done.
    + intros [= ->]. apply Hnin. by left.
    + intros Hnew. apply Hnin. by right.
    + by rewrite Hdef.
    + by rewrite Hdef.
    + intros l Hl1 Hl2 Hl3. apply Hfr; [done| |done]. by rewrite <- Hdef.
Qed.

Lemma pred_field_eq h i l :
  pred_field h i l = default (HeadHead h i) ((λ n, InsNext n i) <$> list.last l).
Proof. unfold pred_field. by destruct (list.last l). Qed.

Lemma skip_seg_end σ i f l m :
  skip_seg σ i (load σ f) l m →
  m = load σ (default f ((λ n, InsNext n i) <$> list.last l)).
Proof.
  revert f. induction l as [|n l IH]; intros f; simpl; [done|].
  intros [_ H]. apply IH in H. rewrite last_cons_cases. simpl.
  by destruct (list.last l).
Qed.

Lemma publish_prefix_level h stk new d k σ i l1 l2 :
  k ≤ d →
  (∀ i p, i < d → stack_at stk i = Some p → is_fwd_at i p = true) →
  (∀ i, i < d → stack_at stk i ≠ Some (InsNext new i)) →
  i < d →
  stack_at stk i = Some (pred_field h i l1) →
  level_list σ h i (l1 ++ l2) → new ∉ l1 ++ l2 →
  level_list (publish_prefix h stk new d k σ) h i
    (if decide (i < k) then l1 ++ new :: l2 else l1 ++ l2) ∧
  skip_seg (publish_prefix h stk new d k σ) i
    (load (publish_prefix h stk new d k σ) (InsNext new i)) l2 None ∧
  (level_tail σ h i (l1 ++ l2) →
   level_tail (publish_prefix h stk new d k σ) h i
     (if decide (i < k) then l1 ++ new :: l2 else l1 ++ l2)).
Proof.
  intros Hk Hfwd Hnew Hi Hp Hlist Hnin.
  destruct (publish_prefix_loads h stk new d k σ Hk Hfwd Hnew)
    as (HA & HB & HC).
  set (σ' := publish_prefix h stk new d k σ) in *.
  set (p := pred_field h i l1) in *.
  pose proof (skip_seg_NoDup _ _ _ _ Hlist) as Hnd.
  assert (is_fwd_at i p = true) as Hfp by (by apply Hfwd).
  (* forward pointers of level [i] other than the two written *)
  assert (∀ l, is_fwd_at i l = true → (i < k → l ≠ p) → l ≠ InsNext new i →
               load σ' l = load σ l) as Hframe.
  { intros l Hl Hlp Hln. apply HA.
    - intros j Hj ->. simpl in Hl. apply bool_decide_eq_true in Hl as ->. done.
    - intros j Hj. split; [by intros ->|]. intros Hs.
      assert (j = i) as ->.
      { apply Hfwd in Hs; [|lia]. apply is_fwd_at_level in Hs, Hl. congruence. }
      rewrite Hp in Hs. injection Hs as ->. by apply Hlp. }
  assert (∀ n, n ∈ l2 → InsNext n i ≠ p) as Hl2p.
  { intros n Hn Heq. unfold p, pred_field in Heq.
    destruct (list.last l1) as [m|] eqn:Hm; [|done]. injection Heq as ->.
    apply list.NoDup_app in Hnd as (_ & Hd & _).
    by apply (Hd m); [apply last_elem_of|]. }
  pose proof Hlist as Hsplit. apply skip_seg_app in Hsplit as (m & H1 & H2).
  apply skip_seg_end in H1. rewrite <- pred_field_eq in H1. fold p in H1.
  subst m.
  assert (skip_seg σ' i (load σ' (InsNext new i)) l2 None) as Hthird.
  { rewrite (HB i p Hi Hp). eapply skip_seg_frame; [|exact H2].
    intros n Hn. apply Hframe.
    - simpl. by apply bool_decide_eq_true.
    - intros _. by apply Hl2p.
    - intros [= ->]. apply Hnin, elem_of_app. by right. }
  case_decide as Hik.
  - destruct (HC i p Hik Hp) as [HCp HCt].
    split; [|split; [done|intros Htail]].
    + apply (skip_seg_splice σ σ' i new (HeadHead h i) l1 l2).
      * exact Hlist.
      * simpl. by apply bool_decide_eq_true.
      * done.
      * done.
      * done.
      * by rewrite <- pred_field_eq.
      * rewrite <- pred_field_eq. by apply HB.
      * rewrite <- pred_field_eq. intros l Hl1 Hl2 Hl3. by apply Hframe.
    + unfold level_tail in *. rewrite HCt, Htail.
      rewrite !last_app. simpl.
      destruct l2 as [|n l2].
      * rewrite app_nil_r in *. simpl.
        assert (is_new_tail σ h p i = true) as ->; [|done].
        apply is_new_tail_spec. rewrite Htail. unfold p, pred_field.
        destruct (list.last l1) as [t|]; [right; by exists t | by left].
      * rewrite last_cons_cases. simpl.
        assert (is_new_tail σ h p i = false) as ->.
        { unfold is_new_tail. rewrite Htail, last_app, last_cons_cases. simpl.
          apply bool_decide_eq_false. intros Heq.
          apply (Hl2p (default n (list.last l2))); [|done].
          destruct (list.last l2) as [t|] eqn:Ht; simpl; [|by left].
          right. by apply last_elem_of. }
        by rewrite last_cons_cases.
  - split; [|split; [done|intros Htail]].
    + unfold level_list. rewrite Hframe; [| |lia|done].
      * eapply skip_seg_frame; [|exact Hlist].
        intros n Hn. apply Hframe; [|lia|].
        -- simpl. by apply bool_decide_eq_true.
        -- by intros [= ->].
      * simpl. by apply bool_decide_eq_true.
    + unfold level_tail in *. rewrite <- Htail. apply HA; [done|].
      intros j Hj. split; [intros [=]; lia|].
      intros Hs. by apply Hfwd in Hs; [|lia].
Qed.

Lemma level_list_mem σ σ' h i l :
  mem σ' = mem σ → level_list σ h i l → level_list σ' h i l.
Proof.
  intros Hm. unfold level_list, load. rewrite Hm.
  apply skip_seg_frame. intros n _. unfold load. by rewrite Hm.
Qed.

Section InsertLevels.

Variable WT_RESTART : Z.
Variable write_gen_wrapped : state → bool.

(** X1: a successful insert keeps every level of the skip list a list with
    its tail: on each level below the new node's depth, where the cursor's
    predecessor pointer leaves the nodes [l1] of the level's list [l1 ++
    l2], the list becomes [l1 ++ new :: l2] and [tail] is its last node
    again; the levels from the depth on keep their lists. *)
Theorem insert_serial_keeps_level_lists σ h stk nxt new d r σ' i l1 l2 :
  __wt_insert_serial_func WT_RESTART write_gen_wrapped σ h stk nxt new d
  = (r, true, σ') →
  (∀ i p, i < d → stack_at stk i = Some p → is_fwd_at i p = true) →
  (∀ i, i < d → stack_at stk i ≠ Some (InsNext new i)) →
  i < d →
  stack_at stk i = Some (pred_field h i l1) →
  level_list σ h i (l1 ++ l2) → new ∉ l1 ++ l2 →
  level_tail σ h i (l1 ++ l2) →
  level_list σ' h i (l1 ++ new :: l2) ∧
  level_tail σ' h i (l1 ++ new :: l2) ∧
  (∀ j l, d ≤ j → level_list σ h j l → level_tail σ h j l →
          level_list σ' h j l ∧ level_tail σ' h j l).
Proof.
  intros Hs Hfwd Hnew Hi Hp Hlist Hnin Htail.
  apply insert_serial_taken in Hs as (_ & _ & ->).
  change (fold_left (link_pred h stk new) (seq 0 d)
            (fold_left (set_new_next stk new) (seq 0 d) σ))
    with (publish_prefix h stk new d d σ).
  destruct (publish_prefix_level h stk new d d σ i l1 l2)
    as (Hl & _ & Ht); [done..|].
  rewrite decide_True in Hl, Ht by done.
  split; [by apply (level_list_mem (publish_prefix h stk new d d σ))|].
  split; [by apply Ht|].
  intros j l Hj Hjl Hjt.
  destruct (publish_prefix_loads h stk new d d σ) as (HA & _ & _); [done..|].
  assert (∀ f, loc_level f = Some j →
            load (set_page_modified true (publish_prefix h stk new d d σ)) f
            = load σ f) as Hframe.
  { intros f Hf. change (load (publish_prefix h stk new d d σ) f = load σ f).
    apply HA.
    - intros k Hk ->. simpl in Hf. injection Hf as ->. lia.
    - intros k Hk. split.
      + intros ->. simpl in Hf. injection Hf as ->. lia.
      + intros Hsk. apply Hfwd, is_fwd_at_level in Hsk; [|done].
        rewrite Hsk in Hf. injection Hf as ->. lia. }
  split.
  - unfold level_list. rewrite Hframe by done.
    eapply skip_seg_frame; [|exact Hjl]. intros n _. by apply Hframe.
  - unfold level_tail. by rewrite Hframe.
Qed.

(** X2: the publish never shows a reader a broken level. After the first
    loop and after each round of the second, a walk of a level from the head
    meets the old list, or the old list with the new node in its place once
    the round of that level has run; and from the first loop on the new
    node's forward pointer leads to the rest of the list. *)
Theorem insert_publish_never_inconsistent σ h stk nxt new d r σ' k i l1 l2 :
  __wt_insert_serial_func WT_RESTART write_gen_wrapped σ h stk nxt new d
  = (r, true, σ') →
  (∀ i p, i < d → stack_at stk i = Some p → is_fwd_at i p = true) →
  (∀ i, i < d → stack_at stk i ≠ Some (InsNext new i)) →
  k ≤ d → i < d →
  stack_at stk i = Some (pred_field h i l1) →
  level_list σ h i (l1 ++ l2) → new ∉ l1 ++ l2 →
  σ' = set_page_modified true (publish_prefix h stk new d d σ) ∧
  level_list (publish_prefix h stk new d k σ) h i
    (if decide (i < k) then l1 ++ new :: l2 else l1 ++ l2) ∧
  skip_seg (publish_prefix h stk new d k σ) i
    (load (publish_prefix h stk new d k σ) (InsNext new i)) l2 None.
Proof.
  intros Hs Hfwd Hnew Hk Hi Hp Hlist Hnin.
  apply insert_serial_taken in Hs as (_ & _ & ->).
  split; [done|].
  destruct (publish_prefix_level h stk new d k σ i l1 l2)
    as (Hl & Hn & _); done.
Qed.

End InsertLevels.

Lemma insert_serial_keeps_level_lists_witness :
  let σ' := (__wt_insert_serial_func (-31805) (λ _, false) ex_one_node 1
               [Some (InsNext 2 0); Some (HeadHead 1 1)] [None; None] 3 2).2 in
  level_list σ' 1 0 [2%positive; 3%positive] ∧
  level_tail σ' 1 0 [2%positive; 3%positive].
Proof.
  destruct (insert_serial_keeps_level_lists (-31805) (λ _, false) ex_one_node 1
              [Some (InsNext 2 0); Some (HeadHead 1 1)] [None; None] 3 2 0%Z
              (__wt_insert_serial_func (-31805) (λ _, false) ex_one_node 1
                 [Some (InsNext 2 0); Some (HeadHead 1 1)] [None; None] 3 2).2
              0 [2%positive] []) as (H1 & H2 & _).
  - vm_compute. reflexivity.
  - intros [|[|i]] p Hi; simpl; intros [= <-]; try reflexivity; lia.
  - intros [|[|i]] Hi; simpl; try discriminate; lia.
  - lia.
  - reflexivity.
  - vm_compute. auto.
  - intros Hin. apply list_elem_of_In in Hin. simpl in Hin.
    destruct Hin as [H|[]]; discriminate H.
  - reflexivity.
  - split; [exact H1 | exact H2].
Defined.

Lemma insert_publish_never_inconsistent_witness :
  level_list
    (publish_prefix 1 [Some (InsNext 2 0); Some (HeadHead 1 1)] 3 2 1 ex_one_node)
    1 1 [] ∧
  level_list
    (publish_prefix 1 [Some (InsNext 2 0); Some (HeadHead 1 1)] 3 2 1 ex_one_node)
    1 0 [2%positive; 3%positive].
Proof.
  split.
  - destruct (insert_publish_never_inconsistent (-31805) (λ _, false) ex_one_node 1
                [Some (InsNext 2 0); Some (HeadHead 1 1)] [None; None] 3 2 0%Z
                (__wt_insert_serial_func (-31805) (λ _, false) ex_one_node 1
                   [Some (InsNext 2 0); Some (HeadHead 1 1)] [None; None] 3 2).2
                1 1 [] []) as (_ & H & _).
    + vm_compute. reflexivity.
    + intros [|[|i]] p Hi; simpl; intros [= <-]; try reflexivity; lia.
    + intros [|[|i]] Hi; simpl; try discriminate; lia.
    + lia.
    + lia.
    + reflexivity.
    + vm_compute. auto.
    + apply not_elem_of_nil.
    + exact H.
  - vm_compute. auto.
Defined.

(** *** Cutting and freeing without interference *)

Lemma same_payloads_refl σ : same_payloads σ σ.
Proof. by repeat split. Qed.

Lemma same_payloads_trans σ1 σ2 σ3 :
  same_payloads σ1 σ2 → same_payloads σ2 σ3 → same_payloads σ1 σ3.
Proof.
  intros (?&?&?&?&?&?&?) (?&?&?&?&?&?&?). repeat split; congruence.
Qed.

Lemma obsolete_keep_cut E σ l : obsolete_keep E σ l ++ obsolete_cut E σ l = l.
Proof.
  induction l as [|u l IH]; [done|]. simpl.
  destruct (e_txn_visible_all E (txnid_of σ u)); simpl; [done | by rewrite IH].
Qed.

Lemma obsolete_cut_elem_of E σ l a : a ∈ obsolete_cut E σ l → a ∈ l.
Proof.
  intros H. rewrite <- (obsolete_keep_cut E σ l). apply elem_of_app. by right.
Qed.

Lemma obsolete_keep_ext E σ σ' l :
  upd_txnid σ' = upd_txnid σ → obsolete_keep E σ' l = obsolete_keep E σ l.
Proof.
  intros H. induction l as [|u l IH]; [done|]. simpl.
  unfold txnid_of. rewrite H, IH. done.
Qed.

Lemma obsolete_cut_ext E σ σ' l :
  upd_txnid σ' = upd_txnid σ → obsolete_cut E σ' l = obsolete_cut E σ l.
Proof.
  intros H. induction l as [|u l IH]; [done|]. simpl.
  unfold txnid_of. rewrite H, IH. done.
Qed.

(** Without interference the collector leaves the kept part linked from
    where it started and hands back the cut part, having written at most
    the [next] field of one node of the list. *)
Lemma obsolete_check_quiet E σ p l fuel :
  quiet E → chain σ p l → length l < fuel →
  ∃ σ',
    __wt_update_obsolete_check (e_txn_visible_all E) (e_racer E RaceTruncate)
      fuel σ p
    = Some (list.head (obsolete_cut E σ l), σ') ∧
    chain σ' p (obsolete_keep E σ l) ∧
    chain σ' (list.head (obsolete_cut E σ l)) (obsolete_cut E σ l) ∧
    (σ' = σ ∨ ∃ u, u ∈ l ∧ σ' = store (UpdNext u) None σ).
Proof.
  intros Hq. revert p fuel.
  induction l as [|u l IH]; intros p fuel Hc Hf.
  - unfold chain in Hc. simpl in Hc. subst p.
    destruct fuel as [|fuel]; [simpl in Hf; lia|].
    exists σ. simpl. by repeat split; auto.
  - pose proof Hc as Hc0. destruct Hc as [-> Hc].
    destruct fuel as [|fuel]; [simpl in Hf; lia|]. simpl in Hf.
    assert (u ∉ l) as Hul by (by apply (chain_not_behind σ (Some u) [] u l)).
    simpl. destruct (e_txn_visible_all E (txnid_of σ u)) eqn:Hv.
    + unfold obsolete_truncate. destruct l as [|n l].
      * simpl in Hc. rewrite Hc. exists σ. simpl. by repeat split; auto.
      * pose proof Hc as [Hn Hc']. rewrite Hn, (Hq RaceTruncate σ).
        unfold WT_ATOMIC_CAS. rewrite decide_True by done.
        exists (store (UpdNext u) None σ). simpl.
        split; [done|]. split; [|split].
        -- split; [done|]. apply load_store_eq.
        -- eapply lseg_frame; [|split; [done | exact Hc']].
           intros v Hv'. apply load_store_ne. intros [= ->]. done.
        -- right. exists u. split; [by left | done].
    + destruct (IH (load σ (UpdNext u)) fuel) as (σ' & Hchk & Hk & Hcut & Heff);
        [done | lia |].
      exists σ'. split; [done|]. split; [|split; [done|]].
      * split; [done|].
        destruct Heff as [->|(v & Hv' & ->)]; [done|].
        rewrite load_store_ne by (intros [= ->]; done).
        eapply lseg_frame; [|exact Hk]. intros w Hw. done.
      * destruct Heff as [->|(v & Hv' & ->)]; [by left|].
        right. exists v. split; [by right | done].
Qed.

Lemma obsolete_free_walk_shape s d fuel σ upd size size' σ' :
  obsolete_free_walk s d fuel σ upd size = Some (size', σ') →
  ∃ L, σ' = set_live (λ _, L) σ.
Proof.
  revert σ upd size. induction fuel as [|fuel IH]; intros σ upd size; simpl; [done|].
  destruct upd as [u|].
  - intros (L & ->)%IH. by exists L.
  - intros [= <- <-]. exists (live σ). by destruct σ.
Qed.

Lemma list_footprint_ext s d σ σ' l :
  upd_size σ' = upd_size σ → list_footprint s d σ' l = list_footprint s d σ l.
Proof.
  intros H. induction l as [|u l IH]; [done|]. simpl. rewrite IH.
  unfold update_footprint, WT_UPDATE_DELETED_ISSET, size_of. by rewrite H.
Qed.

(** Cutting and freeing, without interference. *)
Lemma obsolete_discard_quiet E σ p l fuel :
  quiet E → chain σ p l → length l < fuel →
  (0 ≤ e_sizeof_WT_UPDATE E)%Z →
  (∀ u, u ∈ obsolete_cut E σ l → 0 ≤ size_of σ u)%Z →
  (list_footprint (e_sizeof_WT_UPDATE E) (e_WT_UPDATE_DELETED_VALUE E) σ
     (obsolete_cut E σ l) < 2 ^ 64)%Z →
  ∃ σ',
    obsolete_discard E fuel σ p = Some σ' ∧
    chain σ' p (obsolete_keep E σ l) ∧
    (∀ a, a ∈ live σ' ↔ a ∈ live σ ∧ a ∉ obsolete_cut E σ l) ∧
    memory_footprint σ'
    = (memory_footprint σ
       - list_footprint (e_sizeof_WT_UPDATE E) (e_WT_UPDATE_DELETED_VALUE E) σ
           (obsolete_cut E σ l))%Z ∧
    (∀ f, (∀ u, u ∈ l → f ≠ UpdNext u) → load σ' f = load σ f) ∧
    same_payloads σ σ'.
Proof.
  intros Hq Hc Hf Hs Hsz Hmax.
  destruct (obsolete_check_quiet E σ p l fuel Hq Hc Hf)
    as (σ1 & Hchk & Hk & Hcut & Heff).
  unfold obsolete_discard. rewrite Hchk.
  assert (same_payloads σ σ1) as Hp1.
  { destruct Heff as [->|(u & _ & ->)]; by repeat split. }
  assert (live σ1 = live σ ∧ memory_footprint σ1 = memory_footprint σ) as [Hl1 Hm1].
  { destruct Heff as [->|(u & _ & ->)]; by split. }
  assert (∀ f, (∀ u, u ∈ l → f ≠ UpdNext u) → load σ1 f = load σ f) as Hfr1.
  { intros f Hne. destruct Heff as [->|(u & Hu & ->)]; [done|].
    apply load_store_ne. intros <-. by apply (Hne u). }
  destruct (obsolete_cut E σ l) as [|n c] eqn:Ecut.
  - simpl. exists σ1. split; [done|]. split; [done|].
    split; [|split; [|done]].
    + intros a. rewrite Hl1. split; [intros ?; split; [done | apply not_elem_of_nil] | by intros [? _]].
    + simpl. lia.
  - simpl list.head. cbv iota.
    assert (length (n :: c) < fuel) as Hfc.
    { pose proof (obsolete_keep_cut E σ l) as Hkc. rewrite Ecut in Hkc.
      apply (f_equal length) in Hkc. rewrite length_app in Hkc. lia. }
    destruct (obsolete_free_walk_chain (e_sizeof_WT_UPDATE E)
                (e_WT_UPDATE_DELETED_VALUE E) σ1 (Some n) (n :: c) fuel 0%Z
                Hcut Hfc) as (σ2 & Hw & Hlive & Hmem & Hsize & Hfp).
    pose proof (obsolete_free_walk_shape _ _ _ _ _ _ _ _ Hw) as (L & HL).
    destruct Hp1 as (Ht1 & Hs1 & Hd1 & Hk1 & Hn1 & Hpm1 & Hlog1).
    rewrite (list_footprint_ext _ _ σ σ1) in Hw by done.
    set (fp := list_footprint (e_sizeof_WT_UPDATE E)
                 (e_WT_UPDATE_DELETED_VALUE E) σ (n :: c)) in *.
    assert (0 ≤ fp)%Z as Hfp0 by (by apply list_footprint_nonneg).
    assert (size_t_wrap (0 + fp) = fp) as Hwrap.
    { unfold size_t_wrap. rewrite Z.add_0_l. apply Z.mod_small. lia. }
    unfold __wt_update_obsolete_free. rewrite Hw, Hwrap.
    eexists. split; [done|].
    assert (memory_footprint
              (if negb (fp =? 0)%Z then __wt_cache_page_inmem_decr fp σ2 else σ2)
            = (memory_footprint σ - fp)%Z) as Hmf.
    { destruct (fp =? 0)%Z eqn:E0; simpl.
      - apply Z.eqb_eq in E0. lia.
      - lia. }
    split; [|split; [|split; [exact Hmf|split]]].
    + eapply lseg_frame; [|exact Hk]. intros u _. unfold load.
      destruct (negb _); simpl; by rewrite Hmem.
    + intros a. rewrite <- Hl1, <- Hlive. by destruct (negb _).
    + intros f Hne. rewrite <- (Hfr1 f Hne). unfold load.
      destruct (negb _); simpl; by rewrite Hmem.
    + subst σ2. destruct (negb _); simpl; repeat split; done.
Qed.

(** *** The sweep *)

Lemma obsolete_discard_frame E fuel σ p σ' :
  quiet E → obsolete_discard E fuel σ p = Some σ' →
  ∀ f, (∀ u, f ≠ UpdNext u) → load σ' f = load σ f.
Proof.
  intros Hq. unfold obsolete_discard.
  destruct (__wt_update_obsolete_check _ _ _ _ _) as [[r σ1]|] eqn:Hchk; [|done].
  apply obsolete_check_writes in Hchk. rewrite (Hq RaceTruncate σ) in Hchk.
  assert (∀ f, (∀ u, f ≠ UpdNext u) → load σ1 f = load σ f) as H1.
  { intros f Hf. destruct Hchk as [->|[->|(u & ->)]]; try done.
    by apply load_store_ne. }
  destruct r as [o|]; [|by intros [= <-]].
  unfold __wt_update_obsolete_free.
  destruct (obsolete_free_walk _ _ _ _ _ _) as [[size σ2]|] eqn:Hw; [|done].
  apply obsolete_free_walk_local in Hw as (Hm & _).
  intros [= <-] f Hf. rewrite <- (H1 f Hf). unfold load.
  destruct (negb _); simpl; by rewrite Hm.
Qed.

Lemma discard_all_app E fuel σ hs1 hs2 :
  discard_all E fuel σ (hs1 ++ hs2)
  = match discard_all E fuel σ hs1 with
    | Some σ' => discard_all E fuel σ' hs2
    | None => None
    end.
Proof.
  revert σ. induction hs1 as [|hd hs1 IH]; intros σ; simpl; [done|].
  destruct (obsolete_discard E fuel σ (load σ hd)); [apply IH | done].
Qed.

Lemma discard_all_frame E fuel σ hs σ' :
  quiet E → discard_all E fuel σ hs = Some σ' →
  ∀ f, (∀ u, f ≠ UpdNext u) → load σ' f = load σ f.
Proof.
  intros Hq. revert σ. induction hs as [|hd hs IH]; intros σ; simpl.
  - by intros [= <-].
  - destruct (obsolete_discard E fuel σ (load σ hd)) as [σ1|] eqn:Hd; [|done].
    intros H f Hf. rewrite (IH _ H f Hf).
    by eapply obsolete_discard_frame.
Qed.

(** The walk of a skip list prunes the list of every node in turn. *)
Lemma obsolete_skip_walk_discard_all E fuel steps σ ins g :
  quiet E → skip_seg σ 0 ins g None → length g < steps →
  obsolete_skip_walk E fuel steps σ ins = discard_all E fuel σ (InsUpd <$> g).
Proof.
  intros Hq. revert σ ins steps.
  induction g as [|n g IH]; intros σ ins steps Hseg Hlen.
  - simpl in Hseg. subst ins. destruct steps; [simpl in Hlen; lia | done].
  - destruct Hseg as [-> Hseg]. destruct steps as [|steps]; [simpl in Hlen; lia|].
    simpl in Hlen. simpl.
    destruct (obsolete_discard E fuel σ (load σ (InsUpd n))) as [σ1|] eqn:Hd;
      [|done].
    pose proof (obsolete_discard_frame E fuel σ _ σ1 Hq Hd) as Hfr.
    apply IH; [|lia]. rewrite Hfr by done.
    eapply skip_seg_frame; [|exact Hseg]. intros m _. by apply Hfr.
Qed.

Lemma list_footprint_app s d σ l1 l2 :
  list_footprint s d σ (l1 ++ l2)
  = (list_footprint s d σ l1 + list_footprint s d σ l2)%Z.
Proof. induction l1 as [|u l1 IH]; simpl; [done|]. rewrite IH. lia. Qed.

Lemma size_of_ext σ σ' u : upd_size σ' = upd_size σ → size_of σ' u = size_of σ u.
Proof. intros H. unfold size_of. by rewrite H. Qed.

Lemma cut_footprint_ext E σ σ' chains hs :
  same_payloads σ σ' → cut_footprint E σ' chains hs = cut_footprint E σ chains hs.
Proof.
  intros (Ht & Hs & _). induction hs as [|hd hs IH]; [done|]. simpl.
  rewrite IH, (obsolete_cut_ext E σ σ') by done.
  by rewrite (list_footprint_ext _ _ σ σ').
Qed.

(** Pruning lists that share no node, one after the other. *)
Lemma discard_all_quiet E fuel chains hs σ :
  quiet E →
  (∀ hd, hd ∈ hs → is_upd_head hd = true) →
  (∀ hd, hd ∈ hs → chain σ (load σ hd) (chains hd)) →
  NoDup (mjoin (chains <$> hs)) →
  (∀ hd, hd ∈ hs → length (chains hd) < fuel) →
  (0 ≤ e_sizeof_WT_UPDATE E)%Z →
  (∀ hd u, hd ∈ hs → u ∈ obsolete_cut E σ (chains hd) → 0 ≤ size_of σ u)%Z →
  (∀ hd, hd ∈ hs →
     list_footprint (e_sizeof_WT_UPDATE E) (e_WT_UPDATE_DELETED_VALUE E) σ
       (obsolete_cut E σ (chains hd)) < 2 ^ 64)%Z →
  ∃ σ',
    discard_all E fuel σ hs = Some σ' ∧
    (∀ hd, hd ∈ hs → chain σ' (load σ' hd) (obsolete_keep E σ (chains hd))) ∧
    (∀ a, a ∈ live σ' ↔
          a ∈ live σ ∧ ∀ hd, hd ∈ hs → a ∉ obsolete_cut E σ (chains hd)) ∧
    memory_footprint σ' = (memory_footprint σ - cut_footprint E σ chains hs)%Z ∧
    (∀ f, (∀ hd u, hd ∈ hs → u ∈ chains hd → f ≠ UpdNext u) →
          load σ' f = load σ f) ∧
    same_payloads σ σ'.
Proof.
  intros Hq. revert σ.
  induction hs as [|hd hs IH]; intros σ Hhead Hch Hnd Hlen Hs Hsz Hmax.
  - exists σ. simpl. split; [done|]. split; [by intros ? ?%not_elem_of_nil|].
    split; [|split; [lia|split; [done | apply same_payloads_refl]]].
    intros a. split; [intros Ha; split; [done|by intros ? ?%not_elem_of_nil] | by intros [? _]].
  - simpl in Hnd. apply list.NoDup_app in Hnd as (Hnd1 & Hdisj & Hnd2).
    assert (∀ hd' u v, hd' ∈ hs → u ∈ chains hd' → v ∈ chains hd → u ≠ v)
      as Hsep.
    { intros hd' u v Hhd' Hu Hv ->. apply (Hdisj v Hv).
      apply list_elem_of_join. exists (chains hd'). split; [done|].
      apply list_elem_of_fmap. by exists hd'. }
    destruct (obsolete_discard_quiet E σ (load σ hd) (chains hd) fuel)
      as (σ1 & Hd & Hk1 & Hl1 & Hm1 & Hfr1 & Hp1).
    { done. }
    { apply Hch. by left. }
    { apply Hlen. by left. }
    { done. }
    { intros u Hu. eapply Hsz; [|done]. by left. }
    { apply Hmax. by left. }
    pose proof Hp1 as (Ht1 & Hs1 & _).
    assert (∀ hd', hd' ∈ hs → load σ1 hd' = load σ hd') as Hhd1.
    { intros hd' Hhd'. apply Hfr1. intros u _ ->.
      assert (is_upd_head (UpdNext u) = true) as Hx by (apply Hhead; by right).
      done. }
    destruct (IH σ1) as (σ' & Hall & Hk & Hl & Hm & Hfr & Hp).
    { intros hd' Hhd'. apply Hhead. by right. }
    { intros hd' Hhd'. rewrite Hhd1 by done.
      eapply lseg_frame; [|apply Hch; by right].
      intros u Hu. apply Hfr1. intros v Hv [= ->]. by eapply Hsep. }
    { done. }
    { intros hd' Hhd'. apply Hlen. by right. }
    { done. }
    { intros hd' u Hhd' Hu. rewrite (obsolete_cut_ext E σ σ1) in Hu by done.
      rewrite (size_of_ext σ σ1) by done. eapply Hsz; [|done]. by right. }
    { intros hd' Hhd'. rewrite (obsolete_cut_ext E σ σ1) by done.
      rewrite (list_footprint_ext _ _ σ σ1) by done. apply Hmax. by right. }
    exists σ'. simpl. rewrite Hd. split; [done|].
    split; [|split; [|split; [|split]]].
    + intros hd' [->|Hhd']%elem_of_cons.
      * assert (load σ' hd = load σ1 hd) as ->.
        { apply Hfr. intros hd' u _ _ ->.
          assert (is_upd_head (UpdNext u) = true) as Hx by (apply Hhead; by left).
          done. }
        assert (load σ1 hd = load σ hd) as ->.
        { apply Hfr1. intros u _ ->.
          assert (is_upd_head (UpdNext u) = true) as Hx by (apply Hhead; by left).
          done. }
        eapply lseg_frame; [|exact Hk1].
        intros u Hu. apply Hfr. intros hd' v Hhd' Hv [= ->].
        eapply Hsep; [done..| |done].
        rewrite <- (obsolete_keep_cut E σ (chains hd)).
        apply elem_of_app. by left.
      * rewrite <- (obsolete_keep_ext E σ σ1) by done. by apply Hk.
    + intros a. rewrite Hl, Hl1. split.
      * intros [[Ha Hc] Hrest]. split; [done|].
        intros hd' [->|Hhd']%elem_of_cons; [done|].
        rewrite <- (obsolete_cut_ext E σ σ1) by done. by apply Hrest.
      * intros [Ha Hrest]. split; [split; [done | apply Hrest; by left]|].
        intros hd' Hhd'. rewrite (obsolete_cut_ext E σ σ1) by done.
        apply Hrest. by right.
    + rewrite Hm, Hm1, (cut_footprint_ext E σ σ1) by done. lia.
    + intros f Hf. rewrite Hfr.
      * apply Hfr1. intros u Hu. apply (Hf hd); [by left | done].
      * intros hd' u Hhd' Hu. apply (Hf hd'); [by right | done].
    + by eapply same_payloads_trans.
Qed.

Lemma fold_left_entry_None E fuel slots :
  fold_left (row_leaf_obsolete_entry E fuel) slots None = None.
Proof. by induction slots. Qed.

Lemma skip_first_frame σ σ' slot :
  (∀ f, (∀ u, f ≠ UpdNext u) → load σ' f = load σ f) →
  WT_SKIP_FIRST σ' (WT_ROW_INSERT_SLOT σ' slot)
  = WT_SKIP_FIRST σ (WT_ROW_INSERT_SLOT σ slot).
Proof.
  intros Hfr. unfold WT_SKIP_FIRST, WT_ROW_INSERT_SLOT.
  rewrite (Hfr PageIns) by done. destruct (load σ PageIns) as [a|]; [|done].
  rewrite (Hfr (InsArr a slot)) by done.
  destruct (load σ (InsArr a slot)) as [h|]; [|done]. by apply Hfr.
Qed.

(** The entries of the page, one after the other, prune the lists of
    [page_heads] in order. *)
Lemma row_leaf_entries_discard_all E fuel σ0 gaps slots σ1 :
  quiet E → 0 < fuel →
  (∀ slot, slot ∈ slots →
     skip_seg σ0 0 (WT_SKIP_FIRST σ0 (WT_ROW_INSERT_SLOT σ0 slot))
       (gaps slot) None ∧ length (gaps slot) < fuel) →
  (∀ f, (∀ u, f ≠ UpdNext u) → load σ1 f = load σ0 f) →
  fold_left (row_leaf_obsolete_entry E fuel) slots (Some σ1)
  = discard_all E fuel σ1
      (mjoin ((λ slot,
                 match load σ0 PageUpd with
                 | Some a => [UpdArr a slot]
                 | None => []
                 end ++ (InsUpd <$> gaps slot)) <$> slots)).
Proof.
  intros Hq Hfuel. revert σ1.
  induction slots as [|slot slots IH]; intros σ1 Hgaps Hfr; [done|].
  destruct (Hgaps slot) as [Hseg Hlen]; [by left|].
  assert (row_leaf_obsolete_entry E fuel (Some σ1) slot
          = discard_all E fuel σ1
              (match load σ0 PageUpd with
               | Some a => [UpdArr a slot]
               | None => []
               end ++ (InsUpd <$> gaps slot))) as Hentry.
  { unfold row_leaf_obsolete_entry, WT_ROW_UPDATE.
    rewrite (Hfr PageUpd) by done.
    assert (∀ σ2, (∀ f, (∀ u, f ≠ UpdNext u) → load σ2 f = load σ1 f) →
              obsolete_skip_walk E fuel fuel σ2
                (WT_SKIP_FIRST σ2 (WT_ROW_INSERT_SLOT σ2 slot))
              = discard_all E fuel σ2 (InsUpd <$> gaps slot)) as Hwalk.
    { intros σ2 Hfr2.
      assert (∀ f, (∀ u, f ≠ UpdNext u) → load σ2 f = load σ0 f) as Hfr20.
      { intros f Hf. by rewrite Hfr2, Hfr. }
      apply obsolete_skip_walk_discard_all; [done| |done].
      rewrite (skip_first_frame σ0 σ2) by done.
      eapply skip_seg_frame; [|exact Hseg]. intros n _. by apply Hfr20. }
    destruct (load σ0 PageUpd) as [a|]; simpl.
    - destruct (obsolete_discard E fuel σ1 (load σ1 (UpdArr a slot)))
        as [σ2|] eqn:Hd; [|done].
      apply Hwalk. by eapply obsolete_discard_frame.
    - assert (obsolete_discard E fuel σ1 None = Some σ1) as ->.
      { unfold obsolete_discard. by destruct fuel; [lia|]. }
      by apply Hwalk. }
  cbn [fold_left fmap list_fmap mjoin list_join].
  set (hs := match load σ0 PageUpd with
             | Some a => [UpdArr a slot]
             | None => []
             end ++ (InsUpd <$> gaps slot)) in *.
  rewrite Hentry, (discard_all_app E fuel σ1 hs).
  destruct (discard_all E fuel σ1 hs) as [σ2|] eqn:Hd.
  - apply IH.
    + intros s Hs. apply Hgaps. by right.
    + intros f Hf. rewrite <- (Hfr f Hf). by eapply discard_all_frame.
  - apply fold_left_entry_None.
Qed.

Lemma row_leaf_obsolete_discard_all E fuel σ gaps :
  quiet E → 0 < fuel →
  (∀ slot, slot ≤ e_entries E →
     skip_seg σ 0 (WT_SKIP_FIRST σ (WT_ROW_INSERT_SLOT σ slot))
       (gaps slot) None ∧ length (gaps slot) < fuel) →
  __wt_row_leaf_obsolete E fuel σ
  = discard_all E fuel σ (page_heads E σ gaps).
Proof.
  intros Hq Hfuel Hgaps. unfold __wt_row_leaf_obsolete, page_heads.
  destruct (Hgaps (e_entries E)) as [Hseg Hlen]; [done|].
  rewrite (obsolete_skip_walk_discard_all E fuel fuel σ _ (gaps (e_entries E)))
    by done.
  rewrite discard_all_app.
  destruct (discard_all E fuel σ (InsUpd <$> gaps (e_entries E)))
    as [σ1|] eqn:Hd; [|apply fold_left_entry_None].
  apply row_leaf_entries_discard_all; [done..| |].
  - intros slot Hs. apply Hgaps. apply elem_of_seq in Hs. lia.
  - by eapply discard_all_frame.
Qed.

Lemma page_heads_upd_head E σ gaps hd :
  hd ∈ page_heads E σ gaps → is_upd_head hd = true.
Proof.
  unfold page_heads. rewrite elem_of_app, list_elem_of_fmap, list_elem_of_join.
  intros [(n & -> & _)|(l & Hhd & Hl)]; [done|].
  apply list_elem_of_fmap in Hl as (slot & -> & _).
  apply elem_of_app in Hhd as [Hhd|Hhd].
  - destruct (load σ PageUpd); [|by apply not_elem_of_nil in Hhd].
    by apply list_elem_of_singleton in Hhd as ->.
  - by apply list_elem_of_fmap in Hhd as (n & -> & _).
Qed.

(** X3: the sweep of a leaf page, run without interference on a well-formed
    page, ends and leaves every update list cut behind its first update that
    is visible to all; the updates cut off, and only they, are freed, and
    the page's byte count goes down by their footprint. No field of the skip
    lists or arrays is written. *)
Theorem row_leaf_obsolete_prunes_every_list E σ gaps chains fuel :
  quiet E →
  page_shape E σ gaps chains →
  (∀ slot, slot ≤ e_entries E → length (gaps slot) < fuel) →
  (∀ hd, hd ∈ page_heads E σ gaps → length (chains hd) < fuel) →
  (0 ≤ e_sizeof_WT_UPDATE E)%Z →
  (∀ hd u, hd ∈ page_heads E σ gaps → u ∈ chains hd → 0 ≤ size_of σ u)%Z →
  (∀ hd, hd ∈ page_heads E σ gaps →
     list_footprint (e_sizeof_WT_UPDATE E) (e_WT_UPDATE_DELETED_VALUE E) σ
       (chains hd) < 2 ^ 64)%Z →
  ∃ σ',
    __wt_row_leaf_obsolete E fuel σ = Some σ' ∧
    (∀ hd, hd ∈ page_heads E σ gaps →
       chain σ' (load σ' hd) (obsolete_keep E σ (chains hd))) ∧
    (∀ a, a ∈ live σ' ↔
          a ∈ live σ ∧
          ∀ hd, hd ∈ page_heads E σ gaps → a ∉ obsolete_cut E σ (chains hd)) ∧
    memory_footprint σ'
    = (memory_footprint σ - cut_footprint E σ chains (page_heads E σ gaps))%Z ∧
    (∀ f, (∀ u, f ≠ UpdNext u) → load σ' f = load σ f).
Proof.
  intros Hq [Hgaps Hch Hnd] Hglen Hclen Hs Hsz Hmax.
  assert (0 < fuel) as Hfuel by (specialize (Hglen 0); lia).
  rewrite (row_leaf_obsolete_discard_all E fuel σ gaps); [|done..|].
  2: { intros slot Hslot. split; [by apply Hgaps | by apply Hglen]. }
  destruct (discard_all_quiet E fuel chains (page_heads E σ gaps) σ)
    as (σ' & Hall & Hk & Hl & Hm & Hfr & _); try done.
  - apply page_heads_upd_head.
  - intros hd u Hhd Hu. apply (Hsz hd); [done|].
    by eapply obsolete_cut_elem_of.
  - intros hd Hhd.
    assert (0 ≤ list_footprint (e_sizeof_WT_UPDATE E)
                  (e_WT_UPDATE_DELETED_VALUE E) σ (obsolete_keep E σ (chains hd)))%Z.
    { apply list_footprint_nonneg; [done|]. intros u Hu. apply (Hsz hd); [done|].
      rewrite <- (obsolete_keep_cut E σ (chains hd)). apply elem_of_app. by left. }
    specialize (Hmax hd Hhd).
    rewrite <- (obsolete_keep_cut E σ (chains hd)), list_footprint_app in Hmax.
    lia.
  - exists σ'. split; [done|]. split; [done|]. split; [done|]. split; [done|].
    intros f Hf. apply Hfr. intros hd u _ _. apply Hf.
Qed.

(** *** Success of the entry point *)

Lemma obsolete_free_page_modified s d fuel σ upd σ' :
  __wt_update_obsolete_free s d fuel σ upd = Some σ' →
  page_modified σ' = page_modified σ.
Proof.
  unfold __wt_update_obsolete_free.
  destruct (obsolete_free_walk _ _ _ _ _ _) as [[size σ1]|] eqn:Hw; [|done].
  apply obsolete_free_walk_shape in Hw as (L & ->).
  intros [= <-]. by destruct (negb _).
Qed.

Section ModifySuccess.

Variable E : ext.
Hypothesis Hracers : racers_keep_protocol E.

Lemma row_modify_update_success fuel σ cbt value upd_entry σ' cbt' :
  is_upd_head upd_entry = true →
  row_modify_update E fuel σ cbt value upd_entry = Some (0%Z, σ', cbt') →
  page_modified σ' = true ∧
  ∃ upd, txn_log σ' = TxnModify upd :: txn_log σ ∧
         (next_block σ ≤ upd)%positive ∧ (upd < next_block σ')%positive.
Proof.
  intros Hhead. unfold row_modify_update, row_modify_err.
  destruct (negb (e_txn_update_check E σ (load σ upd_entry) =? 0)%Z) eqn:Hchk.
  { intros [= Hz _ _]. apply negb_true_iff, Z.eqb_neq in Hchk. congruence. }
  destruct (__wt_update_alloc _ _ _ _ _) as [[[ret1 r] size] σ1] eqn:Ha.
  pose proof Ha as Ha'.
  apply update_alloc_inv in Ha as [(-> & Hret & ->)|(upd & -> & _ & Ha)].
  { intros [= Hz _ _]. congruence. }
  assert (upd = next_block σ ∧ next_block σ1 = Pos.succ (next_block σ))
    as [Hupd Hnb1].
  { unfold __wt_update_alloc in Ha'.
    destruct (__wt_calloc (e_calloc_ret E) _ _ σ) as [[ret0 r0] σ0] eqn:Hc.
    apply calloc_inv in Hc as [(-> & _ & _ & ->)|(-> & _ & _ & ->)]; [done|].
    injection Ha' as _ <- _ <-. by destruct value. }
  destruct (__wt_txn_modify E upd σ1) as [ret2 σ2] eqn:Hm.
  apply txn_modify_inv in Hm as [[Hret ->]|[-> Hm]].
  { apply Z.eqb_neq in Hret. rewrite Hret. simpl. intros [= Hz _ _].
    apply Z.eqb_neq in Hret. congruence. }
  simpl.
  pose proof (trans_trans _ _ _ _ _ _ _ Ha Hm) as H2. simpl in H2.
  destruct (__wt_update_serial E fuel σ2 upd_entry (load σ upd_entry) upd)
    as [[[[ret3 upd'] obsolete] σ3]|] eqn:Hs; [|done].
  pose proof Hs as Hs'.
  apply update_serial_trans in Hs as [Hs Htaken]; [|done|done].
  pose proof (trans_then_nil _ _ _ _ _ H2 Hs) as H3.
  destruct (negb (ret3 =? 0)%Z) eqn:Hret3.
  { intros [= Hz _ _]. apply negb_true_iff, Z.eqb_neq in Hret3. congruence. }
  assert (page_modified σ3 = true) as Hpm.
  { unfold __wt_update_serial, __wt_update_serial_func in Hs'.
    apply negb_false_iff, Z.eqb_eq in Hret3. subst ret3.
    destruct (negb _) eqn:E1 in Hs'.
    { injection Hs' as Hz _ _ _. apply negb_true_iff, Z.eqb_neq in E1. congruence. }
    destruct (negb _) eqn:E2 in Hs'.
    { injection Hs' as Hz _ _ _. apply negb_true_iff, Z.eqb_neq in E2. congruence. }
    destruct (__wt_update_obsolete_check _ _ _ _ _) as [[o σx]|]; [|done].
    by injection Hs' as _ _ <-. }
  assert (next_block σ ≤ upd ∧ upd < next_block σ3)%positive as Hrange.
  { pose proof (tr_next_block _ _ _ _ Hm). pose proof (tr_next_block _ _ _ _ Hs).
    lia. }
  destruct obsolete as [o|].
  - destruct (__wt_update_obsolete_free _ _ _ _ _) as [σ4|] eqn:Hf; [|done].
    pose proof (obsolete_free_page_modified _ _ _ _ _ _ Hf) as Hpm4.
    apply obsolete_free_trans in Hf.
    intros [= <- <-]. split; [congruence|]. exists upd.
    pose proof (trans_then_nil _ _ _ _ _ H3 Hf) as H4.
    split; [apply (tr_log _ _ _ _ H4)|].
    pose proof (tr_next_block _ _ _ _ Hf). lia.
  - intros [= <- <-]. split; [done|]. exists upd.
    split; [apply (tr_log _ _ _ _ H3) | done].
Qed.

Lemma row_modify_insert_success σ cbt value ins_head σ' cbt' :
  e_WT_RESTART E ≠ 0%Z →
  stack_typed (cbt_ins_stack cbt) →
  row_modify_insert E σ cbt value ins_head = Some (0%Z, σ', cbt') →
  page_modified σ' = true ∧
  ∃ upd, txn_log σ' = TxnModify upd :: txn_log σ ∧
         (next_block σ ≤ upd)%positive ∧ (upd < next_block σ')%positive.
Proof.
  intros Hrestart Hty. unfold row_modify_insert, row_modify_err.
  destruct (__wt_row_insert_alloc _ _ _ _) as [[[ret1 r] size] σ1] eqn:Hi.
  apply row_insert_alloc_inv in Hi as [(-> & Hret & ->)|(ins & -> & _ & Hi)].
  { intros [= Hz _ _]. congruence. }
  destruct (__wt_update_alloc _ _ _ _ _) as [[[ret2 r] usize] σ2] eqn:Ha.
  pose proof Ha as Ha'.
  apply update_alloc_inv in Ha as [(-> & Hret & ->)|(upd & -> & _ & Ha)].
  { intros [= Hz _ _]. congruence. }
  assert (upd = next_block σ1 ∧ next_block σ2 = Pos.succ (next_block σ1))
    as [Hupd Hnb2].
  { unfold __wt_update_alloc in Ha'.
    destruct (__wt_calloc (e_calloc_ret E) _ _ σ1) as [[ret0 r0] σ0] eqn:Hc.
    apply calloc_inv in Hc as [(-> & _ & _ & ->)|(-> & _ & _ & ->)]; [done|].
    injection Ha' as _ <- _ <-. by destruct value. }
  pose proof (trans_trans _ _ _ _ _ _ _ Hi Ha) as H2. simpl in H2.
  destruct (__wt_txn_modify E upd σ2) as [ret3 σ3] eqn:Hm.
  apply txn_modify_inv in Hm as [[Hret ->]|[-> Hm]].
  { apply Z.eqb_neq in Hret. rewrite Hret. simpl. intros [= Hz _ _].
    apply Z.eqb_neq in Hret. congruence. }
  simpl.
  pose proof (trans_trans _ _ _ _ _ _ _ H2 Hm) as H3. simpl in H3.
  assert (trans σ (store (InsUpd ins) (Some upd) σ3) [ins; upd] [TxnModify upd])
    as H4 by (eapply trans_then_nil; [exact H3 | by apply trans_store]).
  destruct (__wt_insert_serial _ _ _ _ _ _ _) as [[ret4 ins'] σ5] eqn:Hs.
  pose proof Hs as Hs'.
  apply insert_serial_trans in Hs as [Hs Htaken]; [|done|done].
  pose proof (trans_then_nil _ _ _ _ _ H4 Hs) as H5.
  destruct (negb (ret4 =? 0)%Z) eqn:Hret4.
  { intros [= Hz _ _]. apply negb_true_iff, Z.eqb_neq in Hret4. congruence. }
  intros [= <- <-].
  split.
  - unfold __wt_insert_serial, __wt_insert_serial_func in Hs'.
    apply negb_false_iff, Z.eqb_eq in Hret4. subst ret4.
    destruct (negb _) eqn:E1 in Hs'.
    { injection Hs' as Hz _ _. apply negb_true_iff, Z.eqb_neq in E1. congruence. }
    destruct (existsb _ _) in Hs'.
    { injection Hs' as Hz _ _. congruence. }
    by injection Hs' as _ <-.
  - exists upd. split; [apply (tr_log _ _ _ _ H5)|].
    pose proof (tr_next_block _ _ _ _ Hi). pose proof (tr_next_block _ _ _ _ Hm).
    pose proof (tr_next_block _ _ _ _ Hs). simpl in *. lia.
Qed.

End ModifySuccess.

(** X4: a call of the entry point that succeeds has registered exactly one
    modification with the transaction manager, that of the update node it
    allocated, has not taken it back, and has marked the page modified. *)
Theorem row_modify_success_registers_once E fuel σ cbt is_remove σ' cbt' :
  racers_keep_protocol E →
  e_WT_RESTART E ≠ 0%Z →
  stack_typed (cbt_ins_stack cbt) →
  __wt_row_modify E fuel σ cbt is_remove = Some (0%Z, σ', cbt') →
  page_modified σ' = true ∧
  ∃ upd, txn_log σ' = TxnModify upd :: txn_log σ ∧
         (next_block σ ≤ upd)%positive ∧ (upd < next_block σ')%positive.
Proof.
  intros Hracers Hrestart Hty. unfold __wt_row_modify, row_modify_err.
  destruct (cbt_compare cbt =? 0)%Z.
  - destruct (cbt_ins cbt) as [ins|];
      [by apply row_modify_update_success|].
    destruct (alloc_upd_array E σ) as [ret1 σ1] eqn:Ha.
    apply alloc_upd_array_trans in Ha; [|done].
    destruct (negb (ret1 =? 0)%Z) eqn:Hr.
    { intros [= Hz _ _]. apply negb_true_iff, Z.eqb_neq in Hr. congruence. }
    destruct (load σ1 PageUpd) as [arr|]; [|done].
    intros (Hpm & upd & Hlog & Hlo & Hhi)%row_modify_update_success; [|done..].
    split; [done|]. exists upd.
    rewrite Hlog, (tr_log _ _ _ _ Ha).
    pose proof (tr_next_block _ _ _ _ Ha). split; [done | lia].
  - destruct (alloc_ins_array E σ) as [ret1 σ1] eqn:Ha.
    apply alloc_ins_array_trans in Ha; [|done].
    destruct (negb (ret1 =? 0)%Z) eqn:Hr.
    { intros [= Hz _ _]. apply negb_true_iff, Z.eqb_neq in Hr. congruence. }
    destruct (load σ1 PageIns) as [arr|]; [|done].
    destruct (alloc_ins_head _ _ _ _) as [[ret2 σ2] cbt2] eqn:Hh.
    apply alloc_ins_head_trans in Hh as [Hh Hty2]; [|done..].
    destruct (negb (ret2 =? 0)%Z) eqn:Hr2.
    { intros [= Hz _ _]. apply negb_true_iff, Z.eqb_neq in Hr2. congruence. }
    destruct (load σ2 _) as [ins_head|]; [|done].
    intros (Hpm & upd & Hlog & Hlo & Hhi)%row_modify_insert_success; [|done..].
    split; [done|]. exists upd.
    rewrite Hlog, (tr_log _ _ _ _ Hh), (tr_log _ _ _ _ Ha).
    pose proof (tr_next_block _ _ _ _ Ha). pose proof (tr_next_block _ _ _ _ Hh).
    split; [done | lia].
Qed.

Lemma row_modify_success_registers_once_witness :
  match __wt_row_modify ex_ext 5 empty_state (ex_cbt 1) false with
  | Some (ret, σ', _) =>
      ret = 0%Z ∧ page_modified σ' = true ∧ txn_log σ' = [TxnModify 4]
  | None => False
  end.
Proof.
  pose proof (row_modify_success_registers_once ex_ext 5 empty_state
                (ex_cbt 1) false) as H.
  destruct (__wt_row_modify ex_ext 5 empty_state (ex_cbt 1) false)
    as [[[ret σ'] cbt']|] eqn:Hrun.
  - assert (ret = 0%Z) as Hret by (vm_compute in Hrun; congruence).
    subst ret. split; [reflexivity|].
    destruct (H σ' cbt') as (Hpm & upd & Hlog & _).
    + split; intros; try reflexivity. intros l a _ Hl. exact Hl.
    + discriminate.
    + intros [|[|[|i]]] p; simpl; discriminate.
    + reflexivity.
    + split; [exact Hpm|]. vm_compute in Hrun. injection Hrun as <- _.
      reflexivity.
  - vm_compute in Hrun. discriminate Hrun.
Defined.

(** *** The update path without interference *)

Lemma obsolete_keep_agree E σ σ' l :
  (∀ u, u ∈ l → txnid_of σ' u = txnid_of σ u) →
  obsolete_keep E σ' l = obsolete_keep E σ l.
Proof.
  induction l as [|u l IH]; intros H; [done|]. simpl.
  rewrite H by (by left). rewrite IH; [done|]. intros v Hv. apply H. by right.
Qed.

Lemma obsolete_cut_agree E σ σ' l :
  (∀ u, u ∈ l → txnid_of σ' u = txnid_of σ u) →
  obsolete_cut E σ' l = obsolete_cut E σ l.
Proof.
  induction l as [|u l IH]; intros H; [done|]. simpl.
  rewrite H by (by left). rewrite IH; [done|]. intros v Hv. apply H. by right.
Qed.

Lemma chain_mem σ σ' p l : mem σ' = mem σ → chain σ p l → chain σ' p l.
Proof. intros Hm. apply lseg_frame. intros u _. unfold load. by rewrite Hm. Qed.

Lemma chain_pushed σ σ' entry upd p l :
  mem σ' = mem σ → load σ entry = Some upd → load σ (UpdNext upd) = p →
  chain σ p l → chain σ' (load σ' entry) (upd :: l).
Proof.
  intros Hm He Hn Hc. apply (chain_mem σ); [done|].
  replace (load σ' entry) with (load σ entry) by (unfold load; by rewrite Hm).
  rewrite He. split; [done|]. by rewrite Hn.
Qed.

Lemma row_modify_update_quiet E fuel σ cbt value upd_entry l :
  quiet E → is_upd_head upd_entry = true →
  chain σ (load σ upd_entry) l → length l < fuel →
  (∀ u, u ∈ l → (u < next_block σ)%positive) →
  (∃ res, row_modify_update E fuel σ cbt value upd_entry = Some res) ∧
  ∀ σ' cbt',
    row_modify_update E fuel σ cbt value upd_entry = Some (0%Z, σ', cbt') →
    cbt' = cbt ∧
    next_block σ ∈ live σ' ∧
    chain σ' (load σ' upd_entry) (next_block σ :: obsolete_keep E σ l) ∧
    match value with
    | Some v =>
        upd_data σ' !! next_block σ = Some v ∧
        size_of σ' (next_block σ) = WT_STORE_SIZE (Z.of_nat (length v))
    | None => size_of σ' (next_block σ) = e_WT_UPDATE_DELETED_VALUE E
    end ∧
    (∀ u, u ∈ obsolete_cut E σ l → u ∉ live σ').
Proof.
  intros Hq Hhead Hc Hf Hold.
  set (upd := next_block σ).
  assert (upd ∉ l) as Hfresh by (intros Hin; apply Hold in Hin; unfold upd in Hin; lia).
  unfold row_modify_update, row_modify_err.
  destruct (negb (e_txn_update_check E σ (load σ upd_entry) =? 0)%Z) eqn:Hchk.
  { split; [eauto|]. intros σ' cbt' [= Hz _ _].
    apply negb_true_iff, Z.eqb_neq in Hchk. congruence. }
  unfold __wt_update_alloc, __wt_calloc.
  destruct (negb (e_calloc_ret E σ =? 0)%Z) eqn:Hcal.
  { split; [eauto|]. intros σ' cbt' [= Hz _ _].
    apply negb_true_iff, Z.eqb_neq in Hcal. congruence. }
  fold upd.
  set (σ1 := match value with
             | Some v => _
             | None => _
             end).
  unfold __wt_txn_modify.
  destruct (negb (e_txn_modify_ret E σ1 =? 0)%Z) eqn:Hmod.
  { cbv beta iota zeta. rewrite Hmod. split; [eauto|]. intros σ' cbt' [= Hz _ _].
    apply negb_true_iff, Z.eqb_neq in Hmod. congruence. }
  cbv beta iota zeta. simpl negb. cbv iota.
  set (σ2 := set_txn_log _ _).
  unfold __wt_update_serial. rewrite (Hq RaceSerial σ2).
  unfold __wt_update_serial_func.
  destruct (negb (__wt_page_write_gen_wrapped_check _ _ σ2 =? 0)%Z) eqn:Hw.
  { cbv beta iota zeta. rewrite Hw. split; [eauto|]. intros σ' cbt' [= Hz _ _].
    apply negb_true_iff, Z.eqb_neq in Hw. congruence. }
  assert (∀ f, load σ2 f = load σ f) as Hl2.
  { intros f. unfold σ2, σ1. by destruct value. }
  rewrite (Hl2 upd_entry), bool_decide_eq_false_2 by (intros H; by apply H).
  simpl negb. cbv iota.
  set (σ3 := store upd_entry (Some upd) (store (UpdNext upd) (load σ upd_entry) σ2)).
  assert (upd_entry ≠ UpdNext upd) as Hne by (by intros ->).
  assert (load σ3 (UpdNext upd) = load σ upd_entry) as Hn3.
  { unfold σ3. rewrite load_store_ne by done. apply load_store_eq. }
  assert (load σ3 upd_entry = Some upd) as He3 by apply load_store_eq.
  assert (∀ f, f ≠ upd_entry → f ≠ UpdNext upd → load σ3 f = load σ f) as Hfr3.
  { intros f H1 H2. unfold σ3. rewrite !load_store_ne by done. apply Hl2. }
  assert (chain σ3 (load σ upd_entry) l) as Hc3.
  { eapply lseg_frame; [|exact Hc]. intros u Hu. apply Hfr3.
    - intros <-. done.
    - intros [= ->]. done. }
  assert (∀ u, u ∈ l → txnid_of σ3 u = txnid_of σ u) as Htx.
  { intros u Hu. unfold txnid_of, σ3, σ2. simpl.
    rewrite lookup_insert_ne by (intros <-; done).
    unfold σ1. by destruct value. }
  rewrite Hn3.
  destruct (obsolete_check_quiet E σ3 (load σ upd_entry) l fuel Hq Hc3 Hf)
    as (σ4 & Hchk4 & Hk4 & Hcut4 & Heff).
  rewrite Hchk4.
  rewrite (obsolete_cut_agree E σ σ3) in Hchk4, Hcut4 by done.
  rewrite (obsolete_keep_agree E σ σ3) in Hk4 by done.
  rewrite (obsolete_cut_agree E σ σ3) by done.
  assert (load σ4 upd_entry = Some upd ∧ load σ4 (UpdNext upd) = load σ upd_entry
          ∧ live σ4 = {[upd]} ∪ live σ
          ∧ upd_data σ4 = upd_data σ1 ∧ upd_size σ4 = upd_size σ1)
    as (He4 & Hn4 & Hlive4 & Hd4 & Hs4).
  { destruct Heff as [->|(u & Hu & ->)].
    - repeat split; try done. unfold σ3, σ2, σ1. by destruct value.
    - rewrite !load_store_ne by (intros ?; simplify_eq; done).
      repeat split; try done. unfold σ3, σ2, σ1. by destruct value. }
  assert (match value with
          | Some v =>
              upd_data σ1 !! upd = Some v ∧
              default 0%Z (upd_size σ1 !! upd) = WT_STORE_SIZE (Z.of_nat (length v))
          | None => default 0%Z (upd_size σ1 !! upd) = e_WT_UPDATE_DELETED_VALUE E
          end) as Hval.
  { unfold σ1. destruct value; simpl; rewrite ?lookup_insert_eq; done. }
  destruct (obsolete_cut E σ l) as [|o c] eqn:Ecut.
  - simpl list.head. cbv iota. simpl negb. cbv iota.
    split; [eauto|]. intros σ' cbt' [= <- <-]. split; [done|].
    change (live (set_page_modified true σ4)) with (live σ4).
    split; [rewrite Hlive4; apply elem_of_union; left; by apply elem_of_singleton|].
    split; [|split].
    + by apply (chain_pushed σ4 _ _ _ (load σ upd_entry)).
    + unfold size_of. simpl. rewrite Hd4, Hs4. exact Hval.
    + by intros u ?%not_elem_of_nil.
  - simpl list.head. cbv iota. simpl negb. cbv iota.
    assert (length (o :: c) < fuel) as Hfc.
    { pose proof (obsolete_keep_cut E σ l) as Hkc. rewrite Ecut in Hkc.
      apply (f_equal length) in Hkc. rewrite length_app in Hkc. lia. }
    destruct (obsolete_free_walk_chain (e_sizeof_WT_UPDATE E)
                (e_WT_UPDATE_DELETED_VALUE E) (set_page_modified true σ4)
                (Some o) (o :: c) fuel 0%Z)
      as (σ5 & Hwk & Hlive5 & Hmem5 & Hsize5 & _); [|done|].
    { eapply lseg_frame; [|exact Hcut4]. done. }
    pose proof (obsolete_free_walk_shape _ _ _ _ _ _ _ _ Hwk) as (L & HL).
    unfold __wt_update_obsolete_free. rewrite Hwk.
    split; [eauto|]. intros σ' cbt' [= <- <-]. split; [done|].
    assert (∀ σx, σx = σ5 ∨ (∃ z, σx = __wt_cache_page_inmem_decr z σ5) →
              live σx = live σ5 ∧ mem σx = mem σ5 ∧
              upd_data σx = upd_data σ5 ∧ upd_size σx = upd_size σ5) as Hx.
    { intros σx [->|[z ->]]; done. }
    match goal with |- context [if ?b then ?x else ?y] =>
      destruct (Hx (if b then x else y)) as (Hlx & Hmx & Hdx & Hsx);
      [destruct b; eauto|] end.
    assert (o :: c ⊆ l) as Hsub.
    { intros u Hu. rewrite <- (obsolete_keep_cut E σ l), Ecut.
      apply elem_of_app. by right. }
    split; [|split; [|split]].
    + rewrite Hlx. apply Hlive5. split.
      * simpl. rewrite Hlive4. apply elem_of_union. left. by apply elem_of_singleton.
      * intros Hin. by apply Hfresh, Hsub.
    + apply (chain_pushed σ4 _ _ _ (load σ upd_entry)); try done.
      by rewrite Hmx, Hmem5.
    + unfold size_of. rewrite Hdx, Hsx, HL. simpl. rewrite Hd4, Hs4. exact Hval.
    + intros u Hu. rewrite Hlx. intros Hin. apply Hlive5 in Hin as [_ Hin].
      done.
Qed.


(** X5: an update or remove of a key that is on the page, run without
    interference, always returns; when it returns 0 the key's update list
    starts with a fresh node that carries the cursor's value (or the
    tombstone mark for a remove), followed by the old list up to its first
    update visible to all; what was behind that is freed. *)
Theorem row_modify_update_round_trip E fuel σ cbt is_remove l :
  quiet E → cbt_compare cbt = 0%Z →
  chain σ (load σ (upd_entry_of σ cbt)) l → length l < fuel →
  (∀ u, u ∈ l → (u < next_block σ)%positive) →
  (∃ res, __wt_row_modify E fuel σ cbt is_remove = Some res) ∧
  ∀ σ' cbt',
    __wt_row_modify E fuel σ cbt is_remove = Some (0%Z, σ', cbt') →
    cbt' = cbt ∧
    ∃ upd, (next_block σ ≤ upd)%positive ∧ upd ∈ live σ' ∧
      chain σ' (load σ' (upd_entry_of σ cbt)) (upd :: obsolete_keep E σ l) ∧
      (if is_remove then size_of σ' upd = e_WT_UPDATE_DELETED_VALUE E
       else upd_data σ' !! upd = Some (cbt_value cbt) ∧
            size_of σ' upd
            = WT_STORE_SIZE (Z.of_nat (length (cbt_value cbt)))) ∧
      (∀ u, u ∈ obsolete_cut E σ l → u ∉ live σ').
Proof.
  intros Hq Hcmp Hc Hf Hold.
  assert (∀ σa upd_entry,
    is_upd_head upd_entry = true →
    upd_entry = upd_entry_of σ cbt →
    (∀ f, f ≠ PageUpd → load σa f = load σ f) →
    upd_txnid σa = upd_txnid σ →
    (next_block σ ≤ next_block σa)%positive →
    (∃ res, row_modify_update E fuel σa cbt
              (if is_remove then None else Some (cbt_value cbt)) upd_entry
            = Some res) ∧
    ∀ σ' cbt',
      row_modify_update E fuel σa cbt
        (if is_remove then None else Some (cbt_value cbt)) upd_entry
      = Some (0%Z, σ', cbt') →
      cbt' = cbt ∧
      ∃ upd, (next_block σ ≤ upd)%positive ∧ upd ∈ live σ' ∧
        chain σ' (load σ' (upd_entry_of σ cbt)) (upd :: obsolete_keep E σ l) ∧
        (if is_remove then size_of σ' upd = e_WT_UPDATE_DELETED_VALUE E
         else upd_data σ' !! upd = Some (cbt_value cbt) ∧
              size_of σ' upd
              = WT_STORE_SIZE (Z.of_nat (length (cbt_value cbt)))) ∧
        (∀ u, u ∈ obsolete_cut E σ l → u ∉ live σ')) as Hmain.
  { intros σa upd_entry Hhead He Hfr Htx Hnb.
    assert (load σa upd_entry = load σ upd_entry) as Hle.
    { apply Hfr. intros ->. done. }
    destruct (row_modify_update_quiet E fuel σa cbt
                (if is_remove then None else Some (cbt_value cbt)) upd_entry l)
      as [Hex Hok]; try done.
    - rewrite Hle, He. eapply lseg_frame; [|exact Hc].
      intros u _. by apply Hfr.
    - intros u Hu. apply Hold in Hu. lia.
    - split; [done|]. intros σ' cbt' Hrun.
      destruct (Hok σ' cbt' Hrun) as (-> & Hlive & Hch & Hval & Hcut).
      split; [done|]. exists (next_block σa). split; [done|]. split; [done|].
      rewrite (obsolete_keep_agree E σ σa) in Hch
        by (intros; unfold txnid_of; by rewrite Htx).
      rewrite (obsolete_cut_agree E σ σa) in Hcut
        by (intros; unfold txnid_of; by rewrite Htx).
      rewrite <- He. split; [done|]. split; [|done].
      by destruct is_remove. }
  unfold __wt_row_modify. rewrite Hcmp. simpl.
  unfold upd_entry_of in *.
  destruct (cbt_ins cbt) as [ins|] eqn:Hins.
  { apply Hmain; try done; lia. }
  unfold alloc_upd_array.
  destruct (load σ PageUpd) as [arr|] eqn:Harr.
  { simpl. rewrite Harr. apply Hmain; try done; lia. }
  unfold alloc_and_publish, __wt_calloc_def, __wt_calloc, row_modify_err.
  destruct (negb (e_calloc_ret E σ =? 0)%Z) eqn:Hcal.
  { cbv beta iota zeta. rewrite Hcal.
    split; [eauto|]. intros σ' cbt' [= Hz _ _].
    apply negb_true_iff, Z.eqb_neq in Hcal. congruence. }
  rewrite (Hq RaceUpdArray). unfold WT_ATOMIC_CAS.
  rewrite decide_True by done.
  cbv beta iota zeta. simpl negb. cbv iota.
  set (σa := __wt_cache_page_inmem_incr _ _).
  assert (load σa PageUpd = Some (next_block σ)) as -> by apply load_store_eq.
  simpl default in *.
  apply Hmain; try done.
  - intros f Hf'. unfold σa.
    change (load (store PageUpd (Some (next_block σ))
                    (set_next_block (Pos.succ (next_block σ))
                       (set_live (λ s, {[next_block σ]} ∪ s) σ))) f = load σ f).
    by rewrite load_store_ne.
  - simpl. lia.
Qed.


(** X6: an insert of a key that is not on the page, into a skip list that
    exists, run without interference: the call always returns, and when it
    returns 0 the cursor refers to a fresh insert node that holds the
    cursor's key and a fresh update with the cursor's value (or the
    tombstone mark); on every level below the depth chosen, if the cursor's
    stack held the position behind the nodes [l1] of the level's list [l1 ++
    l2], the list is now [l1 ++ ins :: l2], with its tail. *)
Theorem row_modify_insert_round_trip E fuel σ cbt is_remove arr h :
  quiet E → e_WT_RESTART E ≠ 0%Z →
  cbt_compare cbt ≠ 0%Z →
  load σ PageIns = Some arr →
  load σ (InsArr arr (ins_slot_of E cbt)) = Some h →
  stack_typed (cbt_ins_stack cbt) →
  (∀ i n, stack_at (cbt_ins_stack cbt) i = Some (InsNext n i) →
          (n < next_block σ)%positive) →
  (∃ res, __wt_row_modify E fuel σ cbt is_remove = Some res) ∧
  ∀ σ' cbt',
    __wt_row_modify E fuel σ cbt is_remove = Some (0%Z, σ', cbt') →
    cbt_ins cbt' = Some (next_block σ) ∧
    next_block σ ∈ live σ' ∧ Pos.succ (next_block σ) ∈ live σ' ∧
    ins_key σ' !! next_block σ = Some (cbt_key cbt) ∧
    load σ' (InsUpd (next_block σ)) = Some (Pos.succ (next_block σ)) ∧
    (if is_remove
     then size_of σ' (Pos.succ (next_block σ)) = e_WT_UPDATE_DELETED_VALUE E
     else upd_data σ' !! Pos.succ (next_block σ) = Some (cbt_value cbt)) ∧
    ∀ i l1 l2,
      i < e_skip_choose_depth E σ →
      stack_at (cbt_ins_stack cbt) i = Some (pred_field h i l1) →
      level_list σ h i (l1 ++ l2) → level_tail σ h i (l1 ++ l2) →
      (∀ n, n ∈ l1 ++ l2 → (n < next_block σ)%positive) →
      level_list σ' h i (l1 ++ next_block σ :: l2) ∧
      level_tail σ' h i (l1 ++ next_block σ :: l2).
Proof.
  intros Hq Hrestart Hcmp Harr Hhead Hty Hstk.
  unfold __wt_row_modify. apply Z.eqb_neq in Hcmp. rewrite Hcmp.
  unfold alloc_ins_array. rewrite Harr. simpl negb. cbv iota. rewrite Harr.
  fold (ins_slot_of E cbt).
  unfold alloc_ins_head. rewrite Hhead. simpl negb. cbv iota. rewrite Hhead.
  set (ins := next_block σ). set (upd := Pos.succ ins).
  set (value := if is_remove then None else Some (cbt_value cbt)).
  set (d := e_skip_choose_depth E σ).
  unfold row_modify_insert, row_modify_err, __wt_row_insert_alloc, __wt_calloc.
  fold d.
  destruct (negb (e_calloc_ret E σ =? 0)%Z) eqn:Hcal.
  { split; [eauto|]. intros σ' cbt' [= Hz _ _].
    apply negb_true_iff, Z.eqb_neq in Hcal. congruence. }
  fold ins. set (σ1 := set_ins_key _ _).
  unfold __wt_update_alloc, __wt_calloc.
  destruct (negb (e_calloc_ret E σ1 =? 0)%Z) eqn:Hcal1.
  { split; [eauto|]. intros σ' cbt' [= Hz _ _].
    apply negb_true_iff, Z.eqb_neq in Hcal1. congruence. }
  change (next_block σ1) with upd.
  set (σ2 := match value with
             | Some v => _
             | None => _
             end).
  unfold __wt_txn_modify.
  destruct (negb (e_txn_modify_ret E σ2 =? 0)%Z) eqn:Hmod.
  { cbv beta iota zeta. rewrite Hmod. split; [eauto|].
    intros σ' cbt' [= Hz _ _].
    apply negb_true_iff, Z.eqb_neq in Hmod. congruence. }
  cbv beta iota zeta. simpl negb. cbv iota.
  set (σ3 := set_txn_log _ _).
  set (σ4 := store (InsUpd ins) (Some upd) σ3).
  change (cbt_ins_stack (cbt_set_ins (Some ins) cbt)) with (cbt_ins_stack cbt).
  change (cbt_next_stack (cbt_set_ins (Some ins) cbt)) with (cbt_next_stack cbt).
  unfold __wt_insert_serial. rewrite (Hq RaceSerial σ4).
  unfold __wt_insert_serial_func.
  destruct (negb (__wt_page_write_gen_wrapped_check _ _ σ4 =? 0)%Z) eqn:Hw.
  { cbv beta iota zeta. rewrite Hw. split; [eauto|].
    intros σ' cbt' [= Hz _ _].
    apply negb_true_iff, Z.eqb_neq in Hw. congruence. }
  destruct (existsb _ _) eqn:Hstale.
  { cbv beta iota zeta.
    assert (negb (e_WT_RESTART E =? 0)%Z = true) as ->
      by (by apply negb_true_iff, Z.eqb_neq).
    split; [eauto|]. intros σ' cbt' [= Hz _ _]. congruence. }
  cbv beta iota zeta. simpl negb. cbv iota.
  split; [eauto|]. intros σ' cbt' [= <- <-].
  change (fold_left (link_pred h (cbt_ins_stack cbt) ins) (seq 0 d)
            (fold_left (set_new_next (cbt_ins_stack cbt) ins) (seq 0 d) σ4))
    with (publish_prefix h (cbt_ins_stack cbt) ins d d σ4).
  set (σ5 := publish_prefix h (cbt_ins_stack cbt) ins d d σ4).
  assert (∀ i, i < d → stack_at (cbt_ins_stack cbt) i ≠ Some (InsNext ins i))
    as Hfresh.
  { intros i _ Hs. apply Hstk in Hs. unfold ins in Hs. lia. }
  destruct (publish_prefix_loads h (cbt_ins_stack cbt) ins d d σ4)
    as (HA & _ & _); [done| |done|].
  { intros i p _. apply Hty. }
  assert (load σ5 (InsUpd ins) = Some upd) as Hiu.
  { unfold σ5. rewrite HA.
    - apply load_store_eq.
    - by intros i _.
    - intros i Hi. split; [done|]. intros Hs. by apply Hty in Hs. }
  assert (live σ5 = live σ4 ∧ ins_key σ5 = ins_key σ4 ∧
          upd_data σ5 = upd_data σ4 ∧ upd_size σ5 = upd_size σ4)
    as (Hl5 & Hk5 & Hd5 & Hs5).
  { unfold σ5, publish_prefix.
    assert (∀ (f : state → nat → state) n s,
              (∀ s i, live (f s i) = live s ∧ ins_key (f s i) = ins_key s ∧
                      upd_data (f s i) = upd_data s ∧ upd_size (f s i) = upd_size s) →
              live (fold_left f (seq 0 n) s) = live s ∧
              ins_key (fold_left f (seq 0 n) s) = ins_key s ∧
              upd_data (fold_left f (seq 0 n) s) = upd_data s ∧
              upd_size (fold_left f (seq 0 n) s) = upd_size s) as Hfold.
    { intros f n s Hf. generalize (seq 0 n). intros ls. revert s.
      induction ls as [|x ls IH]; intros s; simpl; [done|].
      destruct (IH (f s x)) as (-> & -> & -> & ->). apply Hf. }
    destruct (Hfold (link_pred h (cbt_ins_stack cbt) ins) d
                (fold_left (set_new_next (cbt_ins_stack cbt) ins) (seq 0 d) σ4))
      as (-> & -> & -> & ->).
    { intros s i. unfold link_pred. destruct (stack_at _ _); [|done].
      by destruct (is_new_tail _ _ _ _). }
    apply Hfold. intros s i. unfold set_new_next. by destruct (stack_at _ _). }
  simpl. unfold size_of. simpl. rewrite Hl5, Hk5, Hd5, Hs5.
  split; [done|].
  split.
  { unfold σ4, σ3, σ2, σ1; destruct value; simpl;
      apply elem_of_union; right; apply elem_of_union; left;
      by apply elem_of_singleton. }
  split.
  { unfold σ4, σ3, σ2, σ1; destruct value; simpl;
      apply elem_of_union; left; by apply elem_of_singleton. }
  split; [unfold σ4, σ3, σ2, σ1; destruct value; simpl; by rewrite lookup_insert_eq|].
  split; [exact Hiu|].
  split.
  { unfold σ4, σ3, σ2, σ1, value. destruct is_remove; simpl;
      by rewrite lookup_insert_eq. }
  intros i l1 l2 Hi Hp Hlist Htail Hlt.
  assert (∀ f, f ≠ InsUpd ins → load σ4 f = load σ f) as Hfr4.
  { intros f Hf. unfold σ4. rewrite load_store_ne by done.
    unfold σ3, σ2, σ1. by destruct value. }
  destruct (publish_prefix_level h (cbt_ins_stack cbt) ins d d σ4 i l1 l2)
    as (Hl & _ & Ht); try done.
  - intros j p _. apply Hty.
  - unfold level_list. rewrite Hfr4 by done.
    eapply skip_seg_frame; [|exact Hlist]. intros n _. by apply Hfr4.
  - intros Hin. apply Hlt in Hin. unfold ins in Hin. lia.
  - rewrite decide_True in Hl, Ht by done.
    split.
    + by apply (level_list_mem σ5).
    + apply Ht. unfold level_tail. by rewrite Hfr4.
Qed.

(** *** Allocation and accounting *)

Section AllocFacts.

Variable sizeof_WT_UPDATE : Z.
Variable WT_UPDATE_DELETED_VALUE : Z.
Variable calloc_ret : state → Z.

(** X7: what [__wt_update_alloc] reports as the size of a node is what
    [__wt_update_obsolete_free] takes off the page's byte count when the
    node is freed, for a value shorter than [2^32] bytes whose length is not
    the tombstone mark. *)
Theorem update_alloc_free_round_trip σ value upd size σ1 σ2 fuel :
  __wt_update_alloc sizeof_WT_UPDATE WT_UPDATE_DELETED_VALUE calloc_ret σ value
  = (0%Z, Some upd, size, σ1) →
  (0 ≤ sizeof_WT_UPDATE)%Z →
  (sizeof_WT_UPDATE + Z.of_nat (length (default [] value)) < 2 ^ 64)%Z →
  (Z.of_nat (length (default [] value)) < 2 ^ 32)%Z →
  (value ≠ None → Z.of_nat (length (default [] value)) ≠ WT_UPDATE_DELETED_VALUE) →
  upd_size σ2 = upd_size σ1 → load σ2 (UpdNext upd) = None → 1 < fuel →
  ∃ σ3,
    __wt_update_obsolete_free sizeof_WT_UPDATE WT_UPDATE_DELETED_VALUE fuel σ2
      (Some upd) = Some σ3 ∧
    memory_footprint σ3 = (memory_footprint σ2 - size)%Z ∧
    upd ∉ live σ3.
Proof.
  intros Ha H0 Hmax H32 Hdel Hsz Hnext Hfuel.
  destruct (update_alloc_footprint sizeof_WT_UPDATE WT_UPDATE_DELETED_VALUE
              calloc_ret σ value 0%Z upd size σ1 Ha H0 Hmax H32 Hdel)
    as [Hfp _].
  assert (0 ≤ size)%Z as Hsize.
  { unfold __wt_update_alloc in Ha.
    destruct (__wt_calloc calloc_ret _ _ σ) as [[r0 [a|]] σ0]; [|done].
    injection Ha as _ <- _. unfold size_t_wrap. apply Z.mod_pos_bound. lia. }
  destruct (obsolete_free_walk_chain sizeof_WT_UPDATE WT_UPDATE_DELETED_VALUE
              σ2 (Some upd) [upd] fuel 0%Z)
    as (σ3 & Hw & Hlive & _ & _ & Hmf).
  { split; [done|]. exact Hnext. }
  { simpl. lia. }
  rewrite (list_footprint_ext _ _ σ1 σ2) in Hw by done.
  simpl in Hw. rewrite Hfp in Hw.
  assert (size_t_wrap (0 + (size + 0)) = size) as Hwrap.
  { unfold size_t_wrap. rewrite Z.add_0_l, Z.add_0_r.
    unfold __wt_update_alloc in Ha.
    destruct (__wt_calloc calloc_ret _ _ σ) as [[r0 [a|]] σ0]; [|done].
    injection Ha as _ <- _. unfold size_t_wrap. apply Z.mod_mod. lia. }
  rewrite Hwrap in Hw.
  unfold __wt_update_obsolete_free. rewrite Hw.
  eexists. split; [done|]. split.
  - destruct (size =? 0)%Z eqn:E0; simpl.
    + apply Z.eqb_eq in E0. lia.
    + lia.
  - intros Hin.
    assert (upd ∈ live σ3) as Hin3 by (by destruct (negb _)).
    apply Hlive in Hin3 as [_ Hn]. apply Hn. by left.
Qed.

(** X8: a node allocated by [__wt_update_alloc] keeps the value's bytes, and
    it reads as deleted exactly when it was allocated for a remove or the
    length of its value is the tombstone mark modulo [2^32]. *)
Theorem update_alloc_marks_tombstones σ value ret upd size σ' :
  __wt_update_alloc sizeof_WT_UPDATE WT_UPDATE_DELETED_VALUE calloc_ret σ value
  = (ret, Some upd, size, σ') →
  ret = 0%Z ∧ upd = next_block σ ∧
  (∀ v, value = Some v → upd_data σ' !! upd = Some v) ∧
  (WT_UPDATE_DELETED_ISSET WT_UPDATE_DELETED_VALUE σ' upd = true ↔
   value = None ∨
   ∃ v, value = Some v ∧
        WT_STORE_SIZE (Z.of_nat (length v)) = WT_UPDATE_DELETED_VALUE).
Proof.
  unfold __wt_update_alloc.
  destruct (__wt_calloc calloc_ret _ _ σ) as [[ret0 r] σ1] eqn:Hc.
  apply calloc_inv in Hc as [(-> & _ & _ & ->)|(-> & -> & _ & ->)]; [done|].
  intros [= <- <- <- <-]. split; [done|]. split; [done|].
  unfold WT_UPDATE_DELETED_ISSET, size_of.
  destruct value as [v|]; simpl; rewrite !lookup_insert_eq; simpl.
  - split; [by intros ? [= <-]|]. rewrite bool_decide_eq_true. split.
    + intros H. right. by exists v.
    + intros [?|(v' & [= <-] & H)]; done.
  - split; [done|]. rewrite bool_decide_eq_true. split; [by left | done].
Qed.

End AllocFacts.

Lemma update_alloc_free_round_trip_witness :
  ∃ σ3,
    __wt_update_obsolete_free 40 4294967295 2
      (__wt_update_alloc 40 4294967295 (λ _, 0%Z) empty_state
         (Some [Byte.x76; Byte.x31])).2
      (Some 1%positive) = Some σ3 ∧
    memory_footprint σ3 = (0 - 42)%Z ∧ 1%positive ∉ live σ3.
Proof.
  apply (update_alloc_free_round_trip 40 4294967295 (λ _, 0%Z) empty_state
           (Some [Byte.x76; Byte.x31]) 1 42
           (__wt_update_alloc 40 4294967295 (λ _, 0%Z) empty_state
              (Some [Byte.x76; Byte.x31])).2
           (__wt_update_alloc 40 4294967295 (λ _, 0%Z) empty_state
              (Some [Byte.x76; Byte.x31])).2 2).
  - vm_compute. reflexivity.
  - lia.
  - simpl. lia.
  - simpl. lia.
  - simpl. intros _. lia.
  - reflexivity.
  - reflexivity.
  - lia.
Defined.

Lemma update_alloc_marks_tombstones_witness :
  WT_UPDATE_DELETED_ISSET 4294967295
    (__wt_update_alloc 40 4294967295 (λ _, 0%Z) empty_state None).2 1 = true.
Proof.
  destruct (update_alloc_marks_tombstones 40 4294967295 (λ _, 0%Z) empty_state
              None 0%Z 1 40
              (__wt_update_alloc 40 4294967295 (λ _, 0%Z) empty_state None).2)
    as (_ & _ & _ & H).
  - vm_compute. reflexivity.
  - apply H. left. reflexivity.
Defined.

(** *** A second pass of the collector *)

Lemma obsolete_cut_keep E σ l : obsolete_cut E σ (obsolete_keep E σ l) = [].
Proof.
  induction l as [|u l IH]; [done|]. simpl.
  destruct (e_txn_visible_all E (txnid_of σ u)) eqn:Hv; simpl; by rewrite Hv.
Qed.

Lemma obsolete_check_nothing_to_cut E σ p l fuel :
  chain σ p l → length l < fuel → obsolete_cut E σ l = [] →
  __wt_update_obsolete_check (e_txn_visible_all E) (e_racer E RaceTruncate)
    fuel σ p = Some (None, σ).
Proof.
  revert p fuel. induction l as [|u l IH]; intros p fuel Hc Hf Hcut.
  - unfold chain in Hc. simpl in Hc. subst p.
    by destruct fuel; [simpl in Hf; lia|].
  - destruct Hc as [-> Hc]. destruct fuel as [|fuel]; [simpl in Hf; lia|].
    simpl in *. destruct (e_txn_visible_all E (txnid_of σ u)).
    + subst l. simpl in Hc. unfold obsolete_truncate. by rewrite Hc.
    + apply IH; [done | lia | done].
Qed.

(** X9: once the collector has cut a list, without interference, a second
    pass over the same list finds nothing to discard and writes nothing. *)
Theorem obsolete_check_twice_finds_nothing E σ p l fuel r σ' :
  quiet E → chain σ p l → length l < fuel →
  __wt_update_obsolete_check (e_txn_visible_all E) (e_racer E RaceTruncate)
    fuel σ p = Some (r, σ') →
  __wt_update_obsolete_check (e_txn_visible_all E) (e_racer E RaceTruncate)
    fuel σ' p = Some (None, σ').
Proof.
  intros Hq Hc Hf Hrun.
  destruct (obsolete_check_quiet E σ p l fuel Hq Hc Hf)
    as (σ1 & Hchk & Hk & _ & Heff).
  rewrite Hchk in Hrun. injection Hrun as <- <-.
  assert (upd_txnid σ1 = upd_txnid σ) as Htx
    by (by destruct Heff as [->|(u & _ & ->)]).
  apply (obsolete_check_nothing_to_cut E σ1 p (obsolete_keep E σ l)).
  - done.
  - pose proof (obsolete_keep_cut E σ l) as Hkc.
    apply (f_equal length) in Hkc. rewrite length_app in Hkc. lia.
  - rewrite (obsolete_cut_ext E σ σ1) by done. apply obsolete_cut_keep.
Qed.

Lemma obsolete_check_twice_finds_nothing_witness :
  __wt_update_obsolete_check (e_txn_visible_all ex_ext)
    (e_racer ex_ext RaceTruncate) 4
    (store (UpdNext 2) None ex_three_versions) (Some 3%positive)
  = Some (None, store (UpdNext 2) None ex_three_versions).
Proof.
  apply (obsolete_check_twice_finds_nothing ex_ext ex_three_versions
           (Some 3%positive) [3%positive; 2%positive; 1%positive] 4
           (Some 1%positive)).
  - intros pt s. reflexivity.
  - vm_compute. auto.
  - simpl. lia.
  - vm_compute. reflexivity.
Defined.

(** *** The example page *)

Lemma ex_page_heads :
  page_heads ex_ext ex_page ex_page_gaps = [UpdArr 9 0; UpdArr 9 1; InsUpd 6].
Proof. vm_compute. reflexivity. Qed.

Lemma row_leaf_obsolete_prunes_every_list_witness :
  ∃ σ',
    __wt_row_leaf_obsolete ex_ext 4 ex_page = Some σ' ∧
    chain σ' (load σ' (UpdArr 9 0)) [3%positive; 2%positive] ∧
    chain σ' (load σ' (InsUpd 6)) [5%positive] ∧
    memory_footprint σ' = 918%Z.
Proof.
  destruct (row_leaf_obsolete_prunes_every_list ex_ext ex_page ex_page_gaps
              ex_page_chains 4) as (σ' & Hrun & Hk & _ & Hm & _).
  - intros pt s. reflexivity.
  - split.
    + intros [|[|[|slot]]] Hs; [vm_compute; auto..|].
      unfold ex_ext, ex_ext_of in Hs. simpl in Hs. lia.
    + intros hd Hhd. rewrite ex_page_heads in Hhd.
      apply list_elem_of_In in Hhd. simpl in Hhd.
      destruct Hhd as [<-|[<-|[<-|[]]]]; vm_compute; auto.
    + rewrite ex_page_heads. apply (bool_decide_unpack _). vm_compute. reflexivity.
  - intros [|[|[|slot]]] Hs; [vm_compute; lia..|].
    unfold ex_ext, ex_ext_of in Hs. simpl in Hs. lia.
  - intros hd Hhd. rewrite ex_page_heads in Hhd.
    apply list_elem_of_In in Hhd. simpl in Hhd.
    destruct Hhd as [<-|[<-|[<-|[]]]]; vm_compute; lia.
  - simpl. lia.
  - intros hd u Hhd Hu. rewrite ex_page_heads in Hhd.
    apply list_elem_of_In in Hhd. simpl in Hhd.
    destruct Hhd as [<-|[<-|[<-|[]]]];
      apply list_elem_of_In in Hu; vm_compute in Hu;
      repeat (destruct Hu as [<-|Hu]; [vm_compute; discriminate|]);
      destruct Hu.
  - intros hd Hhd. rewrite ex_page_heads in Hhd.
    apply list_elem_of_In in Hhd. simpl in Hhd.
    destruct Hhd as [<-|[<-|[<-|[]]]]; vm_compute; reflexivity.
  - exists σ'. split; [exact Hrun|]. split; [|split].
    + apply (Hk (UpdArr 9 0)). rewrite ex_page_heads. by left.
    + apply (Hk (InsUpd 6)). rewrite ex_page_heads. right. right. by left.
    + rewrite Hm, ex_page_heads. vm_compute. reflexivity.
Defined.

Lemma row_modify_update_round_trip_witness :
  ∃ σ',
    __wt_row_modify ex_ext 4 ex_page ex_cbt_first false
    = Some (0%Z, σ', ex_cbt_first) ∧
    chain σ' (load σ' (UpdArr 9 0)) [10%positive; 3%positive; 2%positive] ∧
    upd_data σ' !! 10%positive = Some [Byte.x76; Byte.x33] ∧
    1%positive ∉ live σ'.
Proof.
  destruct (row_modify_update_round_trip ex_ext 4 ex_page ex_cbt_first false
              [3%positive; 2%positive; 1%positive]) as [_ H].
  - intros pt s. reflexivity.
  - reflexivity.
  - vm_compute. auto.
  - simpl. lia.
  - intros u Hu. apply list_elem_of_In in Hu. simpl in Hu.
    destruct Hu as [<-|[<-|[<-|[]]]]; reflexivity.
  - destruct (__wt_row_modify ex_ext 4 ex_page ex_cbt_first false)
      as [[[ret σ'] cbt']|] eqn:Hrun; [|vm_compute in Hrun; discriminate Hrun].
    assert (ret = 0%Z) as -> by (vm_compute in Hrun; congruence).
    destruct (H σ' cbt' eq_refl) as (-> & upd & Hlo & Hlive & Hch & [Hd _] & Hcut).
    assert (upd = 10%positive) as ->.
    { destruct Hch as [Hhd _]. vm_compute in Hrun. injection Hrun as <-.
      vm_compute in Hhd. congruence. }
    exists σ'. split; [reflexivity|]. split; [exact Hch|]. split; [exact Hd|].
    apply Hcut. vm_compute. by left.
Defined.

Lemma row_modify_insert_round_trip_witness :
  ∃ σ' cbt',
    __wt_row_modify ex_ext 4 ex_page ex_cbt_gap false = Some (0%Z, σ', cbt') ∧
    cbt_ins cbt' = Some 10%positive ∧
    ins_key σ' !! 10%positive = Some [Byte.x6d] ∧
    level_list σ' 7 0 [6%positive; 10%positive] ∧
    level_list σ' 7 1 [10%positive].
Proof.
  destruct (row_modify_insert_round_trip ex_ext 4 ex_page ex_cbt_gap false 8 7)
    as [_ H].
  - intros pt s. reflexivity.
  - discriminate.
  - discriminate.
  - reflexivity.
  - reflexivity.
  - intros [|[|[|i]]] p; simpl; intros [= <-]; reflexivity.
  - intros [|[|[|i]]] n; simpl; intros [= <-]. reflexivity.
  - destruct (__wt_row_modify ex_ext 4 ex_page ex_cbt_gap false)
      as [[[ret σ'] cbt']|] eqn:Hrun; [|vm_compute in Hrun; discriminate Hrun].
    assert (ret = 0%Z) as -> by (vm_compute in Hrun; congruence).
    destruct (H σ' cbt' eq_refl) as (Hins & _ & _ & Hkey & _ & _ & Hlev).
    exists σ', cbt'. split; [reflexivity|]. split; [exact Hins|].
    split; [exact Hkey|]. split.
    + apply (Hlev 0 [6%positive] []); [simpl; lia | reflexivity | | | ].
      * vm_compute. auto.
      * reflexivity.
      * intros n Hn. apply list_elem_of_In in Hn. simpl in Hn.
        destruct Hn as [<-|[]]. reflexivity.
    + apply (Hlev 1 [] []); [simpl; lia | reflexivity | | | ].
      * vm_compute. auto.
      * reflexivity.
      * intros n Hn. by apply not_elem_of_nil in Hn.
Defined.

End RowModifyFacts.

Module FormatOpsFacts.

Import FormatOps.

Local Open Scope Z_scope.

(** * Facts about the workload driver *)

(** ** The append table *)

Lemma in_use_cons x l :
  in_use (x :: l) = if decide (x ≠ 0) then S (in_use l) else in_use l.
Proof. unfold in_use. rewrite filter_cons. by case_decide. Qed.

Lemma in_use_release l i x :
  l !! i = Some x → x ≠ 0 → S (in_use (<[i := 0]> l)) = in_use l.
Proof.
  revert i. induction l as [|y l IH]; intros [|i]; simpl; try done.
  - intros [= ->] Hx. rewrite !in_use_cons.
    rewrite decide_False by lia. by rewrite decide_True.
  - intros Hl Hx. rewrite !in_use_cons. case_decide; [f_equal|]; by apply IH.
Qed.

Lemma in_use_enter l i k :
  l !! i = Some 0 → (in_use (<[i := k]> l) ≤ S (in_use l))%nat.
Proof.
  revert i. induction l as [|y l IH]; intros [|i]; simpl; try done.
  - intros [= ->]. rewrite !in_use_cons.
    rewrite (decide_False (P := 0 ≠ 0)) by lia. case_decide; lia.
  - intros Hl. rewrite !in_use_cons. specialize (IH i Hl). case_decide; lia.
Qed.

Lemma elem_of_insert_inv (l : list Z) i v x :
  x ∈ <[i := v]> l → x = v ∨ x ∈ l.
Proof.
  revert i. induction l as [|y l IH]; intros [|i]; simpl.
  - auto.
  - auto.
  - intros [->|?]%elem_of_cons; [by left | right; by right].
  - intros [->|Hx]%elem_of_cons; [right; by left|].
    destruct (IH i Hx); [by left | right; by right].
Qed.

Lemma elem_of_release_inv (l : list Z) i x :
  x ∈ <[i := 0]> l → x ≠ 0 → x ∈ l.
Proof. intros [->|?]%elem_of_insert_inv ?; done. Qed.

Lemma u64_small z : 0 ≤ z < 2 ^ 64 → u64 z = z.
Proof. apply Z.mod_small. Qed.

Lemma table_append_resolve_inv rows0 recorded fuel g :
  table_inv rows0 g recorded →
  0 ≤ rows0 → rows0 + Z.of_nat (length recorded) < 2 ^ 64 - 1 →
  (in_use (append g) < fuel)%nat →
  ∃ g', table_append_resolve fuel g = Some g' ∧
        table_inv rows0 g' recorded ∧
        rows g ≤ rows g' ∧
        (∀ x, x ∈ append g' → x ≠ rows g' + 1) ∧
        length (append g') = length (append g).
Proof.
  intros Hinv H0 Hmax. revert g Hinv.
  induction fuel as [|fuel IH]; intros g [Hr Hc Hw Hb] Hfuel; [lia|].
  simpl. rewrite u64_small by lia.
  destruct (list_find _ _) as [[i x]|] eqn:Hfind.
  - apply list_find_Some in Hfind as (Hi & -> & _).
    assert (rows g + 1 ≠ 0) as Hnz by lia.
    pose proof (in_use_release _ _ _ Hi Hnz) as Hrel.
    destruct (IH {| rows := rows g + 1; append := <[i := 0]> (append g);
                    append_cnt := u64 (append_cnt g - 1) |})
      as (g' & Hres & Hinv' & Hle & Hnext & Hlen).
    + split; simpl.
      * lia.
      * intros k Hk. destruct (decide (k = rows g + 1)) as [->|].
        -- apply Hw; [|done]. by eapply list_elem_of_lookup_2.
        -- apply Hc. lia.
      * intros x Hx Hx0. apply Hw; [|done]. by eapply elem_of_release_inv.
      * lia.
    + simpl. lia.
    + exists g'. split; [done|]. split; [done|]. simpl in *.
      split; [lia|]. split; [done|]. by rewrite Hlen, length_insert.
  - exists g. split; [done|]. split; [done|]. split; [lia|]. split; [|done].
    apply list_find_None in Hfind. rewrite Forall_forall in Hfind.
    intros x Hx. by apply Hfind, list_elem_of_In.
Qed.

Lemma length_filter_le {A} (P : A → Prop) `{∀ x, Decision (P x)} (l : list A) :
  (length (filter P l) ≤ length l)%nat.
Proof.
  induction l as [|x l IH]; [done|]. rewrite filter_cons.
  case_decide; simpl; lia.
Qed.

Lemma table_append_pass_inv rows0 recorded keyno g :
  table_inv rows0 g recorded →
  (∀ x, x ∈ append g → x ≠ rows g + 1) →
  0 ≤ rows0 → rows0 + Z.of_nat (length recorded) + 1 < 2 ^ 64 - 1 →
  ∃ dn g', table_append_pass keyno g = Some (dn, g') ∧
    table_inv rows0 g' (if dn then keyno :: recorded else recorded) ∧
    (∀ x, x ∈ append g' → x ≠ rows g' + 1) ∧
    length (append g') = length (append g).
Proof.
  intros [Hr Hc Hw Hb] Hnext H0 Hmax. unfold table_append_pass.
  rewrite u64_small by lia. case_bool_decide as Hkey.
  - subst keyno.
    destruct (table_append_resolve_inv rows0 ((rows g + 1) :: recorded)
                (S (length (append g)))
                {| rows := rows g + 1; append := append g;
                   append_cnt := append_cnt g |})
      as (g' & -> & Hinv' & _ & Hnext' & Hlen).
    + split; simpl.
      * lia.
      * intros k Hk. destruct (decide (k = rows g + 1)) as [->|].
        -- by left.
        -- right. apply Hc. lia.
      * intros x Hx Hx0. right. by apply Hw.
      * lia.
    + done.
    + simpl. lia.
    + simpl. pose proof (length_filter_le (λ x, x ≠ 0) (append g)).
      unfold in_use. lia.
    + by exists true, g'.
  - destruct (list_find _ _) as [[i x]|] eqn:Hfind.
    + apply list_find_Some in Hfind as (Hi & -> & _).
      exists true. eexists. split; [done|]. simpl.
      pose proof (in_use_enter _ _ keyno Hi) as Hent.
      split; [split; simpl|split].
      * done.
      * intros k Hk. right. by apply Hc.
      * intros x [->|Hx]%elem_of_insert_inv Hx0; [by left|]. right. by apply Hw.
      * lia.
      * intros x [->|Hx]%elem_of_insert_inv; [done | by apply Hnext].
      * apply length_insert.
    + exists false, g. by repeat split.
Qed.

Lemma table_append_run_inv rows0 keys g recorded :
  table_inv rows0 g recorded →
  (∀ x, x ∈ append g → x ≠ rows g + 1) →
  0 ≤ rows0 →
  rows0 + Z.of_nat (length recorded) + Z.of_nat (length keys) < 2 ^ 64 - 1 →
  ∃ g' recorded', table_append_run keys g recorded = Some (g', recorded') ∧
    table_inv rows0 g' recorded' ∧
    (∀ x, x ∈ append g' → x ≠ rows g' + 1).
Proof.
  revert g recorded. induction keys as [|keyno keys IH];
    intros g recorded Hinv Hnext H0 Hmax; simpl.
  - by exists g, recorded.
  - simpl in Hmax.
    destruct (table_append_pass_inv rows0 recorded keyno g)
      as (dn & g1 & -> & Hinv1 & Hnext1 & _); [done | done | done | lia |].
    apply IH; [done | done | done |].
    destruct dn; simpl; lia.
Qed.

(** C8: over every order in which appends complete, the row count moves
    only in a pass made for record number [rows + 1], every row counted
    since the start was recorded by its own thread before, and after every
    pass no record number waiting in the table is the next row, so the
    sweep took in every completed record it could. *)
Theorem rows_never_pass_unrecorded_insert (c_threads rows0 : Z) (keys : list Z) :
  0 ≤ rows0 →
  rows0 + Z.of_nat (length keys) < 2 ^ 64 - 1 →
  (∀ keyno g dn g',
     table_append_pass keyno g = Some (dn, g') →
     rows g' ≠ rows g → keyno = u64 (rows g + 1) ∧ dn = true) ∧
  ∃ g recorded,
    table_append_run keys
      (table_append_init c_threads
         {| rows := rows0; append := []; append_cnt := 0 |}) []
    = Some (g, recorded) ∧
    rows0 ≤ rows g ∧
    (∀ k, rows0 < k ≤ rows g → k ∈ recorded) ∧
    (∀ x, x ∈ append g → x ≠ 0 → x ∈ recorded ∧ x ≠ rows g + 1) ∧
    (∀ k, k ∈ recorded → k ∈ keys).
Proof.
  intros H0 Hmax. split.
  - intros keyno g dn g'. unfold table_append_pass.
    case_bool_decide as Hkey.
    + destruct (table_append_resolve _ _); [|done]. by intros [= <- <-].
    + destruct (list_find _ _) as [[i x]|]; intros [= <- <-]; done.
  - set (g0 := table_append_init c_threads _).
    assert (∀ x, x ∈ append g0 → x = 0) as Hzero.
    { intros x Hx. simpl in Hx. by apply elem_of_replicate in Hx as [-> _]. }
    destruct (table_append_run_inv rows0 keys g0 [])
      as (g & recorded & Hrun & [Hr Hc Hw Hb] & Hnext).
    + split; simpl.
      * lia.
      * intros k Hk. lia.
      * intros x Hx Hx0. by apply Hzero in Hx.
      * assert (in_use (replicate (Z.to_nat (u64 (c_threads * 10))) 0) = 0%nat)
          as ->; [|lia].
        induction (Z.to_nat _) as [|n IH]; [done|]. simpl.
        rewrite in_use_cons. by rewrite decide_False by lia.
    + intros x Hx. apply Hzero in Hx. simpl. lia.
    + done.
    + simpl. lia.
    + exists g, recorded. split; [done|]. split; [done|]. split; [done|].
      split; [by split; [apply Hw | apply Hnext]|].
      clear -Hrun. revert Hrun. generalize g0.
      assert (∀ keys g1 r1 g recorded,
                table_append_run keys g1 r1 = Some (g, recorded) →
                ∀ k, k ∈ recorded → k ∈ r1 ∨ k ∈ keys) as Hgen.
      { clear. induction keys as [|keyno keys IH]; intros g1 r1 g recorded; simpl.
        - intros [= <- <-] k Hk. by left.
        - destruct (table_append_pass keyno g1) as [[dn g2]|]; [|done].
          intros Hrun k Hk. destruct (IH _ _ _ _ Hrun k Hk) as [Hin|Hin].
          + destruct dn; [|by left].
            apply elem_of_cons in Hin as [->|Hin]; [right; by left | by left].
          + right. by right. }
      intros g1 Hrun k Hk. destruct (Hgen _ _ _ _ _ Hrun k Hk) as [Hin|Hin]; [|done].
      by apply not_elem_of_nil in Hin.
Qed.

(** Scenario S6: with 100 rows, the appends of 102 and 103 complete first
    and wait; the append of 101 then moves the count to 103 in one sweep. *)
Lemma rows_never_pass_unrecorded_insert_witness :
  (∃ g recorded,
     table_append_run [102; 103; 101] ex_global [] = Some (g, recorded) ∧
     100 ≤ rows g ∧
     (∀ k, 100 < k ≤ rows g → k ∈ recorded) ∧
     (∀ x, x ∈ append g → x ≠ 0 → x ∈ recorded ∧ x ≠ rows g + 1) ∧
     (∀ k, k ∈ recorded → k ∈ [102; 103; 101])) ∧
  option_map (λ p, rows p.1) (table_append_run [102; 103] ex_global [])
  = Some 100 ∧
  option_map (λ p, rows p.1) (table_append_run [102; 103; 101] ex_global [])
  = Some 103.
Proof.
  split; [|split; reflexivity].
  apply (rows_never_pass_unrecorded_insert 3 100 [102; 103; 101]).
  - lia.
  - simpl. lia.
Defined.

(** ** Reading a row *)

Section ReadRowFacts.

Variable WT_NOTFOUND : Z.
Variable WT_ROLLBACK : Z.
Variable g_type : store_type.
Variable cursor_search : Z → Z.
Variable cursor_search_near : Z → Z * Z.
Variable cursor_get_value : Z → Z.

Local Abbreviation read :=
  (read_row WT_NOTFOUND WT_ROLLBACK g_type cursor_search cursor_search_near
     cursor_get_value).
Local Abbreviation reads :=
  (read_rows WT_NOTFOUND WT_ROLLBACK g_type cursor_search cursor_search_near
     cursor_get_value).

Lemma read_row_toggles sn keyno :
  (read sn keyno).1.2 = negb sn ∧
  (read sn keyno).2 = if sn then CallSearchNear else CallSearch.
Proof.
  unfold read_row. destruct sn; [|done].
  by destruct (cursor_search_near keyno).
Qed.

Lemma read_rows_alternate sn keys i c o :
  reads sn keys !! i = Some (c, o) →
  c = if xorb sn (Nat.odd i) then CallSearchNear else CallSearch.
Proof.
  revert sn i. induction keys as [|keyno keys IH]; intros sn i; simpl; [done|].
  destruct (read sn keyno) as [[out sn'] call] eqn:Hr.
  pose proof (read_row_toggles sn keyno) as [Hsn Hcall].
  rewrite Hr in Hsn, Hcall. simpl in Hsn, Hcall. subst sn' call.
  destruct i as [|i]; simpl.
  - intros [= <- <-]. by destruct sn.
  - destruct out; [|done]. intros Hi%IH. subst c.
    rewrite Nat.odd_succ, <- Nat.negb_odd. by destruct sn, (Nat.odd i).
Qed.

(** C10: every call of [read_row] flips the shared toggle, so successive
    calls alternate between [search] and [search_near], starting with
    [search]; a [search_near] that succeeds without an exact match counts
    as not found; and a read reports not-found only when the method called
    found no exact match. *)
Theorem read_row_alternates_and_needs_exact_match :
  WT_NOTFOUND ≠ 0 → WT_NOTFOUND ≠ WT_ROLLBACK →
  (∀ sn keyno,
     (read_row WT_NOTFOUND WT_ROLLBACK g_type cursor_search
        cursor_search_near cursor_get_value sn keyno).1.2 = negb sn ∧
     (read_row WT_NOTFOUND WT_ROLLBACK g_type cursor_search
        cursor_search_near cursor_get_value sn keyno).2
     = if sn then CallSearchNear else CallSearch) ∧
  (∀ keys i c o,
     read_rows WT_NOTFOUND WT_ROLLBACK g_type cursor_search
       cursor_search_near cursor_get_value false keys !! i = Some (c, o) →
     c = if Nat.even i then CallSearch else CallSearchNear) ∧
  (∀ keyno exact,
     cursor_search_near keyno = (0, exact) → exact ≠ 0 →
     (read_row WT_NOTFOUND WT_ROLLBACK g_type cursor_search
        cursor_search_near cursor_get_value true keyno).1.1
     = match g_type with FIX => Return 0 | _ => Return WT_NOTFOUND end) ∧
  (∀ sn keyno,
     cursor_get_value keyno ≠ WT_NOTFOUND →
     (read_row WT_NOTFOUND WT_ROLLBACK g_type cursor_search
        cursor_search_near cursor_get_value sn keyno).1.1
     = Return WT_NOTFOUND →
     if sn
     then (cursor_search_near keyno).1 = WT_NOTFOUND ∨
          ((cursor_search_near keyno).1 = 0 ∧ (cursor_search_near keyno).2 ≠ 0)
     else cursor_search keyno = WT_NOTFOUND).
Proof.
  intros Hnf0 Hnfrb. split; [|split; [|split]].
  - apply read_row_toggles.
  - intros keys i c o Hi. apply read_rows_alternate in Hi. subst c.
    simpl. rewrite <- Nat.negb_even. by destruct (Nat.even i).
  - intros keyno exact Hnear Hexact. unfold read_row. rewrite Hnear. simpl.
    apply Z.eqb_neq in Hexact. rewrite Hexact. simpl.
    apply Z.eqb_neq in Hnf0. rewrite Hnf0.
    apply Z.eqb_neq in Hnfrb. rewrite Hnfrb.
    by rewrite Z.eqb_refl.
  - intros sn keyno Hgv. unfold read_row. destruct sn.
    + destruct (cursor_search_near keyno) as [ret exact]. simpl.
      destruct (ret =? 0) eqn:Hret; simpl.
      * apply Z.eqb_eq in Hret. subst ret.
        destruct (exact =? 0) eqn:Hex; simpl.
        -- intros [= ?]. done.
        -- intros _. right. split; [done|]. by apply Z.eqb_neq.
      * rewrite Hret. destruct (ret =? WT_ROLLBACK) eqn:Hrb.
        -- intros [= ?]. congruence.
        -- destruct (ret =? WT_NOTFOUND) eqn:Hnf; [|done].
           intros _. left. by apply Z.eqb_eq.
    + simpl. destruct (cursor_search keyno =? 0) eqn:Hret.
      * intros [= ?]. done.
      * destruct (cursor_search keyno =? WT_ROLLBACK) eqn:Hrb.
        -- intros [= ?]. congruence.
        -- destruct (cursor_search keyno =? WT_NOTFOUND) eqn:Hnf; [|done].
           intros _. by apply Z.eqb_eq.
Qed.

End ReadRowFacts.

(** A row store in which record 7 is missing and [search_near] lands on a
    neighbour: the calls alternate and both methods report not-found. *)
Lemma read_row_alternates_and_needs_exact_match_witness :
  read_rows (-31803) (-31800) ROW
    (λ k, if k =? 7 then -31803 else 0)
    (λ k, if k =? 7 then (0, 1) else (0, 0))
    (λ _, 0) false [1; 7; 7; 7; 2]
  = [(CallSearch, Return 0); (CallSearchNear, Return (-31803));
     (CallSearch, Return (-31803)); (CallSearchNear, Return (-31803));
     (CallSearch, Return 0)] ∧
  (read_row (-31803) (-31800) ROW
     (λ k, if k =? 7 then -31803 else 0)
     (λ k, if k =? 7 then (0, 1) else (0, 0))
     (λ _, 0) true 7).1.1 = Return (-31803).
Proof.
  split; [reflexivity|].
  destruct (read_row_alternates_and_needs_exact_match (-31803) (-31800) ROW
              (λ k, if k =? 7 then -31803 else 0)
              (λ k, if k =? 7 then (0, 1) else (0, 0))
              (λ _, 0)) as (_ & _ & Hnear & _).
  - discriminate.
  - discriminate.
  - apply (Hnear 7 1); [reflexivity | discriminate].
Defined.

(** ** The walk of a worker iteration *)

Lemma mmrand_1_100 rnd : mmrand rnd 1 100 = (bound_at rnd 0, drop 1 rnd).
Proof. unfold mmrand, bound_at. by destruct rnd. Qed.

Lemma bound_at_range rnd j : 1 ≤ bound_at rnd j ≤ 100.
Proof.
  unfold bound_at. pose proof (Z.mod_pos_bound (nth j rnd 0) 100). lia.
Qed.

Lemma bound_at_drop rnd j : bound_at (drop 1 rnd) j = bound_at rnd (S j).
Proof. unfold bound_at. destruct rnd; [by destruct j | done]. Qed.

Section WalkFacts.

Variable WT_NOTFOUND : Z.
Variable WT_ROLLBACK : Z.
Variable g_type : store_type.
Variable cursor_search : Z → Z.
Variable cursor_search_near : Z → Z * Z.
Variable cursor_get_value : Z → Z.
Variable cursor_next_prev : Z → Z → Z.
Variable cursor_get_key_np : Z → Z → Z.
Variable cursor_get_value_np : Z → Z → Z.

Local Abbreviation step :=
  (nextprev WT_NOTFOUND WT_ROLLBACK cursor_next_prev cursor_get_key_np
     cursor_get_value_np).
Local Abbreviation loop :=
  (walk_loop WT_NOTFOUND WT_ROLLBACK cursor_next_prev cursor_get_key_np
     cursor_get_value_np).

(** [nextprev] returns 0, not-found, or a rollback that [next] or [prev]
    reported; on a rollback from the reads of key and value, as on any
    other error, it dies. *)
Lemma nextprev_returns np next ret :
  step np next = Return ret →
  ret = 0 ∨ ret = WT_NOTFOUND ∨
  (ret = WT_ROLLBACK ∧ cursor_next_prev np next = WT_ROLLBACK).
Proof.
  unfold nextprev.
  destruct (cursor_next_prev np next =? WT_ROLLBACK) eqn:Hrb.
  { apply Z.eqb_eq in Hrb. intros [= <-]. auto. }
  match goal with
  | |- (if negb (?r =? 0) && _ then _ else _) = _ → _ => set (r' := r)
  end.
  destruct (r' =? 0) eqn:H0; simpl.
  { apply Z.eqb_eq in H0. intros [= <-]. auto. }
  destruct (r' =? WT_NOTFOUND) eqn:Hnf; simpl; [|done].
  apply Z.eqb_eq in Hnf. intros [= <-]. auto.
Qed.

(** How the loop ends, entered with [np] steps taken: after [k] more
    steps, each taken below the bound drawn before it and all but the
    last returning 0.  From a positioned cursor the first step is taken
    if the first bound allows it, and the loop stops at a bound, at a step
    that lost the position, at a rollback inside a transaction or at the
    death of the process. *)
Lemma walk_loop_stops dir intxn fuel np positioned rnd calls :
  0 ≤ np ≤ 100 → 100 - np < Z.of_nat fuel →
  ∃ k positioned' rnd' st,
    loop fuel np dir intxn positioned rnd calls
    = Some (calls ++ replicate k (CursorNextPrev dir), positioned', rnd', st) ∧
    np + Z.of_nat k ≤ 100 ∧
    (positioned = false → k = 0%nat ∧ st = Running) ∧
    (positioned = true → np < bound_at rnd 0 → (1 ≤ k)%nat) ∧
    (∀ j, (j < k)%nat → np + Z.of_nat j < bound_at rnd j) ∧
    (∀ j, (S j < k)%nat → step (np + Z.of_nat j) dir = Return 0) ∧
    (positioned = true →
     match st with
     | Running =>
         bound_at rnd k ≤ np + Z.of_nat k ∨
         ∃ ret, (0 < k)%nat ∧
           step (np + Z.of_nat k - 1) dir = Return ret ∧ ret ≠ 0 ∧
           (ret = WT_ROLLBACK → intxn = false)
     | Deadlock =>
         (0 < k)%nat ∧ intxn = true ∧
         step (np + Z.of_nat k - 1) dir = Return WT_ROLLBACK
     | Died => (0 < k)%nat ∧ step (np + Z.of_nat k - 1) dir = Die
     end).
Proof.
  revert np positioned rnd calls.
  induction fuel as [|fuel IH]; intros np positioned rnd calls Hnp Hfuel; [lia|].
  simpl. rewrite mmrand_1_100. pose proof (bound_at_range rnd 0) as Hb.
  destruct (np <? bound_at rnd 0) eqn:Hlt; simpl.
  2:{ apply Z.ltb_ge in Hlt. exists 0%nat. eexists _, _, _. rewrite app_nil_r.
      split; [done|]. split; [lia|]. split; [done|]. split; [lia|].
      split; [lia|]. split; [lia|]. intros _. left. simpl. lia. }
  apply Z.ltb_lt in Hlt.
  destruct positioned; simpl.
  2:{ exists 0%nat. eexists _, _, _. rewrite app_nil_r.
      split; [done|]. split; [lia|]. split; [done|]. split; [done|].
      split; [lia|]. split; [lia | done]. }
  assert (np + Z.of_nat 1 - 1 = np) as Hone by lia.
  destruct (step np dir) as [ret|] eqn:Hstep.
  2:{ exists 1%nat. eexists _, _, _. split; [done|]. split; [lia|].
      split; [done|]. split; [done|]. split.
      { intros j Hj. assert (j = 0%nat) as -> by lia. simpl. lia. }
      split; [intros; lia|]. intros _. rewrite Hone. split; [lia | done]. }
  destruct ((ret =? WT_ROLLBACK) && intxn) eqn:Hdl.
  { apply andb_true_iff in Hdl as [->%Z.eqb_eq ->].
    exists 1%nat. eexists _, _, _. split; [done|]. split; [lia|].
    split; [done|]. split; [done|]. split.
    { intros j Hj. assert (j = 0%nat) as -> by lia. simpl. lia. }
    split; [intros; lia|]. intros _. rewrite Hone.
    split; [lia|]. split; [done|]. exact Hstep. }
  destruct (IH (np + 1) (ret =? 0) (drop 1 rnd) (calls ++ [CursorNextPrev dir]))
    as (k & p' & r' & st & -> & Hk & Hunpos & _ & Hbounds & Hzero & Hstop);
    [lia | lia |].
  exists (S k), p', r', st.
  assert (np + Z.of_nat (S k) - 1 = np + 1 + Z.of_nat k - 1) as HS by lia.
  split; [by rewrite <- app_assoc|]. split; [lia|]. split; [done|].
  split; [intros; lia|]. split; [|split].
  - intros [|j] Hj.
    + simpl. lia.
    + specialize (Hbounds j). rewrite bound_at_drop in Hbounds. lia.
  - intros [|j] Hj.
    + destruct (ret =? 0) eqn:H0.
      * apply Z.eqb_eq in H0. subst ret.
        by replace (np + Z.of_nat 0) with np by lia.
      * destruct (Hunpos eq_refl) as [-> _]. lia.
    + replace (np + Z.of_nat (S j)) with (np + 1 + Z.of_nat j) by lia.
      apply Hzero. lia.
  - intros _. destruct (ret =? 0) eqn:H0.
    + specialize (Hstop eq_refl). rewrite HS. destruct st.
      * destruct Hstop as [Hstop|(r & ? & ? & ? & ?)].
        -- left. rewrite bound_at_drop in Hstop. lia.
        -- right. exists r. split; [lia | done].
      * destruct Hstop as (? & ? & ?). split; [lia | done].
      * destruct Hstop as (? & ?). split; [lia | done].
    + destruct (Hunpos eq_refl) as [-> ->]. right. exists ret.
      split; [lia|]. rewrite Hone. split; [done|].
      apply Z.eqb_neq in H0. split; [done|].
      intros ->. rewrite Z.eqb_refl in Hdl. done.
Qed.


End WalkFacts.


(** *** The counter and the conservation of record numbers *)

Lemma in_use_enter_eq l i k :
  l !! i = Some 0 → k ≠ 0 → in_use (<[i := k]> l) = S (in_use l).
Proof.
  revert i. induction l as [|y l IH]; intros [|i]; simpl; try done.
  - intros [= ->] Hk. rewrite !in_use_cons.
    rewrite (decide_False (P := 0 ≠ 0)) by lia. by rewrite decide_True.
  - intros Hl Hk. rewrite !in_use_cons. rewrite (IH i Hl Hk). by case_decide.
Qed.

Lemma in_use_le_length l : (in_use l ≤ length l)%nat.
Proof. apply length_filter_le. Qed.

Lemma elem_of_insert_keep (l : list Z) i x v k :
  l !! i = Some x → k ∈ l → k = x ∨ k ∈ <[i := v]> l.
Proof.
  revert i. induction l as [|y l IH]; intros [|i]; simpl; try done.
  - intros [= ->] [->|Hk]%elem_of_cons; [by left | right; by right].
  - intros Hl [->|Hk]%elem_of_cons; [right; by left|].
    destruct (IH i Hl Hk) as [->|?]; [by left | right; by right].
Qed.

Lemma table_append_resolve_kept rows0 recorded fuel g g' :
  table_inv rows0 g recorded →
  0 ≤ rows0 → rows0 + Z.of_nat (length recorded) < 2 ^ 64 - 1 →
  Z.of_nat (length (append g)) < 2 ^ 64 →
  table_kept rows0 g recorded →
  table_append_resolve fuel g = Some g' →
  table_kept rows0 g' recorded.
Proof.
  intros Hinv H0 Hmax Hlen. revert g Hinv Hlen.
  induction fuel as [|fuel IH]; intros g [Hr Hc Hw Hb] Hlen [Hcnt Hrec]; [done|].
  simpl. rewrite u64_small by lia.
  destruct (list_find _ _) as [[i x]|] eqn:Hfind; [|by intros [= <-]].
  apply list_find_Some in Hfind as (Hi & -> & _).
  assert (rows g + 1 ≠ 0) as Hnz by lia.
  pose proof (in_use_release _ _ _ Hi Hnz) as Hrel.
  pose proof (in_use_le_length (append g)) as Hle.
  apply IH.
  - split; simpl.
    + lia.
    + intros k Hk. destruct (decide (k = rows g + 1)) as [->|].
      * apply Hw; [|done]. by eapply list_elem_of_lookup_2.
      * apply Hc. lia.
    + intros x Hx Hx0. apply Hw; [|done]. by eapply elem_of_release_inv.
    + lia.
  - simpl. by rewrite length_insert.
  - split; simpl.
    + rewrite Hcnt, u64_small by lia. lia.
    + intros k Hk. destruct (Hrec k Hk) as [?|Hin]; [left; lia|].
      destruct (elem_of_insert_keep _ _ _ 0 _ Hi Hin) as [->|?];
        [left; lia | by right].
Qed.

Lemma table_append_pass_kept rows0 recorded keyno g dn g' :
  table_inv rows0 g recorded →
  0 ≤ rows0 → rows0 + Z.of_nat (length recorded) + 1 < 2 ^ 64 - 1 →
  Z.of_nat (length (append g)) < 2 ^ 64 →
  keyno ≠ 0 → (∀ k, k ∈ recorded → k ≠ 0) →
  table_kept rows0 g recorded →
  table_append_pass keyno g = Some (dn, g') →
  table_kept rows0 g' (if dn then keyno :: recorded else recorded).
Proof.
  intros [Hr Hc Hw Hb] H0 Hmax Hlen Hkey Hnz [Hcnt Hrec].
  unfold table_append_pass. rewrite u64_small by lia.
  case_bool_decide as Hk.
  - subst keyno.
    destruct (table_append_resolve _ _) as [g1|] eqn:Hres; [|done].
    intros [= <- <-].
    eapply (table_append_resolve_kept rows0 ((rows g + 1) :: recorded));
      [| | | | |exact Hres]; simpl; try lia.
    + split; simpl.
      * lia.
      * intros k Hk. destruct (decide (k = rows g + 1)) as [->|].
        -- by left.
        -- right. apply Hc. lia.
      * intros x Hx Hx0. right. by apply Hw.
      * lia.
    + split; simpl; [done|].
      intros k [->|Hk]%elem_of_cons; [left; lia|].
      destruct (Hrec k Hk); [left; lia | by right].
  - destruct (list_find _ _) as [[i x]|] eqn:Hfind.
    + apply list_find_Some in Hfind as (Hi & -> & _).
      intros [= <- <-]. split; simpl.
      * pose proof (in_use_le_length (<[i:=keyno]> (append g))) as Hle.
        rewrite length_insert in Hle.
        rewrite (in_use_enter_eq _ _ _ Hi Hkey) in *.
        rewrite Hcnt, u64_small by lia. lia.
      * intros k [->|Hin]%elem_of_cons.
        -- right. eapply list_elem_of_lookup_2.
           apply list_lookup_insert_eq. by eapply lookup_lt_Some.
        -- destruct (Hrec k Hin) as [?|Hin']; [by left|]. right.
           destruct (elem_of_insert_keep _ _ _ keyno _ Hi Hin') as [->|?];
             [by apply Hnz in Hin | done].
    + by intros [= <- <-].
Qed.

Lemma table_append_run_kept rows0 keys g recorded g' recorded' :
  table_inv rows0 g recorded →
  (∀ x, x ∈ append g → x ≠ rows g + 1) →
  0 ≤ rows0 →
  rows0 + Z.of_nat (length recorded) + Z.of_nat (length keys) < 2 ^ 64 - 1 →
  Z.of_nat (length (append g)) < 2 ^ 64 →
  (∀ k, k ∈ keys → k ≠ 0) → (∀ k, k ∈ recorded → k ≠ 0) →
  table_kept rows0 g recorded →
  table_append_run keys g recorded = Some (g', recorded') →
  table_kept rows0 g' recorded' ∧ table_inv rows0 g' recorded' ∧
  (∀ x, x ∈ append g' → x ≠ rows g' + 1) ∧
  length (append g') = length (append g).
Proof.
  revert g recorded. induction keys as [|keyno keys IH];
    intros g recorded Hinv Hnext H0 Hmax Hlen Hkeys Hrec Hkept; simpl.
  - by intros [= <- <-].
  - simpl in Hmax.
    destruct (table_append_pass_inv rows0 recorded keyno g)
      as (dn & g1 & Hpass & Hinv1 & Hnext1 & Hlen1); [done | done | done | lia |].
    rewrite Hpass. intros Hrun.
    pose proof (table_append_pass_kept rows0 recorded keyno g dn g1) as Hk1.
    destruct (IH g1 (if dn then keyno :: recorded else recorded))
      as (Hk & Hi & Hn & Hl); try done.
    + destruct dn; simpl; lia.
    + by rewrite Hlen1.
    + intros k Hk. apply Hkeys. by right.
    + destruct dn; [|done].
      intros k [->|Hk]%elem_of_cons; [apply Hkeys; by left | by apply Hrec].
    + apply Hk1; try done; [lia | apply Hkeys; by left].
    + by rewrite Hl, Hlen1.
Qed.

Lemma table_append_init_inv c_threads rows0 :
  let g0 := table_append_init c_threads
              {| rows := rows0; append := []; append_cnt := 0 |} in
  table_inv rows0 g0 [] ∧ table_kept rows0 g0 [] ∧
  (∀ x, x ∈ append g0 → x = 0) ∧
  length (append g0) = Z.to_nat (u64 (c_threads * 10)).
Proof.
  simpl.
  assert (in_use (replicate (Z.to_nat (u64 (c_threads * 10))) 0) = 0%nat) as Hu.
  { induction (Z.to_nat _) as [|n IH]; [done|]. simpl.
    rewrite in_use_cons. by rewrite decide_False by lia. }
  assert (∀ x, x ∈ replicate (Z.to_nat (u64 (c_threads * 10))) 0 → x = 0) as Hz.
  { intros x Hx. by apply elem_of_replicate in Hx as [-> _]. }
  split; [|split; [|split; [done | apply length_replicate]]].
  - split; simpl.
    + lia.
    + intros k Hk. lia.
    + intros x Hx Hx0. by apply Hz in Hx.
    + rewrite Hu. simpl. lia.
  - split; simpl.
    + by rewrite Hu.
    + by intros k ?%not_elem_of_nil.
Qed.

Lemma in_use_zero l : in_use l = 0%nat → ∀ x, x ∈ l → x = 0.
Proof.
  induction l as [|y l IH]; [by intros _ x ?%not_elem_of_nil|].
  rewrite in_use_cons. case_decide as Hy; [done|].
  intros Hl x [->|Hx]%elem_of_cons; [lia | by apply IH].
Qed.

Lemma table_append_run_reaches c_threads rows0 keys :
  0 ≤ rows0 →
  rows0 + Z.of_nat (length keys) < 2 ^ 64 - 1 →
  (∀ k, k ∈ keys → k ≠ 0) →
  ∃ g recorded,
    table_append_run keys
      (table_append_init c_threads
         {| rows := rows0; append := []; append_cnt := 0 |}) []
    = Some (g, recorded) ∧
    table_kept rows0 g recorded ∧ table_inv rows0 g recorded ∧
    (∀ x, x ∈ append g → x ≠ rows g + 1) ∧
    length (append g) = Z.to_nat (u64 (c_threads * 10)).
Proof.
  intros H0 Hmax Hkeys.
  destruct (table_append_init_inv c_threads rows0) as (Hinv & Hkept & Hz & Hlen).
  set (g0 := table_append_init c_threads _) in *.
  assert (∀ x, x ∈ append g0 → x ≠ rows g0 + 1) as Hnext.
  { intros x Hx. apply Hz in Hx. simpl. lia. }
  destruct (table_append_run_inv rows0 keys g0 [])
    as (g & recorded & Hrun & _); [done | done | done | simpl; lia |].
  assert (Z.of_nat (length (append g0)) < 2 ^ 64) as Hl64.
  { rewrite Hlen. unfold u64.
    pose proof (Z.mod_pos_bound (c_threads * 10) (2 ^ 64)). lia. }
  destruct (table_append_run_kept rows0 keys g0 [] g recorded)
    as (Hk & Hi & Hn & Hl); try done.
  - simpl. lia.
  - by intros k ?%not_elem_of_nil.
  - exists g, recorded. repeat split; try done; try apply Hk; try apply Hi.
    by rewrite Hl.
Qed.

(** X10: after any sequence of appends of record numbers other than 0,
    [g.append_cnt] is the number of slots of the table that hold a record
    number, and the table still has its [append_max] slots. *)
Theorem append_cnt_counts_used_slots (c_threads rows0 : Z) (keys : list Z) :
  0 ≤ rows0 →
  rows0 + Z.of_nat (length keys) < 2 ^ 64 - 1 →
  (∀ k, k ∈ keys → k ≠ 0) →
  ∃ g recorded,
    table_append_run keys
      (table_append_init c_threads
         {| rows := rows0; append := []; append_cnt := 0 |}) []
    = Some (g, recorded) ∧
    append_cnt g = Z.of_nat (in_use (append g)) ∧
    length (append g) = Z.to_nat (u64 (c_threads * 10)) ∧
    0 ≤ append_cnt g ≤ u64 (c_threads * 10).
Proof.
  intros H0 Hmax Hkeys.
  destruct (table_append_run_reaches c_threads rows0 keys H0 Hmax Hkeys)
    as (g & recorded & Hrun & [Hcnt _] & _ & _ & Hlen).
  exists g, recorded. split; [done|]. split; [done|]. split; [done|].
  pose proof (in_use_le_length (append g)) as Hle. rewrite Hlen in Hle.
  assert (0 ≤ u64 (c_threads * 10)) by (apply Z.mod_pos_bound; lia).
  lia.
Qed.

Lemma append_cnt_counts_used_slots_witness :
  ∃ g recorded,
    table_append_run [102; 103] ex_global [] = Some (g, recorded) ∧
    append_cnt g = 2 ∧ length (append g) = 30%nat.
Proof.
  destruct (append_cnt_counts_used_slots 3 100 [102; 103])
    as (g & recorded & Hrun & Hcnt & Hlen & _).
  - lia.
  - simpl. lia.
  - intros k Hk. apply list_elem_of_In in Hk. simpl in Hk.
    destruct Hk as [<-|[<-|[]]]; discriminate.
  - exists g, recorded. split; [exact Hrun|].
    vm_compute in Hrun. injection Hrun as <- _. split; reflexivity.
Defined.

(** X11: no record number whose append was recorded is lost: it is counted
    in [g.rows] or waits in the table. So once the appends of the [n] record
    numbers after the initial row count have been recorded, [g.rows] has
    reached the last of them; and when these were the only appends, the
    table is empty again. *)
Theorem appends_all_recorded_are_counted (c_threads rows0 : Z) (keys : list Z) :
  0 ≤ rows0 →
  rows0 + Z.of_nat (length keys) < 2 ^ 64 - 1 →
  (∀ k, k ∈ keys → k ≠ 0) →
  ∃ g recorded,
    table_append_run keys
      (table_append_init c_threads
         {| rows := rows0; append := []; append_cnt := 0 |}) []
    = Some (g, recorded) ∧
    (∀ k, k ∈ recorded → rows0 < k ≤ rows g ∨ k ∈ append g) ∧
    (∀ n, 0 ≤ n → (∀ k, rows0 < k ≤ rows0 + n → k ∈ recorded) →
          rows0 + n ≤ rows g) ∧
    ((∀ k, rows0 < k ≤ rows0 + Z.of_nat (length recorded) → k ∈ recorded) →
     rows g = rows0 + Z.of_nat (length recorded) ∧
     append_cnt g = 0 ∧ ∀ x, x ∈ append g → x = 0).
Proof.
  intros H0 Hmax Hkeys.
  destruct (table_append_run_reaches c_threads rows0 keys H0 Hmax Hkeys)
    as (g & recorded & Hrun & [Hcnt Hrec] & [Hr Hc Hw Hb] & Hnext & Hlen).
  exists g, recorded. split; [done|]. split; [done|].
  assert (∀ n, 0 ≤ n → (∀ k, rows0 < k ≤ rows0 + n → k ∈ recorded) →
               rows0 + n ≤ rows g) as Hall.
  { intros n Hn Hin. destruct (decide (rows0 + n ≤ rows g)) as [|Hlt]; [done|].
    destruct (Hrec (rows g + 1)) as [?|Hwait]; [apply Hin; lia | lia |].
    by apply Hnext in Hwait. }
  split; [done|]. intros Hin.
  pose proof (Hall (Z.of_nat (length recorded)) ltac:(lia) Hin) as Hge.
  assert (in_use (append g) = 0%nat) as Hu by lia.
  split; [lia|]. split; [by rewrite Hcnt, Hu | by apply in_use_zero].
Qed.

Lemma appends_all_recorded_are_counted_witness :
  ∃ g recorded,
    table_append_run [102; 103; 101] ex_global [] = Some (g, recorded) ∧
    rows g = 103 ∧ append_cnt g = 0.
Proof.
  destruct (appends_all_recorded_are_counted 3 100 [102; 103; 101])
    as (g & recorded & Hrun & _ & _ & Hall).
  - lia.
  - simpl. lia.
  - intros k Hk. apply list_elem_of_In in Hk. simpl in Hk.
    destruct Hk as [<-|[<-|[<-|[]]]]; discriminate.
  - exists g, recorded. split; [exact Hrun|].
    assert (recorded = [101; 103; 102]) as Hrec
      by (vm_compute in Hrun; congruence).
    destruct Hall as (Hrows & Hcnt & _).
    + rewrite Hrec. simpl. intros k Hk.
      assert (k = 101 ∨ k = 102 ∨ k = 103) as [Hk1|[Hk1|Hk1]] by lia; subst k.
      * by left.
      * right. right. by left.
      * right. by left.
    + rewrite Hrec in Hrows. split; [exact Hrows | exact Hcnt].
Defined.

(** X12: in a table reached from the initial one, the pass of the thread
    that appended record number [rows + 1] is always done, however full the
    table is, and moves the row count at least to its record number; a pass
    for another record number is not done exactly when every slot is in use,
    and then changes nothing; otherwise it leaves the row count alone and
    the record number waiting in the table. *)
Theorem append_next_row_always_resolves (c_threads rows0 : Z) (keys : list Z) :
  0 ≤ rows0 →
  rows0 + Z.of_nat (length keys) + 1 < 2 ^ 64 - 1 →
  (∀ k, k ∈ keys → k ≠ 0) →
  ∃ g recorded,
    table_append_run keys
      (table_append_init c_threads
         {| rows := rows0; append := []; append_cnt := 0 |}) []
    = Some (g, recorded) ∧
    (∃ g', table_append_pass (rows g + 1) g = Some (true, g') ∧
           rows g + 1 ≤ rows g') ∧
    (∀ keyno, keyno ≠ rows g + 1 →
       ∃ dn g', table_append_pass keyno g = Some (dn, g') ∧
         (dn = false ↔ ∀ x, x ∈ append g → x ≠ 0) ∧
         (dn = false → g' = g) ∧
         (dn = true → rows g' = rows g ∧ keyno ∈ append g')).
Proof.
  intros H0 Hmax Hkeys.
  destruct (table_append_run_reaches c_threads rows0 keys H0 ltac:(lia) Hkeys)
    as (g & recorded & Hrun & _ & Hinv & Hnext & Hlen).
  exists g, recorded. split; [done|].
  assert (Z.of_nat (length recorded) ≤ Z.of_nat (length keys)) as Hrl.
  { clear -Hrun. revert Hrun.
    generalize (table_append_init c_threads
                  {| rows := rows0; append := []; append_cnt := 0 |}).
    assert (∀ keys g1 r1 g recorded,
              table_append_run keys g1 r1 = Some (g, recorded) →
              (length recorded ≤ length r1 + length keys)%nat) as Hgen.
    { clear. induction keys as [|keyno keys IH]; intros g1 r1 g recorded; simpl.
      - intros [= <- <-]. lia.
      - destruct (table_append_pass keyno g1) as [[dn g2]|]; [|done].
        intros Hrun%IH. destruct dn; simpl in *; lia. }
    intros g1 Hrun%Hgen. simpl in Hrun. lia. }
  pose proof Hinv as [Hr Hc Hw Hb].
  assert (u64 (rows g + 1) = rows g + 1) as Hu64 by (apply u64_small; lia).
  split.
  - destruct (table_append_pass_inv rows0 recorded (rows g + 1) g)
      as (dn & g' & Hpass & Hinv' & _); [done | done | done | lia |].
    pose proof Hpass as Hpass'.
    unfold table_append_pass in Hpass'. rewrite Hu64 in Hpass'.
    rewrite bool_decide_eq_true_2 in Hpass' by done.
    destruct (table_append_resolve_inv rows0 ((rows g + 1) :: recorded)
                (S (length (append g)))
                {| rows := rows g + 1; append := append g;
                   append_cnt := append_cnt g |})
      as (g1 & Hres & _ & Hle & _).
    + split; simpl.
      * lia.
      * intros k Hk. destruct (decide (k = rows g + 1)) as [->|].
        -- by left.
        -- right. apply Hc. lia.
      * intros x Hx Hx0. right. by apply Hw.
      * lia.
    + done.
    + simpl. lia.
    + simpl. pose proof (in_use_le_length (append g)). lia.
    + rewrite Hres in Hpass'. injection Hpass' as <- <-.
      exists g1. split; [done|]. simpl in Hle. lia.
  - intros keyno Hkey. unfold table_append_pass. rewrite Hu64.
    rewrite bool_decide_eq_false_2 by done.
    destruct (list_find _ _) as [[i x]|] eqn:Hfind.
    + apply list_find_Some in Hfind as (Hi & -> & _).
      eexists true, _. split; [done|]. split; [|split; [done|]].
      * split; [done|]. intros Hfull. exfalso.
        apply (Hfull 0); [|done]. by eapply list_elem_of_lookup_2.
      * intros _. simpl. split; [done|].
        eapply list_elem_of_lookup_2. apply list_lookup_insert_eq.
        by eapply lookup_lt_Some.
    + exists false, g. split; [done|]. split; [|split; [done|done]].
      split; [|done]. intros _.
      apply list_find_None in Hfind. rewrite Forall_forall in Hfind.
      intros x Hx. by apply Hfind, list_elem_of_In.
Qed.

Lemma append_next_row_always_resolves_witness :
  ∃ g',
    table_append_pass 101
      {| rows := 100; append := replicate 30 0; append_cnt := 0 |}
    = Some (true, g') ∧ 101 ≤ rows g'.
Proof.
  destruct (append_next_row_always_resolves 3 100 [])
    as (g & recorded & Hrun & (g' & Hpass & Hle) & _).
  - lia.
  - simpl. lia.
  - intros k Hk. by apply not_elem_of_nil in Hk.
  - vm_compute in Hrun. injection Hrun as <- _.
    exists g'. split; [exact Hpass | exact Hle].
Defined.

(** ** The scan that verifies the file *)

Lemma mmrand_1_17 rnd : 1 ≤ (mmrand rnd 1 17).1 ≤ 17.
Proof.
  unfold mmrand. destruct (rng rnd) as [v rnd']. cbn [fst].
  pose proof (Z.mod_pos_bound v (17 - 1 + 1)). lia.
Qed.

Lemma scan_steps_snoc prev reads k :
  scan_steps prev reads →
  default prev (list.last reads) < k ≤ default prev (list.last reads) + 17 →
  scan_steps prev (reads ++ [k]).
Proof.
  revert prev. induction reads as [|x reads IH]; intros prev; simpl.
  - intros _ ?. done.
  - intros [Hx Hs] Hk. split; [done|]. apply IH; [done|].
    destruct reads as [|y reads]; [done|].
    rewrite last_cons_cons in Hk.
    destruct (list.last (y :: reads)) eqn:E; [done|]. by apply last_None in E.
Qed.

Section ReadScanFacts.

Variable WT_NOTFOUND : Z.
Variable WT_ROLLBACK : Z.
Variable g_type : store_type.
Variable cursor_search : Z → Z.
Variable cursor_search_near : Z → Z * Z.
Variable cursor_get_value : Z → Z.

Local Abbreviation scan_loop :=
  (read_scan_loop WT_NOTFOUND WT_ROLLBACK g_type cursor_search
     cursor_search_near cursor_get_value).

Lemma read_scan_loop_steps fuel key_cnt rows keyno last_keyno rnd sn reads tracks :
  key_cnt ≤ rows → rows + 17 < 2 ^ 64 → 0 ≤ keyno →
  (Z.to_nat (key_cnt - keyno) < fuel)%nat →
  keyno = default 0 (list.last reads) →
  scan_steps 0 reads → (∀ k, k ∈ reads → k ≤ rows) →
  (keyno < key_cnt ∨ reads ≠ []) →
  ∃ reads' tracks' died,
    scan_loop fuel key_cnt rows keyno last_keyno rnd sn reads tracks
    = Some (reads', tracks', died) ∧
    scan_steps 0 reads' ∧ (∀ k, k ∈ reads' → k ≤ rows) ∧
    reads' ≠ [] ∧
    (died = false → key_cnt ≤ default 0 (list.last reads')).
Proof.
  intros Hkr Hmax. revert keyno last_keyno rnd sn reads tracks.
  induction fuel as [|fuel IH];
    intros keyno last_keyno rnd sn reads tracks H0 Hfuel Hlast Hsteps Hle Hne;
    [lia|].
  simpl. destruct (keyno <? key_cnt) eqn:Hlt; simpl.
  2: { apply Z.ltb_ge in Hlt. exists reads, tracks, false.
       split; [done|]. split; [done|]. split; [done|].
       split; [destruct Hne; [lia | done] | intros _; lia]. }
  apply Z.ltb_lt in Hlt.
  pose proof (mmrand_1_17 rnd) as Hr.
  destruct (mmrand rnd 1 17) as [r rnd1]. simpl in Hr.
  rewrite (u64_small (keyno + r)) by lia.
  set (keyno1 := if rows <? keyno + r then rows else keyno + r).
  assert (keyno < keyno1 ≤ keyno + 17 ∧ keyno1 ≤ rows) as (Hk1 & Hk2).
  { unfold keyno1. destruct (rows <? keyno + r) eqn:E.
    - apply Z.ltb_lt in E. lia.
    - apply Z.ltb_ge in E. lia. }
  destruct (if 1000 <? u64 (keyno1 - last_keyno)
            then (tracks ++ [keyno1], keyno1) else (tracks, last_keyno))
    as [tracks1 last1].
  destruct (read_row _ _ _ _ _ _ sn keyno1) as [[out sn1] call].
  assert (scan_steps 0 (reads ++ [keyno1])) as Hsteps1.
  { apply scan_steps_snoc; [done|]. rewrite <- Hlast. lia. }
  assert (∀ k, k ∈ reads ++ [keyno1] → k ≤ rows) as Hle1.
  { intros k [Hk|Hk%list_elem_of_singleton]%elem_of_app; [by apply Hle | lia]. }
  assert (reads ++ [keyno1] ≠ []) as Hne1 by (by destruct reads).
  assert (∃ reads' tracks' died,
            Some (reads ++ [keyno1], tracks1, true) = Some (reads', tracks', died) ∧
            scan_steps 0 reads' ∧ (∀ k, k ∈ reads' → k ≤ rows) ∧ reads' ≠ [] ∧
            (died = false → key_cnt ≤ default 0 (list.last reads'))) as Hdie.
  { eexists _, _, _. split; [done|]. by repeat split. }
  destruct out as [ret|]; [|exact Hdie].
  destruct (negb (ret =? 0) && negb (ret =? WT_NOTFOUND)
            && negb (ret =? WT_ROLLBACK)); [exact Hdie|].
  apply IH; try done.
  - lia.
  - lia.
  - by rewrite last_snoc.
  - by right.
Qed.

(** X13: with at least as many rows as keys to check and no wrap of the
    record number, the scan ends within [key_cnt] rounds. Every record
    number it reads is 1 to 17 beyond the one read before, starting from 0,
    and none is beyond the last row; and unless a read made it die, the last
    one read is at or beyond [key_cnt]. *)
Theorem read_scan_visits_increasing_keys fuel key_cnt rows rnd sn :
  0 < key_cnt → key_cnt ≤ rows → rows + 17 < 2 ^ 64 →
  (Z.to_nat key_cnt < fuel)%nat →
  ∃ reads tracks died,
    wts_read_scan WT_NOTFOUND WT_ROLLBACK g_type cursor_search
      cursor_search_near cursor_get_value fuel key_cnt rows rnd sn
    = Some (reads, tracks, died) ∧
    scan_steps 0 reads ∧ (∀ k, k ∈ reads → 1 ≤ k ≤ rows) ∧
    (died = false → ∃ k, list.last reads = Some k ∧ key_cnt ≤ k).
Proof.
  intros Hpos Hkr Hmax Hfuel. unfold wts_read_scan.
  destruct (read_scan_loop_steps fuel key_cnt rows 0 0 rnd sn [] [])
    as (reads & tracks & died & Hrun & Hsteps & Hle & Hne & Hlast);
    try done.
  - by rewrite Z.sub_0_r.
  - by intros k ?%not_elem_of_nil.
  - by left.
  - exists reads, tracks, died. split; [done|]. split; [done|]. split.
    + intros k Hk. split; [|by apply Hle].
      assert (∀ prev (l : list Z) k, 0 ≤ prev → scan_steps prev l → k ∈ l → 1 ≤ k)
        as Hgen.
      { clear. intros prev l. revert prev.
        induction l as [|x l IH]; intros prev k Hp; simpl.
        - by intros _ ?%not_elem_of_nil.
        - intros [Hx Hs] [->|Hk]%elem_of_cons; [lia|].
          apply (IH x); [lia | done | done]. }
      by apply (Hgen 0 reads).
    + intros Hd. specialize (Hlast Hd).
      destruct (list.last reads) as [k|] eqn:Hl.
      * by exists k.
      * by apply last_None in Hl.
Qed.

(** X14: with fewer rows than keys to check the scan does not end: the
    record number is held at the last row, which stays below [key_cnt], and
    as long as no read makes the scan die the same row is read again and
    again. *)
Theorem read_scan_spins_when_rows_short fuel key_cnt rows rnd sn :
  0 ≤ rows < key_cnt →
  (∀ sn k, ∃ ret,
     (read_row WT_NOTFOUND WT_ROLLBACK g_type cursor_search
        cursor_search_near cursor_get_value sn k).1.1 = Return ret ∧
     (ret = 0 ∨ ret = WT_NOTFOUND ∨ ret = WT_ROLLBACK)) →
  wts_read_scan WT_NOTFOUND WT_ROLLBACK g_type cursor_search
    cursor_search_near cursor_get_value fuel key_cnt rows rnd sn = None.
Proof.
  intros Hrows Hread. unfold wts_read_scan.
  assert (∀ keyno last_keyno rnd sn reads tracks,
            keyno ≤ rows →
            scan_loop fuel key_cnt rows keyno last_keyno rnd sn reads tracks
            = None) as Hgen; [|apply Hgen; lia].
  induction fuel as [|fuel IH];
    intros keyno last_keyno rnd0 sn0 reads tracks Hk; [done|].
  simpl. assert ((keyno <? key_cnt) = true) as -> by (apply Z.ltb_lt; lia).
  simpl. destruct (mmrand rnd0 1 17) as [r rnd1].
  set (keyno1 := if rows <? u64 (keyno + r) then rows else u64 (keyno + r)).
  assert (keyno1 ≤ rows) as Hk1.
  { unfold keyno1. destruct (rows <? u64 (keyno + r)) eqn:E; [lia|].
    by apply Z.ltb_ge in E. }
  destruct (if 1000 <? u64 (keyno1 - last_keyno)
            then (tracks ++ [keyno1], keyno1) else (tracks, last_keyno))
    as [tracks1 last1].
  destruct (Hread sn0 keyno1) as (ret & Hout & Hret).
  destruct (read_row _ _ _ _ _ _ sn0 keyno1) as [[out sn1] call].
  simpl in Hout. subst out.
  assert (negb (ret =? 0) && negb (ret =? WT_NOTFOUND)
          && negb (ret =? WT_ROLLBACK) = false) as ->.
  { destruct Hret as [-> | [-> | ->]]; rewrite ?Z.eqb_refl; simpl;
      rewrite ?andb_false_r; done. }
  by apply IH.
Qed.

End ReadScanFacts.

Lemma read_scan_visits_increasing_keys_witness :
  ∃ reads tracks died,
    ex_scan 6 5 9 [2; 7; 30] = Some (reads, tracks, died) ∧
    scan_steps 0 reads ∧ (∀ k, k ∈ reads → 1 ≤ k ≤ 9) ∧
    (died = false → ∃ k, list.last reads = Some k ∧ 5 ≤ k).
Proof.
  apply (read_scan_visits_increasing_keys (-31803) (-31800) FIX
           (λ _, 0) (λ _, (0, 0)) (λ _, 0) 6 5 9 [2; 7; 30] false).
  - lia.
  - lia.
  - lia.
  - simpl. lia.
Defined.

Lemma read_scan_spins_when_rows_short_witness :
  ex_scan 50 5 3 [2; 7; 30] = None.
Proof.
  apply (read_scan_spins_when_rows_short (-31803) (-31800) FIX
           (λ _, 0) (λ _, (0, 0)) (λ _, 0) 50 5 3 [2; 7; 30] false).
  - lia.
  - intros sn k. exists 0. split; [by destruct sn | by left].
Defined.

(** ** The operation of a worker iteration *)

Lemma u32_range z : 0 ≤ u32 z < 2 ^ 32.
Proof. apply Z.mod_pos_bound. lia. Qed.

Lemma u32_small z : 0 ≤ z < 2 ^ 32 → u32 z = z.
Proof. apply Z.mod_small. Qed.

Lemma op_choice_max c : op_choice c UINT32_MAX = CntSearch.
Proof.
  unfold op_choice, UINT32_MAX.
  pose proof (u32_range (c_delete_pct c)).
  pose proof (u32_range (c_delete_pct c + c_insert_pct c)).
  pose proof (u32_range (c_delete_pct c + c_insert_pct c + c_write_pct c)).
  repeat (destruct (_ <? _) eqn:E; [apply Z.ltb_lt in E; lia | clear E]).
  done.
Qed.

(** The record numbers of a list that lie in a range. *)
Lemma length_filter_range (a b m : Z) (n : nat) :
  length (List.filter (λ op, (a <=? op) && (op <? b)) (seqZ m (Z.of_nat n)))
  = Z.to_nat (Z.min (m + Z.of_nat n) b - Z.max m a).
Proof.
  revert m. induction n as [|n IH]; intros m.
  - simpl. lia.
  - rewrite Nat2Z.inj_succ, seqZ_cons by lia. simpl.
    replace (Z.pred (Z.succ (Z.of_nat n))) with (Z.of_nat n) by lia.
    rewrite <- (Z.add_1_r m) at 1.
    destruct ((a <=? m) && (m <? b)) eqn:E; simpl; rewrite IH.
    + apply andb_true_iff in E as [E1%Z.leb_le E2%Z.ltb_lt]. lia.
    + apply andb_false_iff in E as [E%Z.leb_gt|E%Z.ltb_ge]; lia.
Qed.

Lemma length_filter_dice (P : Z → bool) (a b : Z) :
  (∀ op, 1 ≤ op ≤ 100 → P op = (a <=? op) && (op <? b)) →
  length (List.filter P (seqZ 1 100))
  = Z.to_nat (Z.min 101 b - Z.max 1 a).
Proof.
  intros HP.
  rewrite (List.filter_ext_in P (λ op, (a <=? op) && (op <? b))).
  - apply (length_filter_range a b 1 100).
  - intros op Hop. apply HP. apply list_elem_of_In, elem_of_seqZ in Hop. lia.
Qed.

Section OperationsFacts.

Variable WT_NOTFOUND : Z.
Variable WT_ROLLBACK : Z.
Variable g_type : store_type.
Variable cursor_search : Z → Z.
Variable cursor_search_near : Z → Z * Z.
Variable cursor_get_value : Z → Z.
Variable cursor_update : Z → Z.
Variable cursor_insert : Z → Z.
Variable cursor_remove : Z → Z.
Variable cursor_append : Z * Z * Z.
Variable val_gen : list Z → list Z.
Variable key_gen_insert : list Z → list Z.

Local Abbreviation operation :=
  (ops_operation WT_NOTFOUND WT_ROLLBACK g_type cursor_search
     cursor_search_near cursor_get_value cursor_update cursor_insert
     cursor_remove cursor_append val_gen key_gen_insert).

(** X15: in a read-only session, whatever the configured percentages, the
    operation is a read of the record number drawn: it is counted as a
    search, and no update, insert or remove is called. *)
Theorem readonly_session_only_reads (c : OPCONF) (intxn : bool)
    (rnd : list Z) (sn : bool) :
  op_counter
    (ops_operation WT_NOTFOUND WT_ROLLBACK g_type cursor_search
       cursor_search_near cursor_get_value cursor_update cursor_insert
       cursor_remove cursor_append val_gen key_gen_insert c true intxn rnd sn)
  = CntSearch ∧
  op_made (operation c true intxn rnd sn)
  = OpReadRow (mmrand rnd 1 (u32 (g_rows c))).1 ∧
  op_engine (operation c true intxn rnd sn) = [] ∧
  op_rnd (operation c true intxn rnd sn) = (mmrand rnd 1 (u32 (g_rows c))).2.
Proof.
  unfold ops_operation.
  destruct (mmrand rnd 1 (u32 (g_rows c))) as [keyno rnd1].
  rewrite op_choice_max.
  destruct (read_row _ _ _ _ _ _ sn keyno) as [[out sn1] call].
  by destruct (after_op WT_ROLLBACK intxn out true).
Qed.

(** X16: in a column store, when the dice select an insert and the append
    table has no room ([g.append_cnt >= g.append_max]), the iteration
    updates the record number drawn instead: the operation is counted as an
    insert, calls [col_update], and nothing is appended; with room it calls
    [col_insert] and leaves the cursor unpositioned. *)
Theorem full_append_table_updates_instead (c : OPCONF) (intxn : bool)
    (rnd : list Z) (sn : bool) :
  g_type ≠ ROW →
  op_choice c (mmrand (mmrand rnd 1 (u32 (g_rows c))).2 1 100).1 = CntInsert →
  op_counter
    (ops_operation WT_NOTFOUND WT_ROLLBACK g_type cursor_search
       cursor_search_near cursor_get_value cursor_update cursor_insert
       cursor_remove cursor_append val_gen key_gen_insert c false intxn rnd sn)
  = CntInsert ∧
  (g_append_max c ≤ g_append_cnt c →
   op_made (operation c false intxn rnd sn)
   = OpColUpdate (mmrand rnd 1 (u32 (g_rows c))).1 ∧
   op_engine (operation c false intxn rnd sn)
   = [EngUpdate (mmrand rnd 1 (u32 (g_rows c))).1] ∧
   op_keyno (operation c false intxn rnd sn)
   = (mmrand rnd 1 (u32 (g_rows c))).1) ∧
  (g_append_cnt c < g_append_max c →
   op_made (operation c false intxn rnd sn) = OpColInsert ∧
   op_positioned (operation c false intxn rnd sn) = false).
Proof.
  intros Htype. unfold ops_operation.
  destruct (mmrand rnd 1 (u32 (g_rows c))) as [keyno rnd1]. cbn [fst snd].
  destruct (mmrand rnd1 1 100) as [op rnd2]. cbn [fst]. intros ->.
  assert (∀ A (x y : A), match g_type with ROW => x | _ => y end = y) as Hty
    by (intros; by destruct g_type).
  rewrite !Hty.
  destruct (g_append_max c <=? g_append_cnt c) eqn:Hfull.
  - apply Z.leb_le in Hfull.
    unfold col_update.
    destruct (after_op _ _ _ _) as [positioned st].
    split; [done|]. split; [done | lia].
  - apply Z.leb_gt in Hfull.
    destruct col_insert as [[out calls] keynop].
    destruct out as [ret|]; simpl; (split; [done|]); (split; [lia | done]).
Qed.

(** X17: [row_update], [col_update] and [row_insert] return 0 also when the
    engine reports that there is no such record, never the not-found code;
    so after an update of a record that is not found, the iteration goes on
    with the cursor taken for positioned. *)
Theorem update_reports_not_found_as_success :
  WT_NOTFOUND ≠ 0 → WT_ROLLBACK ≠ 0 → WT_NOTFOUND ≠ WT_ROLLBACK →
  (∀ k, ((row_update WT_NOTFOUND WT_ROLLBACK cursor_update k).1 = Return 0 ↔
         cursor_update k = 0 ∨ cursor_update k = WT_NOTFOUND) ∧
        (row_update WT_NOTFOUND WT_ROLLBACK cursor_update k).1
        ≠ Return WT_NOTFOUND ∧
        col_update WT_NOTFOUND WT_ROLLBACK cursor_update k
        = row_update WT_NOTFOUND WT_ROLLBACK cursor_update k) ∧
  (∀ k, ((row_insert WT_NOTFOUND WT_ROLLBACK cursor_insert k).1 = Return 0 ↔
         cursor_insert k = 0 ∨ cursor_insert k = WT_NOTFOUND) ∧
        (row_insert WT_NOTFOUND WT_ROLLBACK cursor_insert k).1
        ≠ Return WT_NOTFOUND) ∧
  (∀ c intxn rnd sn,
     op_choice c (mmrand (mmrand rnd 1 (u32 (g_rows c))).2 1 100).1
     = CntUpdate →
     cursor_update (mmrand rnd 1 (u32 (g_rows c))).1 = WT_NOTFOUND →
     op_positioned (operation c false intxn rnd sn) = true ∧
     op_status (operation c false intxn rnd sn) = Running).
Proof.
  intros Hnf Hrb Hne.
  assert (∀ ret,
    ((if ret =? WT_ROLLBACK then Return WT_ROLLBACK
      else if negb (ret =? 0) && negb (ret =? WT_NOTFOUND) then Die
      else Return 0) = Return 0 ↔ ret = 0 ∨ ret = WT_NOTFOUND) ∧
    (if ret =? WT_ROLLBACK then Return WT_ROLLBACK
     else if negb (ret =? 0) && negb (ret =? WT_NOTFOUND) then Die
     else Return 0) ≠ Return WT_NOTFOUND) as Htail.
  { intros ret.
    destruct (ret =? WT_ROLLBACK) eqn:E1; [apply Z.eqb_eq in E1|apply Z.eqb_neq in E1].
    - split; [|congruence]. split; [congruence | lia].
    - destruct (ret =? 0) eqn:E2; [apply Z.eqb_eq in E2|apply Z.eqb_neq in E2]; simpl.
      + split; [|congruence]. split; [auto | done].
      + destruct (ret =? WT_NOTFOUND) eqn:E3;
          [apply Z.eqb_eq in E3|apply Z.eqb_neq in E3]; simpl.
        * split; [|congruence]. split; [auto | done].
        * split; [|done]. split; [done | lia]. }
  split; [|split].
  - intros k. unfold row_update, col_update. cbn [fst].
    destruct (Htail (cursor_update k)) as [H1 H2]. done.
  - intros k. unfold row_insert. cbn [fst]. apply Htail.
  - intros c intxn rnd sn. unfold ops_operation.
    destruct (mmrand rnd 1 (u32 (g_rows c))) as [keyno rnd1]. cbn [fst snd].
    destruct (mmrand rnd1 1 100) as [op rnd2]. cbn [fst]. intros -> Hupd.
    unfold row_update, col_update. rewrite Hupd.
    assert ((WT_NOTFOUND =? WT_ROLLBACK) = false) as -> by (by apply Z.eqb_neq).
    assert ((WT_NOTFOUND =? 0) = false) as E0 by (by apply Z.eqb_neq).
    rewrite E0, Z.eqb_refl. simpl.
    destruct WT_ROLLBACK; [done | by destruct g_type..].
Qed.

(** X18: [row_remove] and [col_remove] call [cursor->remove] exactly when
    their own search found the record; what they return is 0, the not-found
    code or the rollback code, a record that is not found being reported as
    not found. *)
Theorem remove_only_after_search_found (k : Z) :
  WT_NOTFOUND ≠ 0 → WT_NOTFOUND ≠ WT_ROLLBACK →
  (EngRemove k ∈ (row_remove WT_NOTFOUND WT_ROLLBACK cursor_search
                    cursor_remove k).2 ↔ cursor_search k = 0) ∧
  (cursor_search k = WT_NOTFOUND →
   row_remove WT_NOTFOUND WT_ROLLBACK cursor_search cursor_remove k
   = (Return WT_NOTFOUND, [EngSearch k])) ∧
  (∀ ret, (row_remove WT_NOTFOUND WT_ROLLBACK cursor_search cursor_remove k).1
          = Return ret →
          ret = 0 ∨ ret = WT_NOTFOUND ∨ ret = WT_ROLLBACK) ∧
  col_remove WT_NOTFOUND WT_ROLLBACK cursor_search cursor_remove k
  = row_remove WT_NOTFOUND WT_ROLLBACK cursor_search cursor_remove k.
Proof.
  intros Hnf Hne. unfold row_remove, col_remove.
  split; [|split; [|split; [|done]]].
  - destruct (cursor_search k =? 0) eqn:E; cbn [snd].
    + apply Z.eqb_eq in E. split; [done|]. intros _. right. by left.
    + apply Z.eqb_neq in E. split; [|done].
      intros Hin. apply list_elem_of_singleton in Hin. done.
  - intros ->.
    assert ((WT_NOTFOUND =? 0) = false) as -> by (by apply Z.eqb_neq).
    assert ((WT_NOTFOUND =? WT_ROLLBACK) = false) as -> by (by apply Z.eqb_neq).
    by rewrite Z.eqb_refl, andb_false_r.
  - intros ret.
    destruct (if cursor_search k =? 0
              then (cursor_remove k, [EngSearch k; EngRemove k])
              else (cursor_search k, [EngSearch k])) as [r calls].
    cbn [fst].
    destruct (r =? WT_ROLLBACK) eqn:E1; [intros [= <-]; auto|].
    destruct (r =? 0) eqn:E2; simpl.
    + apply Z.eqb_eq in E2. intros [= <-]. auto.
    + destruct (r =? WT_NOTFOUND) eqn:E3; simpl; [|done].
      apply Z.eqb_eq in E3. intros [= <-]. auto.
Qed.

End OperationsFacts.

(** X19: of the hundred values of the dice, the first kind of operation with
    a percentage above zero gets one value less than its percentage, the
    kinds after it get their percentage, and the reads get the rest, which
    is at least one value even when the percentages add up to 100. *)
Theorem dice_lose_one_before_reads (c : OPCONF) :
  0 ≤ c_delete_pct c → 0 ≤ c_insert_pct c → 0 ≤ c_write_pct c →
  c_delete_pct c + c_insert_pct c + c_write_pct c ≤ 100 →
  length (dice_for c CntRemove) = Z.to_nat (c_delete_pct c - 1) ∧
  length (dice_for c CntInsert)
  = Z.to_nat (c_delete_pct c + c_insert_pct c - Z.max (c_delete_pct c) 1) ∧
  length (dice_for c CntUpdate)
  = Z.to_nat (c_delete_pct c + c_insert_pct c + c_write_pct c
              - Z.max (c_delete_pct c + c_insert_pct c) 1) ∧
  length (dice_for c CntSearch)
  = Z.to_nat (101 - Z.max (c_delete_pct c + c_insert_pct c + c_write_pct c) 1).
Proof.
  intros Hd Hi Hw Hsum. unfold dice_for, op_choice.
  rewrite !u32_small by lia.
  set (D := c_delete_pct c) in *. set (I := c_insert_pct c) in *.
  set (W := c_write_pct c) in *.
  split; [|split; [|split]].
  - rewrite (length_filter_dice _ 1 D); [lia|].
    intros op Hop. destruct (op <? D) eqn:E1; [|destruct (op <? D + I);
      [|destruct (op <? D + I + W)]]; simpl; rewrite ?andb_false_r; try done.
    symmetry. apply andb_true_intro. split; [apply Z.leb_le; lia | done].
  - rewrite (length_filter_dice _ (Z.max D 1) (D + I)); [lia|].
    intros op Hop. destruct (op <? D) eqn:E1.
    + apply Z.ltb_lt in E1. symmetry. apply andb_false_iff. left.
      apply Z.leb_gt. lia.
    + apply Z.ltb_ge in E1.
      assert ((Z.max D 1 <=? op) = true) as -> by (apply Z.leb_le; lia).
      simpl. by destruct (op <? D + I); [|destruct (op <? D + I + W)].
  - rewrite (length_filter_dice _ (Z.max (D + I) 1) (D + I + W)); [lia|].
    intros op Hop. destruct (op <? D) eqn:E1.
    + apply Z.ltb_lt in E1. symmetry. apply andb_false_iff. left.
      apply Z.leb_gt. lia.
    + apply Z.ltb_ge in E1. destruct (op <? D + I) eqn:E2.
      * apply Z.ltb_lt in E2. symmetry. apply andb_false_iff. left.
        apply Z.leb_gt. lia.
      * apply Z.ltb_ge in E2.
        assert ((Z.max (D + I) 1 <=? op) = true) as -> by (apply Z.leb_le; lia).
        simpl. by destruct (op <? D + I + W).
  - rewrite (length_filter_dice _ (Z.max (D + I + W) 1) 101); [lia|].
    intros op Hop.
    assert ((op <? 101) = true) as -> by (apply Z.ltb_lt; lia).
    rewrite andb_true_r.
    destruct (op <? D) eqn:E1;
      [|destruct (op <? D + I) eqn:E2; [|destruct (op <? D + I + W) eqn:E3]];
      rewrite ?Z.ltb_lt, ?Z.ltb_ge in *; symmetry;
      try (apply Z.leb_gt; lia); apply Z.leb_le; lia.
Qed.

Lemma dice_lose_one_before_reads_witness :
  let c := {| c_delete_pct := 20; c_insert_pct := 30; c_write_pct := 50;
              g_rows := 100; g_append_cnt := 0; g_append_max := 10 |} in
  length (dice_for c CntRemove) = 19%nat ∧
  length (dice_for c CntInsert) = 30%nat ∧
  length (dice_for c CntUpdate) = 50%nat ∧
  length (dice_for c CntSearch) = 1%nat.
Proof.
  apply (dice_lose_one_before_reads
           {| c_delete_pct := 20; c_insert_pct := 30; c_write_pct := 50;
              g_rows := 100; g_append_cnt := 0; g_append_max := 10 |});
    simpl; lia.
Defined.

Lemma full_append_table_updates_instead_witness :
  let c := {| c_delete_pct := 20; c_insert_pct := 30; c_write_pct := 50;
              g_rows := 100; g_append_cnt := 10; g_append_max := 10 |} in
  op_made
    (ops_operation (-31803) (-31800) VAR (λ _, 0) (λ _, (0, 0)) (λ _, 0)
       (λ _, 0) (λ _, 0) (λ _, 0) (0, 0, 101) (λ r, r) (λ r, r)
       c false false [6; 24] false)
  = OpColUpdate 7.
Proof.
  destruct (full_append_table_updates_instead (-31803) (-31800) VAR
              (λ _, 0) (λ _, (0, 0)) (λ _, 0) (λ _, 0) (λ _, 0) (λ _, 0)
              (0, 0, 101) (λ r, r) (λ r, r)
              {| c_delete_pct := 20; c_insert_pct := 30; c_write_pct := 50;
                 g_rows := 100; g_append_cnt := 10; g_append_max := 10 |}
              false [6; 24] false) as (_ & Hfull & _).
  - discriminate.
  - reflexivity.
  - destruct Hfull as (Hmade & _); [simpl; lia|]. exact Hmade.
Defined.

Lemma update_reports_not_found_as_success_witness :
  (row_update (-31803) (-31800) (λ _, -31803) 7).1 = Return 0.
Proof.
  destruct (update_reports_not_found_as_success (-31803) (-31800) ROW
              (λ _, 0) (λ _, (0, 0)) (λ _, 0) (λ _, -31803) (λ _, 0) (λ _, 0)
              (0, 0, 101) (λ r, r) (λ r, r)) as (H & _).
  - discriminate.
  - discriminate.
  - discriminate.
  - destruct (H 7) as (Hok & _). apply Hok. right. reflexivity.
Defined.

Lemma remove_only_after_search_found_witness :
  row_remove (-31803) (-31800) (λ _, -31803) (λ _, 0) 7
  = (Return (-31803), [EngSearch 7]).
Proof.
  destruct (remove_only_after_search_found (-31803) (-31800)
              (λ _, -31803) (λ _, 0) 7) as (_ & H & _).
  - discriminate.
  - discriminate.
  - apply H. reflexivity.
Defined.

(** ** The monitor of the worker threads *)

Section MonitorFacts.

Variable lastrun : bool.
Variable c_abort : bool.
Variable FORMAT_OPERATION_REPS : Z.
Variable workers : nat → nat → bool → TINFO → TINFO.

Local Abbreviation visit := (wts_ops_visit lastrun c_abort workers).
Local Abbreviation pass := (wts_ops_pass lastrun c_abort workers).
Local Abbreviation spin := (wts_ops_spin lastrun c_abort workers).

Lemma wts_ops_visit_facts fourths thread_ops p i t t' running joined :
  workers_keep_protocol workers →
  visit fourths thread_ops p i t = Some (t', running, joined) →
  visit_facts lastrun c_abort fourths thread_ops t t' running joined.
Proof.
  intros Hprot. unfold wts_ops_visit.
  pose proof (Hprot p i false t) as (Hid1 & Hq1 & Hs1).
  pose proof (Hprot p i true (workers p i false t)) as (Hid2 & Hq2 & Hs2).
  pose proof (Hprot p i true (set_state TINFO_JOINED (workers p i false t)))
    as (_ & _ & Hs3).
  simpl in Hs3.
  set (t1 := workers p i false t) in *.
  assert (∀ q r j,
    (if (fourths =? 0)
        || (negb (thread_ops =? -1) && (u64 thread_ops <=? t_ops q))
     then if lastrun && c_abort then None else Some (set_quit q, r, j)
     else Some (q, r, j)) = Some (t', running, joined) →
    r = running ∧ j = joined ∧ t_id t' = t_id q ∧ t_state t' = t_state q ∧
    t_ops t' = t_ops q ∧
    (t_quit q = true → t_quit t' = true) ∧
    (t_quit t' = true → t_quit q = true ∨ fourths = 0 ∨
       (thread_ops ≠ -1 ∧ u64 thread_ops ≤ t_ops q)) ∧
    (lastrun && c_abort = true → t_quit t' = t_quit q)) as Hlimit.
  { intros q r j. destruct ((fourths =? 0) || _) eqn:Hlim.
    - destruct (lastrun && c_abort) eqn:Hab; [done|].
      intros [= <- <- <-]. simpl. repeat split; try done.
      intros _. apply orb_true_iff in Hlim as [H%Z.eqb_eq|H]; [auto|].
      apply andb_true_iff in H as [H1 H2%Z.leb_le].
      apply negb_true_iff, Z.eqb_neq in H1. auto.
    - intros [= <- <- <-]. repeat split; auto. }
  destruct (t_state t1) eqn:Hst1; intros Hv; apply Hlimit in Hv
    as (<- & <- & Hid & Hst' & Hops & Hqk & Hqw & Hab).
  - (* seen running *)
    destruct Hs2 as [Hops2 Hs2].
    assert (t_state t = TINFO_RUNNING) as Hst.
    { destruct (t_state t) eqn:Hst; [done | rewrite Hs1 in Hst1; congruence..]. }
    rewrite Hst in Hs1. destruct Hs1 as [Hops1 _].
    split.
    + congruence.
    + lia.
    + intros Hq. apply Hqk. congruence.
    + intros Hq. destruct (Hqw Hq) as [H|[H|H]]; [left; congruence | auto..].
      right. right. by rewrite Hops.
    + done.
    + intros _. split; intros H; destruct Hs2 as [Hs2|[Hs2 _]]; congruence.
    + split; [done|]. destruct Hs2 as [Hs2|[Hs2 _]]; congruence.
    + intros _ Hne. apply Hqk.
      destruct Hs2 as [Hs2|[Hs2 Hq]]; congruence.
    + intros Hb. rewrite (Hab Hb). congruence.
  - (* seen complete: joined *)
    rewrite Hs3 in *. simpl in *.
    split.
    + congruence.
    + destruct (t_state t) eqn:Hst.
      * destruct Hs1 as [H _]. lia.
      * rewrite Hs1 in Hops. lia.
      * rewrite Hs1 in Hops. lia.
    + intros Hq. apply Hqk. congruence.
    + intros Hq. destruct (Hqw Hq) as [H|[H|H]]; [left; congruence | auto..].
      right. right. by rewrite Hops.
    + intros _. split; [|done].
      destruct (t_state t) eqn:Hst; [done|done|].
      rewrite Hs1 in Hst1. congruence.
    + done.
    + done.
    + intros Hinv _. apply Hqk.
      destruct (t_state t) eqn:Hst.
      * destruct Hs1 as [_ [H|[_ H]]]; congruence.
      * rewrite Hq1. by apply Hinv.
      * rewrite Hq1. by apply Hinv.
    + intros Hb. rewrite (Hab Hb). congruence.
  - (* seen joined *)
    rewrite Hs2 in *.
    assert (t1 = t) as Heq.
    { destruct (t_state t) eqn:Hst; [|done|done].
      destruct Hs1 as [_ [H|[H _]]]; congruence. }
    rewrite Heq in *.
    split.
    + done.
    + lia.
    + done.
    + intros Hq. destruct (Hqw Hq) as [H|[H|H]]; [by left | auto..].
      right. right. by rewrite Hops.
    + done.
    + intros _. by rewrite Hst'.
    + split; [congruence | done].
    + intros Hinv _. apply Hqk, Hinv. congruence.
    + auto.
Qed.

Lemma wts_ops_pass_facts fourths thread_ops p i0 ts ts' running js :
  workers_keep_protocol workers →
  pass fourths thread_ops p i0 ts = Some (ts', running, js) →
  pass_facts lastrun c_abort fourths thread_ops i0 ts ts' running js.
Proof.
  intros Hprot. revert i0 ts' running js.
  induction ts as [|t tl IH]; intros i0 ts' running js; simpl.
  - intros [= <- <- <-]. split; [done | | constructor |].
    + intros k t Hk. by rewrite lookup_nil in Hk.
    + intros i Hi. by apply not_elem_of_nil in Hi.
  - destruct (visit fourths thread_ops p i0 t) as [[[t1 r] j]|] eqn:Hv; [|done].
    destruct (pass fourths thread_ops p (S i0) tl) as [[[tl' r'] js']|] eqn:Hp;
      [|done].
    intros [= <- <- <-].
    apply wts_ops_visit_facts in Hv; [|done].
    destruct (IH _ _ _ _ Hp) as [Hlen Heach Hnd Hrange].
    assert (i0 ∉ js') as Hnotin.
    { intros Hin. apply Hrange in Hin. lia. }
    split.
    + simpl. by rewrite Hlen.
    + intros [|k] t0 Hk; simpl in Hk.
      * injection Hk as <-. exists t1, r, j. split; [done|]. split; [done|].
        split.
        -- replace (i0 + 0)%nat with i0 by lia. split.
           ++ intros ->. apply elem_of_app. left. by apply list_elem_of_singleton.
           ++ intros Hin. apply elem_of_app in Hin as [Hin|Hin]; [|done].
              destruct j; [done|]. by apply not_elem_of_nil in Hin.
        -- intros Hr. by apply orb_false_iff in Hr as [-> _].
      * destruct (Heach _ _ Hk) as (t' & rk & jk & Hk' & Hvf & Hj & Hr).
        exists t', rk, jk. split; [done|]. split; [done|]. split.
        -- replace (i0 + S k)%nat with (S i0 + k)%nat by lia.
           rewrite Hj. split.
           ++ intros Hin. apply elem_of_app. by right.
           ++ intros Hin. apply elem_of_app in Hin as [Hin|Hin]; [|done].
              destruct j; [|by apply not_elem_of_nil in Hin].
              apply list_elem_of_singleton in Hin. lia.
        -- intros Hrr. apply Hr. by apply orb_false_iff in Hrr as [_ ->].
    + destruct j; simpl; [|done]. by apply list.NoDup_cons.
    + intros i Hin. simpl. apply elem_of_app in Hin as [Hin|Hin].
      * destruct j; [|by apply not_elem_of_nil in Hin].
        apply list_elem_of_singleton in Hin. lia.
      * apply Hrange in Hin. lia.
Qed.

Lemma tinfo_init_lookup n i t :
  tinfo_init n !! i = Some t →
  t_state t = TINFO_RUNNING ∧ t_quit t = false ∧ t_ops t = 0.
Proof.
  unfold tinfo_init. rewrite list_lookup_fmap.
  destruct (seq 0 n !! i); simpl; [|done]. by intros [= <-].
Qed.

Lemma tinfo_init_length n : length (tinfo_init n) = n.
Proof. unfold tinfo_init. by rewrite length_map, length_seq. Qed.

Lemma spin_inv_init n : spin_inv (tinfo_init n) [].
Proof.
  split.
  - constructor.
  - intros i. split.
    + intros Hin. by apply not_elem_of_nil in Hin.
    + intros (t & Ht & Hst). apply tinfo_init_lookup in Ht as (? & _).
      congruence.
  - intros i t Ht Hst. apply tinfo_init_lookup in Ht as (? & _). congruence.
Qed.

Lemma wts_ops_pass_inv fourths thread_ops p ts ts' running js js' :
  workers_keep_protocol workers →
  spin_inv ts js →
  pass fourths thread_ops p 0 ts = Some (ts', running, js') →
  spin_inv ts' (js ++ js') ∧ length ts' = length ts ∧
  (running = false → ∀ i t, ts' !! i = Some t → t_state t = TINFO_JOINED).
Proof.
  intros Hprot [Hnd Hjoined Htold] Hp.
  apply wts_ops_pass_facts in Hp as [Hlen Heach Hnd' Hrange]; [|done].
  assert (∀ i t', ts' !! i = Some t' → ∃ t, ts !! i = Some t) as Hback.
  { intros i t' Hi. apply lookup_lt_Some in Hi. rewrite Hlen in Hi.
    by apply lookup_lt_is_Some_2 in Hi as [t Ht]; eauto. }
  split; [split|split; [done|]].
  - apply list.NoDup_app. split; [done|]. split; [|done].
    intros i Hi Hi'. apply Hjoined in Hi as (t & Ht & Hst).
    destruct (Heach _ _ Ht) as (t' & r & j & _ & Hvf & Hj & _).
    simpl in Hj. apply Hj in Hi'.
    destruct (vf_joined _ _ _ _ _ _ _ _ Hvf Hi') as [Hne _]. done.
  - intros i. rewrite elem_of_app. split.
    + intros [Hi|Hi].
      * apply Hjoined in Hi as (t & Ht & Hst).
        destruct (Heach _ _ Ht) as (t' & r & [|] & Ht' & Hvf & _ & _).
        -- exists t'. split; [done|]. by apply (vf_joined _ _ _ _ _ _ _ _ Hvf).
        -- exists t'. split; [done|]. by apply (vf_not_joined _ _ _ _ _ _ _ _ Hvf).
      * pose proof (Hrange _ Hi) as Hr. simpl in Hr.
        destruct (lookup_lt_is_Some_2 ts i) as [t Ht]; [lia|].
        destruct (Heach _ _ Ht) as (t' & r & j & Ht' & Hvf & Hj & _).
        simpl in Hj. apply Hj in Hi. exists t'. split; [done|].
        by apply (vf_joined _ _ _ _ _ _ _ _ Hvf).
    + intros (t' & Ht' & Hst').
      destruct (Hback _ _ Ht') as [t Ht].
      destruct (Heach _ _ Ht) as (t0 & r & j & Ht0 & Hvf & Hj & _).
      assert (t0 = t') as -> by congruence. simpl in Hj.
      destruct j.
      * right. by apply Hj.
      * left. apply Hjoined. exists t. split; [done|].
        by apply (vf_not_joined _ _ _ _ _ _ _ _ Hvf).
  - intros i t' Ht' Hst'.
    destruct (Hback _ _ Ht') as [t Ht].
    destruct (Heach _ _ Ht) as (t0 & r & j & Ht0 & Hvf & _ & _).
    assert (t0 = t') as -> by congruence.
    apply (vf_told _ _ _ _ _ _ _ _ Hvf); [|done]. by apply (Htold i).
  - intros -> i t' Ht'.
    destruct (Hback _ _ Ht') as [t Ht].
    destruct (Heach _ _ Ht) as (t0 & r & j & Ht0 & Hvf & _ & Hr).
    assert (t0 = t') as -> by congruence.
    apply (vf_running _ _ _ _ _ _ _ _ Hvf). by apply Hr.
Qed.

Lemma wts_ops_spin_finished thread_ops fuel p fourths ts js ts' js' :
  workers_keep_protocol workers →
  spin_inv ts js →
  spin thread_ops fuel p fourths ts js = Finished ts' js' →
  spin_inv ts' js' ∧ length ts' = length ts ∧
  (∀ i t, ts' !! i = Some t → t_state t = TINFO_JOINED).
Proof.
  intros Hprot. revert p fourths ts js.
  induction fuel as [|fuel IH]; intros p fourths ts js Hinv; simpl; [done|].
  destruct (pass fourths thread_ops p 0 ts) as [[[ts1 r] js1]|] eqn:Hp; [|done].
  destruct (wts_ops_pass_inv _ _ _ _ _ _ _ _ Hprot Hinv Hp)
    as (Hinv1 & Hlen1 & Hall).
  destruct r; simpl.
  - intros Hs. apply IH in Hs as (? & ? & ?); [|done].
    split; [done|]. split; [congruence | done].
  - intros [= <- <-]. split; [done|]. split; [done|]. by apply Hall.
Qed.

(** Without a timer, only the share of operations sets [quit]. *)
Lemma wts_ops_pass_share thread_ops p ts ts' running js' :
  workers_keep_protocol workers →
  (∀ i t, ts !! i = Some t → t_quit t = true →
     thread_ops ≠ -1 ∧ u64 thread_ops ≤ t_ops t) →
  pass (-1) thread_ops p 0 ts = Some (ts', running, js') →
  ∀ i t, ts' !! i = Some t → t_quit t = true →
     thread_ops ≠ -1 ∧ u64 thread_ops ≤ t_ops t.
Proof.
  intros Hprot Hq Hp.
  apply wts_ops_pass_facts in Hp as [Hlen Heach _ _]; [|done].
  intros i t' Ht' Hquit.
  assert (is_Some (ts !! i)) as [t Ht].
  { apply lookup_lt_is_Some_2. rewrite <- Hlen. by apply lookup_lt_Some in Ht'. }
  destruct (Heach _ _ Ht) as (t0 & r & j & Ht0 & Hvf & _ & _).
  assert (t0 = t') as -> by congruence.
  destruct (vf_quit_why _ _ _ _ _ _ _ _ Hvf Hquit) as [H|[H|H]]; [|done|done].
  destruct (Hq _ _ Ht H) as [? ?]. split; [done|].
  pose proof (vf_ops _ _ _ _ _ _ _ _ Hvf). lia.
Qed.

Lemma wts_ops_spin_share thread_ops fuel p ts js ts' js' :
  workers_keep_protocol workers →
  (∀ i t, ts !! i = Some t → t_quit t = true →
     thread_ops ≠ -1 ∧ u64 thread_ops ≤ t_ops t) →
  spin thread_ops fuel p (-1) ts js = Finished ts' js' →
  ∀ i t, ts' !! i = Some t → t_quit t = true →
     thread_ops ≠ -1 ∧ u64 thread_ops ≤ t_ops t.
Proof.
  intros Hprot. revert p ts js.
  induction fuel as [|fuel IH]; intros p ts js Hq; simpl; [done|].
  destruct (pass (-1) thread_ops p 0 ts) as [[[ts1 r] js1]|] eqn:Hp; [|done].
  pose proof (wts_ops_pass_share _ _ _ _ _ _ Hprot Hq Hp) as Hq1.
  destruct r; simpl.
  - by apply IH.
  - by intros [= <- <-].
Qed.

Lemma timer_fourths_range c_timer :
  0 ≤ c_timer → 0 < FORMAT_OPERATION_REPS →
  -1 ≤ timer_fourths FORMAT_OPERATION_REPS c_timer ∧
  (c_timer ≠ 0 → 0 ≤ timer_fourths FORMAT_OPERATION_REPS c_timer) ∧
  (c_timer = 0 → timer_fourths FORMAT_OPERATION_REPS c_timer = -1).
Proof.
  intros Ht Hr. unfold timer_fourths.
  destruct (c_timer =? 0) eqn:E;
    [apply Z.eqb_eq in E | apply Z.eqb_neq in E].
  - lia.
  - assert (0 ≤ c_timer * 4 * 60 / FORMAT_OPERATION_REPS)
      by (apply Z.div_pos; lia).
    lia.
Qed.

Lemma thread_share_spec c_ops c_threads :
  0 ≤ c_ops → 1 ≤ c_threads →
  thread_share c_ops c_threads
  = Some (if c_ops =? 0 then -1 else Z.max c_ops c_threads / c_threads) ∧
  1 ≤ Z.max c_ops c_threads / c_threads ≤ Z.max c_ops c_threads.
Proof.
  intros Ho Ht. unfold thread_share. split.
  - destruct (c_ops =? 0); [done|].
    destruct (c_threads =? 0) eqn:E; [apply Z.eqb_eq in E; lia|].
    destruct (c_ops <? c_threads) eqn:E';
      [apply Z.ltb_lt in E' | apply Z.ltb_ge in E']; f_equal; f_equal; lia.
  - split.
    + apply Z.div_le_lower_bound; lia.
    + apply Z.div_le_upper_bound; [lia|]. nia.
Qed.

(** X20: when [wts_ops] returns, every worker has been told to quit, has
    completed and has been joined, each exactly once; and in a run limited
    by operations only, each worker has done its share, which is at least
    one operation. *)
Theorem wts_ops_joins_every_worker_once (fuel : nat) (c_ops c_threads c_timer : Z)
    (ts : list TINFO) (js : list nat) :
  workers_keep_protocol workers →
  0 ≤ c_ops < 2 ^ 32 → 1 ≤ c_threads < 2 ^ 32 →
  wts_ops lastrun c_abort FORMAT_OPERATION_REPS workers fuel c_ops c_threads
    c_timer = Some (Finished ts js) →
  length ts = Z.to_nat c_threads ∧
  Forall (λ t, t_state t = TINFO_JOINED ∧ t_quit t = true) ts ∧
  js ≡ₚ seq 0 (Z.to_nat c_threads) ∧
  (c_timer = 0 → c_ops ≠ 0 →
   1 ≤ Z.max c_ops c_threads / c_threads ∧
   Forall (λ t, Z.max c_ops c_threads / c_threads ≤ t_ops t) ts).
Proof.
  intros Hprot Hops Hthreads. unfold wts_ops.
  destruct (thread_share_spec c_ops c_threads) as [-> Hshare]; [lia..|].
  intros [= Hs].
  pose proof (wts_ops_spin_finished _ _ _ _ _ _ _ _ Hprot
                (spin_inv_init _) Hs) as ([Hnd Hj Htold] & Hlen & Hall).
  rewrite tinfo_init_length in Hlen.
  split; [done|]. split; [|split].
  - apply Forall_lookup. intros i t Ht. split; [by apply (Hall i)|].
    apply (Htold i t Ht). rewrite (Hall i t Ht). done.
  - apply NoDup_Permutation; [done | apply NoDup_seq|].
    intros i. rewrite Hj, elem_of_seq. split.
    + intros (t & Ht & _). apply lookup_lt_Some in Ht. lia.
    + intros Hi. destruct (lookup_lt_is_Some_2 ts i) as [t Ht]; [lia|].
      exists t. split; [done|]. by apply (Hall i).
  - intros -> Hne. split; [lia|].
    assert ((c_ops =? 0) = false) as E by (by apply Z.eqb_neq).
    rewrite E in Hs. unfold timer_fourths in Hs. simpl in Hs.
    apply Forall_lookup. intros i t Ht.
    assert (∀ k t0, tinfo_init (Z.to_nat c_threads) !! k = Some t0 →
              t_quit t0 = true →
              Z.max c_ops c_threads / c_threads ≠ -1 ∧
              u64 (Z.max c_ops c_threads / c_threads) ≤ t_ops t0) as Hinit.
    { intros k t0 Hk Hq. apply tinfo_init_lookup in Hk as (_ & ? & _).
      congruence. }
    assert (t_quit t = true) as Hquit.
    { apply (Htold i t Ht). rewrite (Hall i t Ht). done. }
    destruct (wts_ops_spin_share _ _ _ _ _ _ _ Hprot Hinit Hs i t Ht Hquit)
      as [_ Hle].
    rewrite u64_small in Hle; [done|]. lia.
Qed.

Lemma untold_init n : untold (tinfo_init n).
Proof. intros i t Ht. by apply tinfo_init_lookup in Ht as (? & ? & _). Qed.

Lemma wts_ops_pass_untold fourths thread_ops p ts ts' running js :
  workers_keep_protocol workers →
  lastrun && c_abort = true ∨ (fourths ≠ 0 ∧ thread_ops = -1) →
  untold ts → ts ≠ [] →
  pass fourths thread_ops p 0 ts = Some (ts', running, js) →
  untold ts' ∧ length ts' = length ts ∧ running = true.
Proof.
  intros Hprot Hcase Hun Hne Hp.
  apply wts_ops_pass_facts in Hp as [Hlen Heach _ _]; [|done].
  assert (∀ k t t' r j, ts !! k = Some t →
            visit_facts lastrun c_abort fourths thread_ops t t' r j →
            t_state t' = TINFO_RUNNING ∧ t_quit t' = false ∧ r = true)
    as Hstep.
  { intros k t t' r j Ht Hvf. destruct (Hun _ _ Ht) as [Hst Hq].
    assert (t_quit t' = false) as Hq'.
    { destruct Hcase as [Hab|[Hf Hth]].
      - rewrite (vf_abort _ _ _ _ _ _ _ _ Hvf Hab). done.
      - destruct (t_quit t') eqn:E; [|done].
        destruct (vf_quit_why _ _ _ _ _ _ _ _ Hvf E) as [H|[H|[H _]]];
          congruence. }
    assert (t_state t' = TINFO_RUNNING) as Hst'.
    { destruct (t_state t') eqn:E; [done|..];
        (assert (t_quit t' = true);
         [apply (vf_told _ _ _ _ _ _ _ _ Hvf); congruence | congruence]). }
    split; [done|]. split; [done|].
    destruct r; [done|].
    assert (t_state t' = TINFO_JOINED) by (by apply (vf_running _ _ _ _ _ _ _ _ Hvf)).
    congruence. }
  split; [|split; [done|]].
  - intros i t' Ht'.
    assert (is_Some (ts !! i)) as [t Ht].
    { apply lookup_lt_is_Some_2. rewrite <- Hlen.
      by apply lookup_lt_Some in Ht'. }
    destruct (Heach _ _ Ht) as (t0 & r & j & Ht0 & Hvf & _ & _).
    assert (t0 = t') as -> by congruence.
    by destruct (Hstep _ _ _ _ _ Ht Hvf) as (? & ? & _).
  - destruct ts as [|t tl]; [done|].
    destruct (Heach 0%nat t eq_refl) as (t0 & r & j & Ht0 & Hvf & _ & Hr).
    destruct (Hstep 0%nat _ _ _ _ eq_refl Hvf) as (_ & _ & ->).
    destruct running; [done|]. by discriminate Hr.
Qed.

Lemma wts_ops_pass_total_no_limit p i0 ts :
  is_Some (pass (-1) (-1) p i0 ts).
Proof.
  revert i0. induction ts as [|t tl IH]; intros i0; simpl; [done|].
  unfold wts_ops_visit.
  destruct (t_state (workers p i0 false t)); simpl;
    destruct (IH (S i0)) as [[[tl' r'] js'] ->]; done.
Qed.

Lemma wts_ops_spin_no_limit fuel p ts js :
  workers_keep_protocol workers →
  untold ts → ts ≠ [] →
  spin (-1) fuel p (-1) ts js = StillRunning.
Proof.
  intros Hprot. revert p ts js.
  induction fuel as [|fuel IH]; intros p ts js Hun Hne; simpl; [done|].
  destruct (wts_ops_pass_total_no_limit p 0 ts) as [[[ts1 r] js1] Hp].
  rewrite Hp.
  assert (lastrun && c_abort = true ∨ (-1 ≠ 0 ∧ -1 = -1)) as Hcase
    by (right; split; [lia | done]).
  destruct (wts_ops_pass_untold _ _ _ _ _ _ _ Hprot Hcase Hun Hne Hp)
    as (Hun1 & Hlen & ->).
  simpl. apply IH; [done|]. intros ->. by destruct ts.
Qed.

(** X21: a run configured with neither a number of operations nor a timer
    never leaves the spin loop: no worker is ever told to quit. *)
Theorem wts_ops_without_limit_never_returns (fuel : nat) (c_threads : Z) :
  workers_keep_protocol workers →
  1 ≤ c_threads →
  wts_ops lastrun c_abort FORMAT_OPERATION_REPS workers fuel 0 c_threads 0
  = Some StillRunning.
Proof.
  intros Hprot Hthreads. unfold wts_ops. simpl. f_equal.
  apply wts_ops_spin_no_limit; [done | apply untold_init|].
  intros Hnil. apply (f_equal length) in Hnil.
  rewrite tinfo_init_length in Hnil. simpl in Hnil. lia.
Qed.

Lemma wts_ops_pass_abort_expired thread_ops p ts :
  lastrun && c_abort = true → ts ≠ [] →
  pass 0 thread_ops p 0 ts = None.
Proof.
  intros Hab Hne. destruct ts as [|t tl]; [done|]. simpl.
  unfold wts_ops_visit.
  by destruct (t_state (workers p 0 false t)); simpl; rewrite Hab.
Qed.

Lemma wts_ops_spin_abort thread_ops fuel p fourths ts js :
  workers_keep_protocol workers →
  lastrun && c_abort = true →
  untold ts → ts ≠ [] →
  (∀ ts' js', spin thread_ops fuel p fourths ts js ≠ Finished ts' js') ∧
  (0 ≤ fourths < Z.of_nat fuel →
   spin thread_ops fuel p fourths ts js = DroppedCore).
Proof.
  intros Hprot Hab. revert p fourths ts js.
  induction fuel as [|fuel IH]; intros p fourths ts js Hun Hne; simpl.
  { split; [done | lia]. }
  destruct (pass fourths thread_ops p 0 ts) as [[[ts1 r] js1]|] eqn:Hp;
    [|done].
  destruct (wts_ops_pass_untold _ _ _ _ _ _ _ Hprot (or_introl Hab) Hun Hne Hp)
    as (Hun1 & Hlen & ->).
  simpl.
  assert (ts1 ≠ []) as Hne1 by (intros ->; by destruct ts).
  split.
  - apply IH; done.
  - intros Hf.
    assert (fourths ≠ 0) as Hnz.
    { intros ->. by rewrite wts_ops_pass_abort_expired in Hp. }
    assert ((fourths =? -1) = false) as -> by (apply Z.eqb_neq; lia).
    simpl. apply IH; [done | done | lia].
Qed.

(** X22: on the last run with abort configured, [wts_ops] never returns: no
    worker is told to quit before the monitor writes through the null
    pointer, and with a timer it does so in the pass where the timer expires
    at the latest. *)
Theorem wts_ops_abort_never_returns (c_ops c_threads c_timer : Z) :
  workers_keep_protocol workers →
  lastrun && c_abort = true →
  0 ≤ c_ops → 1 ≤ c_threads → 0 ≤ c_timer → 0 < FORMAT_OPERATION_REPS →
  (∀ fuel ts js,
     wts_ops lastrun c_abort FORMAT_OPERATION_REPS workers fuel c_ops
       c_threads c_timer ≠ Some (Finished ts js)) ∧
  (c_timer ≠ 0 → ∀ fuel : nat,
     c_timer * 4 * 60 / FORMAT_OPERATION_REPS < Z.of_nat fuel →
     wts_ops lastrun c_abort FORMAT_OPERATION_REPS workers fuel c_ops
       c_threads c_timer = Some DroppedCore).
Proof.
  intros Hprot Hab Hops Hthreads Htimer Hreps. unfold wts_ops.
  destruct (thread_share_spec c_ops c_threads) as [-> _]; [lia..|].
  assert (tinfo_init (Z.to_nat c_threads) ≠ []) as Hne.
  { intros Hnil. apply (f_equal length) in Hnil.
    rewrite tinfo_init_length in Hnil. simpl in Hnil. lia. }
  split.
  - intros fuel ts js [= Hs]. revert Hs.
    by apply wts_ops_spin_abort; [| |apply untold_init|].
  - intros Hnz fuel Hfuel. f_equal.
    destruct (timer_fourths_range c_timer) as (_ & Hpos & _); [done..|].
    specialize (Hpos Hnz).
    apply wts_ops_spin_abort; [done|done|apply untold_init|done|].
    split; [done|]. unfold timer_fourths in *.
    assert ((c_timer =? 0) = false) as E by (by apply Z.eqb_neq).
    by rewrite E.
Qed.

Lemma wts_ops_visit_no_abort fourths thread_ops p i t :
  lastrun && c_abort = false →
  ∃ t' r j, visit fourths thread_ops p i t = Some (t', r, j) ∧
    (fourths = 0 → t_quit t' = true) ∧
    (t_state (workers p i false t) ≠ TINFO_RUNNING → r = false).
Proof.
  intros Hab. unfold wts_ops_visit. rewrite Hab.
  destruct (t_state (workers p i false t));
    (destruct ((fourths =? 0) || _) eqn:Hlim;
     eexists _, _, _; (split; [done|]); split; try done;
     intros ->; done).
Qed.

Lemma wts_ops_pass_no_abort fourths thread_ops p i0 ts :
  lastrun && c_abort = false →
  ∃ ts' r js, pass fourths thread_ops p i0 ts = Some (ts', r, js) ∧
    (fourths = 0 → Forall (λ t, t_quit t = true) ts') ∧
    (workers_respond workers → Forall (λ t, t_quit t = true) ts → r = false).
Proof.
  intros Hab. revert i0. induction ts as [|t tl IH]; intros i0; simpl.
  - eexists _, _, _. split; [done|]. split; [by constructor | done].
  - destruct (wts_ops_visit_no_abort fourths thread_ops p i0 t Hab)
      as (t' & r & j & -> & Hq & Hr).
    destruct (IH (S i0)) as (tl' & r' & js' & -> & Hq' & Hr').
    eexists _, _, _. split; [done|]. split.
    + intros Hf. constructor; auto.
    + intros Hresp Hall. apply list.Forall_cons in Hall as [Ht Htl].
      rewrite Hr, Hr'; [done..|]. by apply Hresp.
Qed.

Lemma wts_ops_spin_told thread_ops fuel p fourths ts js :
  lastrun && c_abort = false →
  workers_respond workers →
  Forall (λ t, t_quit t = true) ts →
  ∃ ts' js', spin thread_ops (S fuel) p fourths ts js = Finished ts' js'.
Proof.
  intros Hab Hresp Hall. simpl.
  destruct (wts_ops_pass_no_abort fourths thread_ops p 0 ts Hab)
    as (ts' & r & js' & -> & _ & Hr).
  rewrite Hr; [|done..]. simpl. eauto.
Qed.

Lemma wts_ops_spin_timer thread_ops fuel p fourths ts js :
  lastrun && c_abort = false →
  workers_respond workers →
  0 ≤ fourths → fourths + 2 ≤ Z.of_nat fuel →
  ∃ ts' js', spin thread_ops fuel p fourths ts js = Finished ts' js'.
Proof.
  intros Hab Hresp. revert p fourths ts js.
  induction fuel as [|fuel IH]; intros p fourths ts js Hf Hfuel; [lia|].
  simpl.
  destruct (wts_ops_pass_no_abort fourths thread_ops p 0 ts Hab)
    as (ts' & r & js' & -> & Hq & _).
  destruct r; simpl; [|eauto].
  assert ((fourths =? -1) = false) as -> by (apply Z.eqb_neq; lia).
  simpl.
  destruct (decide (fourths = 0)) as [->|Hnz].
  - destruct fuel as [|fuel]; [lia|].
    apply wts_ops_spin_told; auto.
  - apply IH; lia.
Qed.

(** X23: with a timer, and unless the run is to drop core, the monitor
    leaves the spin loop at the latest two passes after the quarter seconds
    of the timer are used up, provided every worker that is told to quit
    completes before the monitor looks at it again. *)
Theorem wts_ops_timer_ends_run (fuel : nat) (c_ops c_threads c_timer : Z) :
  lastrun && c_abort = false →
  workers_respond workers →
  0 ≤ c_ops → 1 ≤ c_threads → 0 < c_timer → 0 < FORMAT_OPERATION_REPS →
  c_timer * 4 * 60 / FORMAT_OPERATION_REPS + 2 ≤ Z.of_nat fuel →
  ∃ ts js,
    wts_ops lastrun c_abort FORMAT_OPERATION_REPS workers fuel c_ops
      c_threads c_timer = Some (Finished ts js).
Proof.
  intros Hab Hresp Hops Hthreads Htimer Hreps Hfuel. unfold wts_ops.
  destruct (thread_share_spec c_ops c_threads) as [-> _]; [lia..|].
  destruct (timer_fourths_range c_timer) as (_ & Hpos & _); [lia | done|].
  assert (timer_fourths FORMAT_OPERATION_REPS c_timer
          = c_timer * 4 * 60 / FORMAT_OPERATION_REPS) as Heq.
  { unfold timer_fourths.
    assert ((c_timer =? 0) = false) as E by (apply Z.eqb_neq; lia).
    by rewrite E. }
  destruct (wts_ops_spin_timer
              (if c_ops =? 0 then -1 else Z.max c_ops c_threads / c_threads)
              fuel 0 (timer_fourths FORMAT_OPERATION_REPS c_timer)
              (tinfo_init (Z.to_nat c_threads)) [] Hab Hresp)
    as (ts & js & ->); [lia | lia | eauto].
Qed.

End MonitorFacts.

Lemma ex_workers_keep_protocol : workers_keep_protocol ex_workers.
Proof.
  intros p i b [id st q ops]. unfold worker_step_ok, ex_workers.
  destruct st, b, q; simpl; repeat split; auto; lia.
Qed.

Lemma ex_workers_respond : workers_respond ex_workers.
Proof.
  intros p i [id st q ops]. unfold ex_workers. simpl. intros ->.
  by destruct st.
Qed.

Lemma wts_ops_joins_every_worker_once_witness :
  wts_ops false false 100 ex_workers 3 4 2 0
  = Some (Finished [Tinfo 1 TINFO_JOINED true 2; Tinfo 2 TINFO_JOINED true 2]
            [0%nat; 1%nat]) ∧
  [0%nat; 1%nat] ≡ₚ seq 0 (Z.to_nat 2).
Proof.
  assert (wts_ops false false 100 ex_workers 3 4 2 0
          = Some (Finished [Tinfo 1 TINFO_JOINED true 2;
                            Tinfo 2 TINFO_JOINED true 2] [0%nat; 1%nat]))
    as Hrun by reflexivity.
  split; [exact Hrun|].
  destruct (wts_ops_joins_every_worker_once false false 100 ex_workers 3 4 2 0
              _ _ ex_workers_keep_protocol ltac:(lia) ltac:(lia) Hrun)
    as (_ & _ & Hperm & _).
  exact Hperm.
Defined.

Lemma wts_ops_without_limit_never_returns_witness :
  wts_ops false false 100 ex_workers 50 0 2 0 = Some StillRunning.
Proof.
  apply wts_ops_without_limit_never_returns;
    [apply ex_workers_keep_protocol | lia].
Defined.

Lemma wts_ops_abort_never_returns_witness :
  wts_ops true true 100 ex_workers 3 4 2 1 = Some DroppedCore.
Proof.
  destruct (wts_ops_abort_never_returns true true 100 ex_workers 4 2 1
              ex_workers_keep_protocol eq_refl ltac:(lia) ltac:(lia)
              ltac:(lia) ltac:(lia)) as [_ Hdrop].
  apply Hdrop; [lia|]. vm_compute. reflexivity.
Defined.

Lemma wts_ops_timer_ends_run_witness :
  ∃ ts js, wts_ops false false 100 ex_workers 4 0 2 1
           = Some (Finished ts js).
Proof.
  apply wts_ops_timer_ends_run;
    [reflexivity | apply ex_workers_respond | lia | lia | lia | lia |].
  vm_compute. discriminate.
Defined.

End FormatOpsFacts.
